(** * A generalised N-dimensional 2048: the board engine, the attacker
      validation wrapper and the round loop of [2048.py].

    The first part follows the Python source class by class.  Python values
    are an inductive type, nested lists are trees, a method that raises
    returns [None], and the state that the source mutates in place is
    threaded explicitly.  [move] and [place] are written over the two tile
    accessors, once for tiles that are trees and once for tiles that are
    lists in a heap, where sharing can be seen.  The double-precision
    logarithm is a parameter.  The second part states and proves the
    properties of the board, of the score, of the wrappers and of the
    round. *)

From stdpp Require Import gmap strings list fin_maps sorting pretty.

Local Open Scope Z_scope.

(** ** Python values *)

(** The values that reach the board and the decision wrappers.  A value of
    any other type (a string, a float, a dict, ...) is [POther n], where [n]
    is the length of its printed form, the only thing the code observes of it
    besides its type. *)
#[warnings="-register-all"]
Inductive pyval :=
| PInt (z : Z)
| PBool (b : bool)
| PNone
| PList (l : list pyval)
| POther (repr_len : nat).

(** [l[i]] on a Python list: negative indices count from the end, an index
    outside [-len, len) raises [IndexError]. *)
Definition py_index {A} (l : list A) (i : Z) : option nat :=
  let len := Z.of_nat (length l) in
  if bool_decide (0 ≤ i < len) then Some (Z.to_nat i)
  else if bool_decide (- len ≤ i < 0) then Some (Z.to_nat (len + i))
  else None.

Definition py_getitem {A} (l : list A) (i : Z) : option A :=
  n ← py_index l i; l !! n.

(** ** Board: the tile accessors *)

(** The board reads and writes cells only through [__get_tile] and
    [__set_tile]; the algorithms of [move] and [place] are written once over
    this interface.  A cell of a constructed board always holds an int;
    reading anything else is a failure of the model. *)
Class TileStore (S : Type) := {
  get_tile : S → list Z → option Z;
  set_tile : S → list Z → Z → option S
}.

Record Board (S : Type) := mkBoard { shape : list Z; tiles : S }.
Arguments mkBoard {S} _ _.
Arguments shape {S} _.
Arguments tiles {S} _.

(** [__get_tile] on nested lists: [tile=tile[location[dim]]] for each
    component of the location. *)
Fixpoint nested_get (tile : pyval) (location : list Z) : option pyval :=
  match location with
  | [] => Some tile
  | i :: rest =>
      match tile with
      | PList l => sub ← py_getitem l i; nested_get sub rest
      | _ => None
      end
  end.

(** [__set_tile]: walk all components but the last, then assign
    [tile[location[-1]]=number].  An empty location has no last component. *)
Fixpoint nested_set (tile : pyval) (location : list Z) (number : Z)
  : option pyval :=
  match location, tile with
  | [], _ => None
  | i :: rest, PList l =>
      n ← py_index l i;
      match rest with
      | [] => Some (PList (<[n := PInt number]> l))
      | _ :: _ =>
          sub ← l !! n;
          sub' ← nested_set sub rest number;
          Some (PList (<[n := sub']> l))
      end
  | _ :: _, _ => None
  end.

Definition as_int (v : pyval) : option Z :=
  match v with PInt z => Some z | _ => None end.

#[global] Instance nested_store : TileStore pyval := {
  get_tile t location := v ← nested_get t location; as_int v;
  set_tile := nested_set
}.

(** ** Board: [__generate_sequential_coordinates] *)

Definition tile_count (shape : list Z) : Z := foldl Z.mul 1 shape.

(** The inner loop over [enumerate(sequential_coordinates)]: component
    [dim] of every coordinate is overwritten. *)
Definition fill_axis (dimension direction dim dim_length fraction : Z)
    (coords : list (list Z)) : list (list Z) :=
  imap (λ index_coordinate coordinate,
          if bool_decide (direction = -1 ∨ dimension ≠ dim)
          then <[Z.to_nat dim :=
                   (Z.of_nat index_coordinate `div` fraction) `mod` dim_length]>
                 coordinate
          else <[Z.to_nat dim :=
                   dim_length - 1
                   - (Z.of_nat index_coordinate `div` fraction) `mod` dim_length]>
                 coordinate)
       coords.

(** The outer loop over [enumerate(self.__shape)], carrying [fraction]. *)
Fixpoint fill_axes (dimension direction dim : Z) (dims : list Z)
    (fraction : Z) (coords : list (list Z)) : list (list Z) :=
  match dims with
  | [] => coords
  | dim_length :: rest =>
      let fraction := fraction `div` dim_length in
      fill_axes dimension direction (dim + 1) rest fraction
        (fill_axis dimension direction dim dim_length fraction coords)
  end.

Definition generate_sequential_coordinates (shape : list Z)
    (dimension direction : Z) : list (list Z) :=
  let count := tile_count shape in
  let zeros := replicate (Z.to_nat count) (replicate (length shape) 0) in
  fill_axes dimension direction 0 shape count zeros.

(** ** Board: [move] and [place] *)

Section board_ops.
Context {S : Type} `{TileStore S}.

(** The state that [move] threads through its calls of [move_tile]: the
    tiles, [blocked_coordinates] and the running [steps]. *)
Definition move_state : Type := S * list (list Z) * Z.

(** The coordinate component at which a tile stands against the wall. *)
Definition wall_index (shape : list Z) (dimension direction : Z) : option Z :=
  if bool_decide (direction = -1) then Some 0
  else dim_length ← shape !! Z.to_nat dimension; Some (dim_length - 1).

(** The nested [move_tile].  It returns the tiles, the blocked coordinates
    and its own [steps].  [depth] bounds the recursion depth. *)
Fixpoint move_tile (depth : nat) (shape : list Z) (ts : S)
    (blocked : list (list Z)) (coordinate : list Z)
    (dimension direction : Z) : option move_state :=
  match depth with
  | O => None
  | Datatypes.S depth =>
      here ← coordinate !! Z.to_nat dimension;
      wall ← wall_index shape dimension direction;
      if bool_decide (here = wall) then Some (ts, blocked, 0) else
      source ← get_tile ts coordinate;
      if bool_decide (source = 0) then Some (ts, blocked, 0) else
      let target_coordinate :=
        <[Z.to_nat dimension := here + direction]> coordinate in
      if bool_decide (target_coordinate ∈ blocked)
      then Some (ts, blocked, 0) else
      target ← get_tile ts target_coordinate;
      if bool_decide (source = target) then
        ts ← set_tile ts target_coordinate (target * 2);
        ts ← set_tile ts coordinate 0;
        Some (ts, blocked ++ [target_coordinate], 0 + 1)
      else if bool_decide (target = 0) then
        ts ← set_tile ts target_coordinate source;
        ts ← set_tile ts coordinate 0;
        '(ts, blocked, more) ←
          move_tile depth shape ts blocked target_coordinate
            dimension direction;
        Some (ts, blocked, 0 + 1 + more)
      else Some (ts, blocked, 0)
  end.

(** The loop [for coordinate in sequential_coordinates]. *)
Fixpoint move_loop (depth : nat) (shape : list Z) (dimension direction : Z)
    (coords : list (list Z)) (st : move_state) : option move_state :=
  match coords with
  | [] => Some st
  | coordinate :: rest =>
      let '(ts, blocked, steps) := st in
      '(ts, blocked, more) ←
        move_tile depth shape ts blocked coordinate dimension direction;
      move_loop depth shape dimension direction rest
        (ts, blocked, steps + more)
  end.

(** A slide along an axis takes at most as many nested calls as the axis
    is long, so [move] allows that depth plus one. *)
Definition slide_depth (shape : list Z) (dimension : Z) : nat :=
  Datatypes.S (Z.to_nat (default 0 (shape !! Z.to_nat dimension))).

Definition valid_move (shape : list Z) (dimension direction : Z) : Prop :=
  0 ≤ dimension < Z.of_nat (length shape) ∧ (direction = -1 ∨ direction = 1).

#[global] Instance valid_move_dec shape dimension direction :
  Decision (valid_move shape dimension direction).
Proof. unfold valid_move. apply _. Defined.

(** The body of [move] after its two guards: the final tiles, the final
    [blocked_coordinates] and the total [steps]. *)
Definition move_run (b : Board S) (dimension direction : Z)
  : option move_state :=
  move_loop (slide_depth (shape b) dimension) (shape b) dimension direction
    (generate_sequential_coordinates (shape b) dimension direction)
    (tiles b, [], 0).

Definition move (b : Board S) (dimension direction : Z)
  : option (Board S * bool) :=
  if bool_decide (¬ 0 ≤ dimension < Z.of_nat (length (shape b))) then Some (b, false)
  else if bool_decide (direction ∉ [-1; 1]) then Some (b, false)
  else
    '(ts, _, steps) ← move_run b dimension direction;
    Some (mkBoard (shape b) ts, bool_decide (0 < steps)).

(** The loop of [place] over the components of the location: every one is
    an int within its axis.  [None] stands for [return False]. *)
Fixpoint location_in_bounds (location : list pyval) (shape : list Z)
  : option (list Z) :=
  match location, shape with
  | [], _ => Some []
  | PInt i :: rest, dim_length :: shape' =>
      if bool_decide (0 ≤ i < dim_length)
      then loc ← location_in_bounds rest shape'; Some (i :: loc)
      else None
  | _, _ => None
  end.

(** [place]; [roll] is the value drawn by [random.randint(0,9)]. *)
Definition place (b : Board S) (location : list pyval) (roll : Z)
  : option (Board S * bool) :=
  if bool_decide (length location ≠ length (shape b)) then Some (b, false)
  else
    match location_in_bounds location (shape b) with
    | None => Some (b, false)
    | Some loc =>
        cell ← get_tile (tiles b) loc;
        if bool_decide (cell = 0) then
          ts ← set_tile (tiles b) loc (if bool_decide (roll < 9) then 2 else 4);
          Some (mkBoard (shape b) ts, true)
        else Some (b, false)
    end.
End board_ops.

(** ** The double-precision logarithm *)

(** [math.log] is a floating-point routine of the C library; what it
    returns is not defined by the source.  The two expressions in which the
    source uses it are operations of this class.  [log2_frac_nonzero n] is
    the truth value of [log(n,2)%1!=0] and [int_log2_minus_1 n] the value of
    [int(log(n,2)-1)], both for [n > 0]. *)
Class PyMath := {
  log2_frac_nonzero : Z → bool;
  int_log2_minus_1 : Z → Z
}.

(** The instance in which the logarithm is computed exactly. *)
Definition exact_math : PyMath := {|
  log2_frac_nonzero n := bool_decide (n ≠ 2 ^ Z.log2 n);
  int_log2_minus_1 n := Z.log2 n - 1
|}.

(** ** Board: construction *)

(** [len(str(v))] for the values of the model. *)
Fixpoint py_str_len (v : pyval) : nat :=
  match v with
  | PInt z => String.length (pretty z)
  | PBool true => 4
  | PBool false => 5
  | PNone => 4
  | POther repr_len => repr_len
  | PList l => 2 + sum_list (py_str_len <$> l) + 2 * (length l - 1)
  end.

(** The [for dim_length in shape] loop of the constructor: every component
    is an int between 2 and 10. *)
Fixpoint shape_dims (shape : list pyval) : option (list Z) :=
  match shape with
  | [] => Some []
  | PInt dim_length :: rest =>
      if bool_decide (dim_length < 2 ∨ 10 < dim_length) then None
      else dims ← shape_dims rest; Some (dim_length :: dims)
  | _ :: _ => None
  end.

(** The zero-filling loop, from the innermost axis outwards. *)
Definition zero_tiles (shape : list Z) : pyval :=
  foldr (λ dim_length tile, PList (replicate (Z.to_nat dim_length) tile))
        (PInt 0) shape.

(** [recursive_len]: the length of the list, then of its first element,
    and so on while the first element is a list. *)
Fixpoint recursive_len (tiles : pyval) : option (list Z) :=
  match tiles with
  | PList l =>
      match l with
      | [] => None
      | first :: _ =>
          rest ← match first with
                 | PList _ => recursive_len first
                 | _ => Some []
                 end;
          Some (Z.of_nat (length l) :: rest)
      end
  | _ => None
  end.

Section construction.
Context `{PyMath}.

(** The state of [validate_tiles]: [depth], [max_depth], [dims_length]. *)
Definition validation : Type := Z * Z * gmap Z Z.

(** What [validate_tiles] does with an int found at [depth]. *)
Definition validate_leaf (leaf : Z) (st : validation) : option validation :=
  let '(depth, max_depth, dims_length) := st in
  let max_depth := if bool_decide (max_depth = -1) then depth else max_depth in
  if bool_decide (max_depth ≠ depth) then None
  else if bool_decide (leaf < 0 ∨ (0 < leaf ∧ log2_frac_nonzero leaf = true))
       then None
       else Some (depth, max_depth, dims_length).

(** The first lines of [validate_tiles]: record the length seen at this
    depth, or compare with the one recorded. *)
Definition validate_length (len depth : Z) (dims_length : gmap Z Z)
  : option (gmap Z Z) :=
  match dims_length !! depth with
  | None => Some (<[depth := len]> dims_length)
  | Some seen => if bool_decide (seen ≠ len) then None else Some dims_length
  end.

(** The loop [for sub_tiles in tiles] of [validate_tiles]; [validate] is
    the recursive call. *)
Definition validate_each
    (validate : pyval → Z → Z → gmap Z Z → option validation)
  : list pyval → validation → option validation :=
  fix each (subs : list pyval) (st : validation) : option validation :=
    match subs with
    | [] => Some st
    | sub_tiles :: rest =>
        let '(depth, max_depth, dims_length) := st in
        match sub_tiles with
        | PList sub =>
            if bool_decide (0 < length sub)%nat then
              st ← validate sub_tiles (depth + 1) max_depth dims_length;
              each rest st
            else None
        | PInt leaf => st ← validate_leaf leaf st; each rest st
        | _ => None
        end
    end.

(** [validate_tiles], called on a list. *)
Fixpoint validate_tiles (tiles : pyval) (depth max_depth : Z)
    (dims_length : gmap Z Z) : option validation :=
  match tiles with
  | PList l =>
      dims_length ← validate_length (Z.of_nat (length l)) depth dims_length;
      '(depth, max_depth, dims_length) ←
        validate_each validate_tiles l (depth, max_depth, dims_length);
      Some (depth - 1, max_depth, dims_length)
  | _ => None
  end.

(** [Board.__init__].  [shape] is the tuple given as shape, [load_tiles]
    the keyword argument.  On trees, which share nothing, [deepcopy] returns
    its argument; the copy itself is modelled below, on lists in a heap. *)
Definition Board_init (shape : list pyval) (load_tiles : pyval)
  : option (Board pyval) :=
  match load_tiles with
  | PList (_ :: _) =>
      if bool_decide (200 < py_str_len load_tiles)%nat then None else
      _ ← validate_tiles load_tiles 0 (-1) ∅;
      dims ← recursive_len load_tiles;
      Some (mkBoard dims load_tiles)
  | _ =>
      if bool_decide (length shape = 0%nat) then None
      else if bool_decide (4 < length shape)%nat then None
      else dims ← shape_dims shape; Some (mkBoard dims (zero_tiles dims))
  end.

(** ** Round: [get_score] *)

(** The score of one tile: [0 if sub_tiles==0 else
    sub_tiles*int(log(sub_tiles,2)-1)]; the logarithm of a negative number
    raises. *)
Definition tile_score (tile : Z) : option Z :=
  if bool_decide (tile = 0) then Some 0
  else if bool_decide (tile < 0) then None
  else Some (tile * int_log2_minus_1 tile).

(** [get_score(tiles, score)] on a list of lists and ints; a tile that is
    not an int is outside the model. *)
Fixpoint get_score (tiles : pyval) (score : Z) : option Z :=
  match tiles with
  | PList l =>
      (fix each (subs : list pyval) (score : Z) : option Z :=
         match subs with
         | [] => Some score
         | sub_tiles :: rest =>
             match sub_tiles with
             | PList _ => score ← get_score sub_tiles score; each rest score
             | PInt tile => s ← tile_score tile; each rest (score + s)
             | _ => None
             end
         end) l score
  | _ => None
  end.
End construction.

(** ** The decision wrappers *)

(** What a provider's [think] hands back: a dict with string keys, or
    something that is not a dict. *)
Inductive think_result :=
| ThinkDict (d : gmap string pyval)
| ThinkOther (v : pyval).

(** [Base_Attacker.get_place_instruction], after the call of [think].  The
    loop over the elements of the location stands below a [raise] in the
    source and is never run. *)
Definition get_place_instruction (place_instruction : think_result)
  : option (gmap string pyval) :=
  match place_instruction with
  | ThinkOther _ => None
  | ThinkDict d =>
      if bool_decide (size d ≠ 2%nat) then None
      else
        match d !! "keepgoing", d !! "location" with
        | Some keepgoing, Some location =>
            match keepgoing with
            | PBool true =>
                match location with
                | PList _ => Some d
                | _ => None
                end
            | PBool false => Some d
            | _ => None
            end
        | _, _ => None
        end
  end.

(** A direction that passes [direction not in (-1,1)]: [True] equals 1. *)
Definition as_direction (v : pyval) : option Z :=
  match v with
  | PInt z => if bool_decide (z = -1 ∨ z = 1) then Some z else None
  | PBool true => Some 1
  | _ => None
  end.

(** [Base_Defender.get_move_instruction], after the call of [think]. *)
Definition get_move_instruction (move_instruction : think_result)
  : option (gmap string pyval) :=
  match move_instruction with
  | ThinkOther _ => None
  | ThinkDict d =>
      if bool_decide (size d ≠ 3%nat) then None
      else
        match d !! "keepgoing", d !! "dimension", d !! "direction" with
        | Some keepgoing, Some dimension, Some direction =>
            match keepgoing with
            | PBool true =>
                match dimension, as_direction direction with
                | PInt _, Some _ => Some d
                | _, _ => None
                end
            | PBool false => Some d
            | _ => None
            end
        | _, _, _ => None
        end
  end.

(** ** Round: [start] *)

(** How a call of a provider ends: it returns, it raises an [Exception], or
    it leaves through [sys.exit]. *)
Inductive outcome (A : Type) :=
| Returned (a : A)
| Raised
| Exited.
Arguments Returned {A} _.
Arguments Raised {A}.
Arguments Exited {A}.

(** A provider answers its [n]-th question about the tiles it is shown;
    whatever it draws at random, reads from the console or is sent by a
    remote player is part of the function. *)
Definition provider : Type := nat → pyval → outcome think_result.

Inductive event :=
| AskedAttacker (tiles : pyval)
| AskedDefender (tiles : pyval).

Inductive turn := AttackTurn | DefendTurn.

(** The running round: its board, the questions asked so far (oldest
    first), and how many numbers have been drawn for [place]. *)
Record round_state := mkRound {
  board : Board pyval;
  asked : list event;
  drawn : nat
}.

Definition to_attacker (e : event) : bool :=
  match e with AskedAttacker _ => true | AskedDefender _ => false end.

Definition attacker_asked (st : round_state) : nat :=
  length (filter (λ e, to_attacker e) (asked st)).

Definition defender_asked (st : round_state) : nat :=
  length (filter (λ e, negb (to_attacker e)) (asked st)).

Section round.
Context `{PyMath}.
Variables (attacker defender : provider) (rolls : nat → Z).

Definition is_true (v : option pyval) : bool :=
  match v with Some (PBool true) => true | _ => false end.

Definition list_items (v : option pyval) : list pyval :=
  match v with Some (PList l) => l | _ => [] end.

(** The two nested [while] loops of [start].  Every question to a
    provider takes one unit of [fuel]; [None] means the round is still
    running when the fuel is spent.  The result is the score and the final
    state, or [Exited] when the round quits by force. *)
Fixpoint play (fuel : nat) (who : turn) (st : round_state)
  : option (outcome (Z * round_state)) :=
  match fuel with
  | O => None
  | Datatypes.S fuel =>
      let shown := tiles (board st) in
      match who with
      | AttackTurn =>
          let answer := attacker (attacker_asked st) shown in
          let st := mkRound (board st) (asked st ++ [AskedAttacker shown])
                            (drawn st) in
          match answer with
          | Exited => Some Exited
          | Raised => play fuel AttackTurn st
          | Returned answer =>
              match get_place_instruction answer with
              | None => play fuel AttackTurn st
              | Some attacker_instruction =>
                  if is_true (attacker_instruction !! "keepgoing") then
                    match place (board st)
                            (list_items (attacker_instruction !! "location"))
                            (rolls (drawn st)) with
                    | None => Some Raised
                    | Some (b, true) =>
                        play fuel DefendTurn
                          (mkRound b (asked st) (Datatypes.S (drawn st)))
                    | Some (b, false) =>
                        play fuel AttackTurn (mkRound b (asked st) (drawn st))
                    end
                  else
                    match get_score shown 0 with
                    | Some round_score => Some (Returned (round_score, st))
                    | None => Some Raised
                    end
              end
          end
      | DefendTurn =>
          let answer := defender (defender_asked st) shown in
          let st := mkRound (board st) (asked st ++ [AskedDefender shown])
                            (drawn st) in
          match answer with
          | Exited => Some Exited
          | Raised => play fuel DefendTurn st
          | Returned answer =>
              match get_move_instruction answer with
              | None => play fuel DefendTurn st
              | Some defender_instruction =>
                  if is_true (defender_instruction !! "keepgoing") then
                    match as_int (default PNone
                                    (defender_instruction !! "dimension")),
                          as_direction (default PNone
                                    (defender_instruction !! "direction")) with
                    | Some dimension, Some direction =>
                        match move (board st) dimension direction with
                        | None => Some Raised
                        | Some (b, true) =>
                            play fuel AttackTurn
                              (mkRound b (asked st) (drawn st))
                        | Some (b, false) =>
                            play fuel DefendTurn
                              (mkRound b (asked st) (drawn st))
                        end
                    | _, _ => Some Raised
                    end
                  else
                    match get_score shown 0 with
                    | Some round_score => Some (Returned (round_score, st))
                    | None => Some Raised
                    end
              end
          end
      end
  end.

(** [Round.start] with the two providers already built: the board is
    constructed, a failure there quits by force, then the turns alternate
    from the attacker's. *)
Definition Round_start (fuel : nat) (board_shape : list pyval)
    (board_tiles : pyval) : option (outcome (Z * round_state)) :=
  match Board_init board_shape board_tiles with
  | None => Some Exited
  | Some b => play fuel AttackTurn (mkRound b [] 0)
  end.
End round.

(** ** Lists as shared objects *)

(** For the question whether a board shares its lists with the layout it
    was built from, lists are objects in a heap: a value is an atom or a
    reference to a list, and the heap maps each reference to the elements of
    its list.  A new list gets the next free reference. *)
Inductive hval :=
| HInt (z : Z)
| HBool (b : bool)
| HNone
| HRef (l : nat)
| HOther (repr_len : nat).

Abbreviation heap := (list (list hval)).

(** The nested list that a value denotes in a heap; [depth] bounds the
    nesting. *)
Fixpoint reify (depth : nat) (h : heap) (v : hval) : option pyval :=
  match v with
  | HInt z => Some (PInt z)
  | HBool b => Some (PBool b)
  | HNone => Some PNone
  | HOther repr_len => Some (POther repr_len)
  | HRef l =>
      match depth with
      | O => None
      | Datatypes.S depth =>
          xs ← h !! l; subs ← mapM (reify depth h) xs; Some (PList subs)
      end
  end.

(** The loop of [deepcopy] over the elements of a list: each copy is
    appended to the new list [y]; [copy] is the recursive call. *)
Definition deepcopy_each
    (copy : heap → gmap nat nat → hval → option (heap * gmap nat nat * hval))
    (y : nat)
  : list hval → heap → gmap nat nat → option (heap * gmap nat nat) :=
  fix each (xs : list hval) (h : heap) (memo : gmap nat nat) :=
    match xs with
    | [] => Some (h, memo)
    | a :: rest =>
        '(h, memo, a') ← copy h memo a;
        each rest (alter (λ ys, ys ++ [a']) y h) memo
    end.

(** [copy.deepcopy]: an atom is returned as it is; a list already copied is
    looked up in the memo; otherwise a new empty list is created, entered in
    the memo, and filled with the copies of the elements.  [depth] bounds the
    nesting. *)
Fixpoint deepcopy (depth : nat) (h : heap) (memo : gmap nat nat) (v : hval)
  : option (heap * gmap nat nat * hval) :=
  match v with
  | HRef l =>
      match memo !! l with
      | Some y => Some (h, memo, HRef y)
      | None =>
          match depth with
          | O => None
          | Datatypes.S depth =>
              xs ← h !! l;
              let y := length h in
              '(h, memo) ←
                deepcopy_each (deepcopy depth) y xs (h ++ [[]])
                  (<[l := y]> memo);
              Some (h, memo, HRef y)
          end
      end
  | _ => Some (h, memo, v)
  end.

(** The loop [tile=tile[location[dim]]] through the heap. *)
Fixpoint heap_walk (h : heap) (tile : hval) (location : list Z)
  : option hval :=
  match location with
  | [] => Some tile
  | i :: rest =>
      match tile with
      | HRef l => xs ← h !! l; sub ← py_getitem xs i; heap_walk h sub rest
      | _ => None
      end
  end.

Definition heap_get (s : heap * hval) (location : list Z) : option Z :=
  v ← heap_walk s.1 s.2 location;
  match v with HInt z => Some z | _ => None end.

(** [__set_tile] through the heap: the list reached by all components but
    the last is updated in place. *)
Definition heap_set (s : heap * hval) (location : list Z) (number : Z)
  : option (heap * hval) :=
  i ← last location;
  tile ← heap_walk s.1 s.2 (removelast location);
  match tile with
  | HRef l =>
      xs ← s.1 !! l; n ← py_index xs i;
      Some (<[l := <[n := HInt number]> xs]> s.1, s.2)
  | _ => None
  end.

#[global] Instance heap_store : TileStore (heap * hval) := {
  get_tile := heap_get;
  set_tile := heap_set
}.

(** [Board(load_tiles=L)] for a non-empty list [L] of the heap, the branch
    of the constructor that copies: the checks read the nested list that [L]
    denotes, the tiles of the board are its deep copy. *)
Definition Board_init_load `{PyMath} (depth : nat) (h : heap)
    (load_tiles : hval) : option (Board (heap * hval)) :=
  layout ← reify depth h load_tiles;
  match layout with
  | PList (_ :: _) =>
      if bool_decide (200 < py_str_len layout)%nat then None else
      _ ← validate_tiles layout 0 (-1) ∅;
      dims ← recursive_len layout;
      '(h, _, copy) ← deepcopy depth h ∅ load_tiles;
      Some (mkBoard dims (h, copy))
  | _ => None
  end.

(** A call of one of the two mutators of a board. *)
Inductive call :=
| CallPlace (location : list pyval) (roll : Z)
| CallMove (dimension direction : Z).

Definition run_call {S} `{TileStore S} (b : Board S) (c : call)
  : option (Board S) :=
  match c with
  | CallPlace location roll => fst <$> place b location roll
  | CallMove dimension direction => fst <$> move b dimension direction
  end.

Fixpoint run_calls {S} `{TileStore S} (b : Board S) (calls : list call)
  : option (Board S) :=
  match calls with
  | [] => Some b
  | c :: rest => b ← run_call b c; run_calls b rest
  end.

(** ** The robot players *)

(** [random.choice(seq)]: the element at the index that is drawn.  [draw]
    stands for the random number; every index of the sequence is the
    remainder of some draw.  On an empty sequence the call raises. *)
Definition random_choice {A} (draw : nat) (seq : list A) : option A :=
  seq !! (draw `mod` length seq)%nat.

(** [sub_tiles==0] for a value that is not a list: [False] equals 0, [None]
    does not; how a value of another type compares with 0 is not
    modelled. *)
Definition equals_zero (v : pyval) : option bool :=
  match v with
  | PInt z => Some (bool_decide (z = 0))
  | PBool b => Some (negb b)
  | POther _ => None
  | _ => Some false
  end.

(** The loop [for index,sub_tiles in enumerate(tiles)] of
    [find_zero_tiles].  [coordinate.append(index)] and [coordinate.pop()]
    enclose every round of the loop, so the round works on
    [coordinate ++ [index]]; [find] is the recursive call. *)
Definition find_zero_each
    (find : pyval → list Z → list (list Z) → option (list (list Z)))
    (coordinate : list Z)
  : Z → list pyval → list (list Z) → option (list (list Z)) :=
  fix each (index : Z) (subs : list pyval) (zero_tiles : list (list Z)) :=
    match subs with
    | [] => Some zero_tiles
    | sub_tiles :: rest =>
        zero_tiles ←
          match sub_tiles with
          | PList _ => find sub_tiles (coordinate ++ [index]) zero_tiles
          | _ =>
              is_zero ← equals_zero sub_tiles;
              Some (if is_zero : bool
                    then zero_tiles ++ [coordinate ++ [index]]
                    else zero_tiles)
          end;
        each (index + 1) rest zero_tiles
    end.

(** [find_zero_tiles] of [Random_Attacker.think]. *)
Fixpoint find_zero_tiles (tiles : pyval) (coordinate : list Z)
    (zero_tiles : list (list Z)) : option (list (list Z)) :=
  match tiles with
  | PList l => find_zero_each find_zero_tiles coordinate 0 l zero_tiles
  | _ => None
  end.

(** [Random_Attacker.think]. *)
Definition Random_Attacker_think (draw : nat) (tiles : pyval)
  : option think_result :=
  zero_tiles ← find_zero_tiles tiles [] [];
  if bool_decide (0 < length zero_tiles)%nat then
    location ← random_choice draw zero_tiles;
    Some (ThinkDict {[ "keepgoing" := PBool true;
                       "location" := PList (PInt <$> location) ]})
  else
    Some (ThinkDict {[ "keepgoing" := PBool false; "location" := PNone ]}).

(** The key under which a tile is entered in [tiles_location]: as keys of
    a dict [False] is 0 and [True] is 1.  Tiles that are neither ints nor
    bools are not modelled. *)
Definition tile_key (v : pyval) : option Z :=
  match v with
  | PInt z => Some z
  | PBool b => Some (if b then 1 else 0)
  | _ => None
  end.

(** The loop of [recursive_tile]: every tile is entered with its
    coordinate, [tiles_location.setdefault(sub_tiles,[]).append(...)]. *)
Definition recursive_tile_each
    (recur : pyval → list Z → gmap Z (list (list Z))
             → option (gmap Z (list (list Z))))
    (coordinate : list Z)
  : Z → list pyval → gmap Z (list (list Z))
    → option (gmap Z (list (list Z))) :=
  fix each (index : Z) (subs : list pyval)
      (tiles_location : gmap Z (list (list Z))) :=
    match subs with
    | [] => Some tiles_location
    | sub_tiles :: rest =>
        tiles_location ←
          match sub_tiles with
          | PList _ => recur sub_tiles (coordinate ++ [index]) tiles_location
          | _ =>
              key ← tile_key sub_tiles;
              Some (<[key := default [] (tiles_location !! key)
                             ++ [coordinate ++ [index]]]> tiles_location)
          end;
        each (index + 1) rest tiles_location
    end.

Fixpoint recursive_tile (tiles : pyval) (coordinate : list Z)
    (tiles_location : gmap Z (list (list Z)))
  : option (gmap Z (list (list Z))) :=
  match tiles with
  | PList l => recursive_tile_each recursive_tile coordinate 0 l tiles_location
  | _ => None
  end.

(** The loop of [is_adjoining] over [range(len(location_a))], with
    [adjoining_dims_count] carried along; [location_b] running out is an
    [IndexError]. *)
Fixpoint is_adjoining_from (location_a location_b : list Z)
    (adjoining_dims_count : Z) : option bool :=
  match location_a with
  | [] => Some (bool_decide (adjoining_dims_count = 1))
  | a :: rest_a =>
      match location_b with
      | [] => None
      | b :: rest_b =>
          if bool_decide (Z.abs (a - b) = 1)
          then is_adjoining_from rest_a rest_b (adjoining_dims_count + 1)
          else if bool_decide (1 < Z.abs (a - b)) then Some false
          else is_adjoining_from rest_a rest_b adjoining_dims_count
      end
  end.

Definition is_adjoining (location_a location_b : list Z) : option bool :=
  is_adjoining_from location_a location_b 0.

(** The loop [for zero_tile in tiles_location[0]]. *)
Fixpoint adjoining_zeros (greatest_tile : list Z) (zeros : list (list Z))
    (possible_zeros : list (list Z)) : option (list (list Z)) :=
  match zeros with
  | [] => Some possible_zeros
  | zero_tile :: rest =>
      adjoining ← is_adjoining greatest_tile zero_tile;
      adjoining_zeros greatest_tile rest
        (if adjoining : bool then possible_zeros ++ [zero_tile]
         else possible_zeros)
  end.

(** The loop [for greatest_tile in tiles_location[greatest_number]]. *)
Fixpoint adjoining_tiles (greatest_tiles zeros : list (list Z))
    (possible_zeros : list (list Z)) : option (list (list Z)) :=
  match greatest_tiles with
  | [] => Some possible_zeros
  | greatest_tile :: rest =>
      possible_zeros ← adjoining_zeros greatest_tile zeros possible_zeros;
      adjoining_tiles rest zeros possible_zeros
  end.

(** The loop [for greatest_number in sorted_numbers], left by [break] as
    soon as a zero tile has been found. *)
Fixpoint greatest_adjoining (sorted_numbers : list Z)
    (tiles_location : gmap Z (list (list Z)))
    (possible_zeros : list (list Z)) : option (list (list Z)) :=
  match sorted_numbers with
  | [] => Some possible_zeros
  | greatest_number :: rest =>
      greatest_tiles ← tiles_location !! greatest_number;
      zeros ← tiles_location !! 0;
      possible_zeros ← adjoining_tiles greatest_tiles zeros possible_zeros;
      if bool_decide (0 < length possible_zeros)%nat then Some possible_zeros
      else greatest_adjoining rest tiles_location possible_zeros
  end.

(** [list({}.fromkeys(seq).keys())]: the elements of [seq] without
    repetition, in the order of their first occurrence. *)
Definition fromkeys {A} `{EqDecision A} (seq : list A) : list A :=
  foldl (λ keys x, if decide (x ∈ keys) then keys else keys ++ [x]) [] seq.

(** The order of [sort(reverse=True)]. *)
Definition descending (x y : Z) : Prop := y ≤ x.

#[global] Instance descending_dec x y : Decision (descending x y).
Proof. unfold descending. apply _. Defined.

(** [list(d.keys())] followed by [sort(reverse=True)]. *)
Definition sorted_keys_reverse {V} (d : gmap Z V) : list Z :=
  merge_sort descending (map_to_list d).*1.

(** [Strategy_Attacker.think]. *)
Definition Strategy_Attacker_think (draw : nat) (tiles : pyval)
  : option think_result :=
  tiles_location ← recursive_tile tiles [] ∅;
  possible_zeros ←
    match tiles_location !! 0 with
    | Some _ =>
        possible_zeros ←
          greatest_adjoining (sorted_keys_reverse tiles_location)
            tiles_location [];
        Some (fromkeys possible_zeros)
    | None => Some []
    end;
  if bool_decide (0 < length possible_zeros)%nat then
    location ← random_choice draw possible_zeros;
    Some (ThinkDict {[ "keepgoing" := PBool true;
                       "location" := PList (PInt <$> location) ]})
  else
    Some (ThinkDict {[ "keepgoing" := PBool false; "location" := PNone ]}).

(** [recursive_dims] of the two robot defenders: how deep the first
    elements nest; [tiles[0]] raises on an empty list. *)
Fixpoint recursive_dims (tiles : pyval) (dims : Z) : option Z :=
  match tiles with
  | PList l =>
      match l with
      | [] => None
      | first :: _ => recursive_dims first (dims + 1)
      end
  | _ => Some dims
  end.

Section defenders.
Context `{PyMath}.

(** [(Board(load_tiles=tiles)).move(dim,direction)]: a board of its own is
    built from the tiles shown, with the default shape (4,4) for the case
    that the tiles are no layout, and moved; the tiles shown stay as they
    are. *)
Definition trial_move (tiles : pyval) (dim direction : Z) : option bool :=
  b ← Board_init [PInt 4; PInt 4] tiles;
  '(_, moved) ← move b dim direction;
  Some moved.

(** The loop [for dim in range(dims)] of [Random_Defender.think]. *)
Fixpoint Random_Defender_moves (tiles : pyval) (dims : list Z)
    (possible_moves : list (list Z)) : option (list (list Z)) :=
  match dims with
  | [] => Some possible_moves
  | dim :: rest =>
      moved ← trial_move tiles dim (-1);
      let possible_moves :=
        if moved : bool then possible_moves ++ [[dim; -1]]
        else possible_moves in
      moved ← trial_move tiles dim 1;
      let possible_moves :=
        if moved : bool then possible_moves ++ [[dim; 1]]
        else possible_moves in
      Random_Defender_moves tiles rest possible_moves
  end.

(** [Random_Defender.think]. *)
Definition Random_Defender_think (draw : nat) (tiles : pyval)
  : option think_result :=
  dims ← recursive_dims tiles 0;
  possible_moves ← Random_Defender_moves tiles (seqZ 0 dims) [];
  if bool_decide (0 < length possible_moves)%nat then
    decided_move ← random_choice draw possible_moves;
    dimension ← decided_move !! 0%nat;
    direction ← decided_move !! 1%nat;
    Some (ThinkDict {[ "keepgoing" := PBool true;
                       "dimension" := PInt dimension;
                       "direction" := PInt direction ]})
  else
    Some (ThinkDict {[ "keepgoing" := PBool false;
                       "dimension" := PNone; "direction" := PNone ]}).

(** A loop of [Strategy_Defender.think]: the first axis of [dims] along
    which the tiles can be moved in [direction]. *)
Fixpoint first_movable (tiles : pyval) (dims : list Z) (direction : Z)
  : option (option Z) :=
  match dims with
  | [] => Some None
  | dim :: rest =>
      moved ← trial_move tiles dim direction;
      if moved : bool then Some (Some dim)
      else first_movable tiles rest direction
  end.

(** [Strategy_Defender.think]: toward the origin along the first axis that
    moves, otherwise away from it along the last axis that moves. *)
Definition Strategy_Defender_think (tiles : pyval) : option think_result :=
  dims ← recursive_dims tiles 0;
  found ← first_movable tiles (seqZ 0 dims) (-1);
  match found with
  | Some dim =>
      Some (ThinkDict {[ "keepgoing" := PBool true;
                         "dimension" := PInt dim;
                         "direction" := PInt (-1) ]})
  | None =>
      found ← first_movable tiles (reverse (seqZ 0 dims)) 1;
      match found with
      | Some reversed_dim =>
          Some (ThinkDict {[ "keepgoing" := PBool true;
                             "dimension" := PInt reversed_dim;
                             "direction" := PInt 1 ]})
      | None =>
          Some (ThinkDict {[ "keepgoing" := PBool false;
                             "dimension" := PNone; "direction" := PNone ]})
      end
  end.
End defenders.

(** A player whose [think] is a function of the tiles it is shown: what
    [think] returns is handed on, and when it raises so does the call. *)
Definition thinking (think : pyval → option think_result) (shown : pyval)
  : outcome think_result :=
  match think shown with
  | Some answer => Returned answer
  | None => Raised
  end.

(** ** Which players a round gets *)

(** [dict.get(key, default)] on a dict of strings. *)
Definition dict_get (d : gmap string string) (key fallback : string)
  : string :=
  default fallback (d !! key).

(** [Server]: the types of the two players of a round started by a
    request, from the parameters of its query string (the head of
    [online_round]). *)
Definition online_round_types (parameters : gmap string string)
  : string * string :=
  let arg_attacker_type := dict_get parameters "attacker_type" "Random" in
  let arg_defender_type := dict_get parameters "defender_type" "Online" in
  let arg_attacker_type :=
    if bool_decide (arg_attacker_type = "Manual") then "Random"
    else arg_attacker_type in
  let arg_defender_type :=
    if bool_decide (arg_defender_type = "Manual") then "Online"
    else arg_defender_type in
  let arg_defender_type :=
    if bool_decide (arg_attacker_type ≠ "Online")
       && bool_decide (arg_defender_type ≠ "Online")
    then "Online" else arg_defender_type in
  (arg_attacker_type, arg_defender_type).

(** [main] in console mode: the types of the two players of each round,
    from the arguments of the command line.  [typed_attacker] and
    [typed_defender] are the lines typed at the two prompts, stripped; they
    are read only when [localonly] is not [auto].  Without the argument
    [localonly] the server is started instead: [None]. *)
Definition main_round_types (args : gmap string string)
    (typed_attacker typed_defender : string) : option (string * string) :=
  match args !! "localonly" with
  | None => None
  | Some localonly =>
      let auto := bool_decide (localonly = "auto") in
      let arg_attacker_type := dict_get args "attacker_type" "Random" in
      let input_attacker_type := if auto then "" else typed_attacker in
      let input_attacker_type :=
        if bool_decide (input_attacker_type = "") then arg_attacker_type
        else input_attacker_type in
      let input_attacker_type :=
        if bool_decide (input_attacker_type = "Online") then "Random"
        else input_attacker_type in
      let input_attacker_type :=
        if auto && bool_decide (input_attacker_type = "Manual") then "Random"
        else input_attacker_type in
      let arg_defender_type := dict_get args "defender_type" "Manual" in
      let input_defender_type := if auto then "" else typed_defender in
      let input_defender_type :=
        if bool_decide (input_defender_type = "") then arg_defender_type
        else input_defender_type in
      let input_defender_type :=
        if bool_decide (input_defender_type = "Online") then "Manual"
        else input_defender_type in
      let input_defender_type :=
        if auto && bool_decide (input_defender_type = "Manual") then "Random"
        else input_defender_type in
      Some (input_attacker_type, input_defender_type)
  end.

(** * Properties *)

(** ** Boards written as lists of numbers *)

Definition ints (l : list Z) : pyval := PList (PInt <$> l).
Definition rows (l : list (list Z)) : pyval := PList (ints <$> l).

(** The example of the docstring of [move]. *)
Example move_four_fours :
  move (mkBoard [4] (ints [4;4;4;4])) 0 (-1)
  = Some (mkBoard [4] (ints [8;8;0;0]), true).
Proof. vm_compute. reflexivity. Qed.

(** A 2x2 board of twos moved along the first axis toward the origin. *)
Example move_scenario_2 :
  move (mkBoard [2;2] (rows [[2;2];[2;2]])) 0 (-1)
  = Some (mkBoard [2;2] (rows [[4;4];[0;0]]), true).
Proof. vm_compute. reflexivity. Qed.

(** One row [2,2,4,0] moved toward the origin: one merge, two moves. *)
Example move_scenario_3 :
  move (mkBoard [1;4] (rows [[2;2;4;0]])) 1 (-1)
  = Some (mkBoard [1;4] (rows [[4;4;0;0]]), true).
Proof. vm_compute. reflexivity. Qed.

(** The example in the comments of [__generate_sequential_coordinates]: a
    3x3 board moved to the right. *)
Example seq_coords_3x3_right :
  generate_sequential_coordinates [3;3] 1 1
  = [[0;2];[0;1];[0;0];[1;2];[1;1];[1;0];[2;2];[2;1];[2;0]].
Proof. vm_compute. reflexivity. Qed.

(** ** Coordinates, lines and the distance to the wall *)

Definition in_shape (shape c : list Z) : Prop :=
  Forall2 (λ dim_length i, 0 ≤ i < dim_length) shape c.

Definition positive_shape (shape : list Z) : Prop :=
  Forall (λ dim_length, 0 < dim_length) shape.

Definition component (c : list Z) (dimension : Z) : Z :=
  default 0 (c !! Z.to_nat dimension).

(** The neighbour of [c] one step in the movement direction:
    [target_coordinate] of [move_tile]. *)
Definition toward (dimension direction : Z) (c : list Z) : list Z :=
  <[Z.to_nat dimension := component c dimension + direction]> c.

(** How many cells lie between [c] and the wall the move goes to. *)
Definition wall_distance (shape : list Z) (dimension direction : Z)
    (c : list Z) : Z :=
  if bool_decide (direction = -1) then component c dimension
  else component shape dimension - 1 - component c dimension.

(** Two coordinates are on one line of an axis when they agree everywhere
    but on that axis. *)
Definition same_line (dimension : Z) (c c' : list Z) : Prop :=
  <[Z.to_nat dimension := 0]> c = <[Z.to_nat dimension := 0]> c'.

#[global] Instance same_line_dec dimension c c' :
  Decision (same_line dimension c c').
Proof. unfold same_line. apply _. Defined.

#[global] Instance in_shape_dec shape c : Decision (in_shape shape c).
Proof. unfold in_shape. apply _. Defined.

Section coordinates.
Variables (shape : list Z) (dimension direction : Z).
Hypothesis Hvalid : @valid_move shape dimension direction.

Lemma in_shape_length c : in_shape shape c → length c = length shape.
Proof. intros Hc. symmetry. exact (Forall2_length _ _ _ Hc). Qed.

Lemma in_shape_component c :
  in_shape shape c →
  c !! Z.to_nat dimension = Some (component c dimension)
  ∧ shape !! Z.to_nat dimension = Some (component shape dimension)
  ∧ 0 ≤ component c dimension < component shape dimension.
Proof.
  intros Hc. destruct Hvalid as [Hd _].
  destruct (lookup_lt_is_Some_2 shape (Z.to_nat dimension)) as [n Hn]; [lia|].
  destruct (Forall2_lookup_l _ _ _ _ _ Hc Hn) as (i & Hi & Hin).
  unfold component. rewrite Hi, Hn. simpl. auto.
Qed.

Lemma wall_distance_nonneg c :
  in_shape shape c → 0 ≤ wall_distance shape dimension direction c.
Proof.
  intros Hc. destruct (in_shape_component c Hc) as (_ & _ & Hb).
  unfold wall_distance. case_bool_decide; lia.
Qed.

Lemma wall_distance_bound c :
  in_shape shape c →
  wall_distance shape dimension direction c < component shape dimension.
Proof.
  intros Hc. destruct (in_shape_component c Hc) as (_ & _ & Hb).
  unfold wall_distance. case_bool_decide; lia.
Qed.

Lemma toward_in_shape c :
  in_shape shape c → wall_distance shape dimension direction c ≠ 0 →
  in_shape shape (toward dimension direction c).
Proof.
  intros Hc Hw. destruct (in_shape_component c Hc) as (Hci & Hsi & Hb).
  unfold toward. apply Forall2_same_length_lookup. split.
  - rewrite length_insert. symmetry. by apply in_shape_length.
  - intros i n x Hn Hx.
    destruct (decide (i = Z.to_nat dimension)) as [->|Hne].
    + rewrite list_lookup_insert_eq in Hx
        by (apply lookup_lt_is_Some; eauto).
      assert (n = component shape dimension) by congruence.
      assert (x = component c dimension + direction) by congruence.
      subst n x. unfold wall_distance in Hw.
      destruct Hvalid as [_ [->| ->]]; case_bool_decide; lia.
    + rewrite list_lookup_insert_ne in Hx by done.
      eapply (Forall2_lookup_lr _ _ _ _ _ _ Hc); eauto.
Qed.

Lemma toward_component c :
  in_shape shape c →
  component (toward dimension direction c) dimension
  = component c dimension + direction.
Proof.
  intros Hc. destruct (in_shape_component c Hc) as (Hci & _ & _).
  unfold toward, component at 1.
  rewrite list_lookup_insert_eq by (apply lookup_lt_is_Some; eauto). done.
Qed.

Lemma toward_distance c :
  in_shape shape c →
  wall_distance shape dimension direction (toward dimension direction c)
  = wall_distance shape dimension direction c - 1.
Proof.
  intros Hc. unfold wall_distance. rewrite toward_component by done.
  destruct Hvalid as [_ [->| ->]]; case_bool_decide; lia.
Qed.

Lemma toward_neq c : in_shape shape c → toward dimension direction c ≠ c.
Proof.
  intros Hc Heq. pose proof (toward_component c Hc) as Ht.
  rewrite Heq in Ht. destruct Hvalid as [_ [->| ->]]; lia.
Qed.

Lemma toward_same_line c : same_line dimension c (toward dimension direction c).
Proof. unfold same_line, toward. by rewrite list_insert_insert_eq. Qed.

Lemma same_line_refl c : same_line dimension c c.
Proof. done. Qed.

Lemma same_line_sym c c' : same_line dimension c c' → same_line dimension c' c.
Proof. unfold same_line. done. Qed.

Lemma same_line_trans c c' c'' :
  same_line dimension c c' → same_line dimension c' c'' →
  same_line dimension c c''.
Proof. unfold same_line. congruence. Qed.

(** On one line, the component along the axis identifies the cell. *)
Lemma same_line_component_eq c c' :
  in_shape shape c → in_shape shape c' → same_line dimension c c' →
  component c dimension = component c' dimension → c = c'.
Proof.
  intros Hc Hc' Hl He.
  destruct (in_shape_component c Hc) as (Hci & _ & _).
  destruct (in_shape_component c' Hc') as (Hci' & _ & _).
  rewrite <- (list_insert_id c _ _ Hci), <- (list_insert_id c' _ _ Hci').
  rewrite <- (list_insert_insert_eq c _ (component c dimension) 0).
  rewrite <- (list_insert_insert_eq c' _ (component c' dimension) 0).
  unfold same_line in Hl. by rewrite Hl, He.
Qed.

Lemma same_line_distance_eq c c' :
  in_shape shape c → in_shape shape c' → same_line dimension c c' →
  wall_distance shape dimension direction c
  = wall_distance shape dimension direction c' → c = c'.
Proof.
  intros Hc Hc' Hl He. apply same_line_component_eq; try done.
  unfold wall_distance in He. case_bool_decide; lia.
Qed.
End coordinates.

(** ** Stores that behave like a grid *)

(** [holds shape s]: the store has an int at every coordinate of the shape,
    reading and writing there succeed, and a write changes the addressed cell
    only. *)
Class LawfulStore (S : Type) `{TileStore S} := {
  holds : list Z → S → Prop;
  holds_get shape s c :
    holds shape s → in_shape shape c → is_Some (get_tile s c);
  holds_set shape s c v :
    holds shape s → in_shape shape c →
    ∃ s', set_tile s c v = Some s' ∧ holds shape s'
          ∧ get_tile s' c = Some v
          ∧ ∀ c', in_shape shape c' → c' ≠ c → get_tile s' c' = get_tile s c'
}.

Definition Zsum (l : list Z) : Z := foldr Z.add 0 l.

Lemma Zsum_cons x l : Zsum (x :: l) = x + Zsum l.
Proof. done. Qed.

Lemma Zsum_app l k : Zsum (l ++ k) = Zsum l + Zsum k.
Proof.
  induction l as [|x l IH]; [done|].
  rewrite <- app_comm_cons, !Zsum_cons, IH. lia.
Qed.

Lemma Zsum_ext {A} (g g' : A → Z) (l : list A) :
  (∀ x, x ∈ l → g' x = g x) → Zsum (g' <$> l) = Zsum (g <$> l).
Proof.
  induction l as [|x l IH]; intros Hg; [done|].
  rewrite !fmap_cons, !Zsum_cons, Hg by left.
  rewrite IH; [done|]. intros y Hy. apply Hg. by right.
Qed.

(** Changing a function at one point of a duplicate-free list changes the
    sum over the list by the difference at that point. *)
Lemma Zsum_update {A} (g g' : A → Z) (l : list A) (a : A) :
  NoDup l → a ∈ l → (∀ x, x ∈ l → x ≠ a → g' x = g x) →
  Zsum (g' <$> l) = Zsum (g <$> l) - g a + g' a.
Proof.
  induction l as [|x l IH]; intros Hnd Ha Hg; [by apply elem_of_nil in Ha|].
  apply NoDup_cons in Hnd as [Hx Hnd]. rewrite !fmap_cons, !Zsum_cons.
  apply elem_of_cons in Ha as [->|Ha].
  - rewrite (Zsum_ext g g' l); [lia|].
    intros y Hy. apply Hg; [by right|]. intros ->. done.
  - rewrite IH; try done.
    + rewrite (Hg x); [lia|by left|]. intros ->. done.
    + intros y Hy Hne. apply Hg; [by right|done].
Qed.

(** Every coordinate of a shape, in lexicographic order. *)
Fixpoint all_coords (shape : list Z) : list (list Z) :=
  match shape with
  | [] => [[]]
  | dim_length :: rest =>
      i ← seqZ 0 dim_length; (λ c, i :: c) <$> all_coords rest
  end.

Lemma elem_of_all_coords shape c : c ∈ all_coords shape ↔ in_shape shape c.
Proof.
  revert c. induction shape as [|n shape IH]; intros c; simpl.
  - rewrite list_elem_of_singleton. split; [intros ->; constructor|].
    intros Hc. by apply Forall2_nil_inv_l in Hc.
  - rewrite list_elem_of_bind. split.
    + intros (i & Hc & Hi). apply elem_of_seqZ in Hi.
      apply list_elem_of_fmap in Hc as (c' & -> & Hc'). apply IH in Hc'.
      constructor; [lia|done].
    + intros Hc. apply Forall2_cons_inv_l in Hc as (i & c' & Hi & Hc' & ->).
      exists i. split; [|apply elem_of_seqZ; lia].
      apply list_elem_of_fmap. exists c'. split; [done|]. by apply IH.
Qed.

Lemma NoDup_all_coords shape : NoDup (all_coords shape).
Proof.
  induction shape as [|n shape IH]; simpl; [apply NoDup_singleton|].
  apply NoDup_bind.
  - intros i j c _ _ Hi Hj.
    apply list_elem_of_fmap in Hi as (? & -> & _).
    apply list_elem_of_fmap in Hj as (? & Heq & _). congruence.
  - intros i _. apply NoDup_fmap_2; [|done]. intros ? ?. congruence.
  - apply NoDup_seqZ.
Qed.

(** ** What one call of [move_tile] does *)

Section slide.
Context {S : Type} `{LawfulStore S}.
Variables (shape : list Z) (dimension direction : Z).
Hypothesis Hvalid : @valid_move shape dimension direction.

Local Abbreviation dist := (wall_distance shape dimension direction).
Local Abbreviation tw := (toward dimension direction).

(** [slides s bl c s' bl' k]: called at [c] on tiles [s] with blocked
    coordinates [bl], [move_tile] leaves tiles [s'] and blocked coordinates
    [bl'] and returns [k].  The three rules are its three outcomes: the
    tile stays, it merges into its neighbour, or it moves one cell and the
    call recurses. *)
Inductive slides : S → list (list Z) → list Z → S → list (list Z) → Z → Prop :=
| slides_rest s bl c :
    dist c = 0 ∨ get_tile s c = Some 0 ∨ tw c ∈ bl
    ∨ (∃ v w, get_tile s c = Some v ∧ get_tile s (tw c) = Some w
              ∧ v ≠ w ∧ w ≠ 0) →
    slides s bl c s bl 0
| slides_merge s bl c v s1 s2 :
    dist c ≠ 0 → v ≠ 0 → tw c ∉ bl →
    get_tile s c = Some v → get_tile s (tw c) = Some v →
    set_tile s (tw c) (v * 2) = Some s1 → set_tile s1 c 0 = Some s2 →
    slides s bl c s2 (bl ++ [tw c]) 1
| slides_on s bl c v s1 s2 s3 bl3 k :
    dist c ≠ 0 → v ≠ 0 → tw c ∉ bl →
    get_tile s c = Some v → get_tile s (tw c) = Some 0 →
    set_tile s (tw c) v = Some s1 → set_tile s1 c 0 = Some s2 →
    slides s2 bl (tw c) s3 bl3 k →
    slides s bl c s3 bl3 (1 + k).

Lemma set_tile_spec s c v s' :
  holds shape s → in_shape shape c → set_tile s c v = Some s' →
  holds shape s' ∧ get_tile s' c = Some v
  ∧ ∀ c', in_shape shape c' → c' ≠ c → get_tile s' c' = get_tile s c'.
Proof.
  intros Hs Hc Hset.
  destruct (holds_set shape s c v Hs Hc) as (s'' & Hset' & Hrest).
  rewrite Hset in Hset'. by simplify_eq.
Qed.

(** The two writes of a merge or of a relocation: [x] goes to the
    neighbour, the source becomes empty, no other cell changes. *)
Lemma set_pair_spec s c x s1 s2 :
  holds shape s → in_shape shape c → dist c ≠ 0 →
  set_tile s (tw c) x = Some s1 → set_tile s1 c 0 = Some s2 →
  holds shape s2 ∧ get_tile s2 (tw c) = Some x ∧ get_tile s2 c = Some 0
  ∧ ∀ c', in_shape shape c' → c' ≠ c → c' ≠ tw c →
          get_tile s2 c' = get_tile s c'.
Proof.
  intros Hs Hc Hd H1 H2.
  pose proof (toward_in_shape _ _ _ Hvalid c Hc Hd) as Htc.
  pose proof (toward_neq _ _ _ Hvalid c Hc) as Hne.
  destruct (set_tile_spec _ _ _ _ Hs Htc H1) as (Hs1 & Hg1 & Ho1).
  destruct (set_tile_spec _ _ _ _ Hs1 Hc H2) as (Hs2 & Hg2 & Ho2).
  split; [done|]. split; [by rewrite Ho2|]. split; [done|].
  intros c' Hc' Hn1 Hn2. rewrite Ho2, Ho1; done.
Qed.

Lemma wall_index_spec c :
  in_shape shape c →
  ∃ wall, wall_index shape dimension direction = Some wall
          ∧ (component c dimension = wall ↔ dist c = 0).
Proof.
  intros Hc. destruct (in_shape_component _ _ _ Hvalid c Hc) as (_ & Hsi & _).
  unfold wall_index, wall_distance. case_bool_decide.
  - exists 0. split; [done|]. lia.
  - rewrite Hsi. simpl. eexists. split; [done|]. lia.
Qed.

(** On a grid, [move_tile] returns whenever it is allowed a depth beyond
    the distance to the wall, and what it returns is a slide. *)
Lemma move_tile_slides depth s bl c :
  holds shape s → in_shape shape c → dist c < Z.of_nat depth →
  ∃ s' bl' k,
    move_tile depth shape s bl c dimension direction = Some (s', bl', k)
    ∧ slides s bl c s' bl' k ∧ holds shape s'.
Proof.
  revert s c. induction depth as [|depth IH]; intros s c Hs Hc Hd.
  { pose proof (wall_distance_nonneg _ _ _ Hvalid c Hc). lia. }
  destruct (in_shape_component _ _ _ Hvalid c Hc) as (Hci & _ & _).
  destruct (wall_index_spec c Hc) as (wall & Hw & Hwall).
  destruct (holds_get shape s c Hs Hc) as [source Hsrc].
  cbn [move_tile]. rewrite Hci, Hw, Hsrc. cbn [mbind option_bind].
  case_bool_decide as Hat.
  { exists s, bl, 0. split; [done|]. split; [|done].
    apply slides_rest. left. by apply Hwall. }
  assert (dist c ≠ 0) as Hd0 by (by rewrite <- Hwall).
  case_bool_decide as Hzero.
  { exists s, bl, 0. split; [done|]. split; [|done].
    apply slides_rest. right; left. by subst. }
  fold (tw c).
  case_bool_decide as Hbl.
  { exists s, bl, 0. split; [done|]. split; [|done].
    apply slides_rest. right; right; left. done. }
  pose proof (toward_in_shape _ _ _ Hvalid c Hc Hd0) as Htc.
  destruct (holds_get shape s (tw c) Hs Htc) as [target Htgt].
  rewrite Htgt. cbn [mbind option_bind].
  case_bool_decide as Heq.
  { subst target.
    destruct (holds_set shape s (tw c) (source * 2) Hs Htc)
      as (s1 & H1 & Hs1 & _).
    destruct (holds_set shape s1 c 0 Hs1 Hc) as (s2 & H2 & Hs2 & _).
    rewrite H1. cbn [mbind option_bind]. rewrite H2. cbn [mbind option_bind].
    exists s2, (bl ++ [tw c]), 1. split; [done|]. split; [|done].
    by eapply slides_merge. }
  case_bool_decide as Ht0.
  { subst target.
    destruct (holds_set shape s (tw c) source Hs Htc)
      as (s1 & H1 & Hs1 & _).
    destruct (holds_set shape s1 c 0 Hs1 Hc) as (s2 & H2 & Hs2 & _).
    rewrite H1. cbn [mbind option_bind]. rewrite H2. cbn [mbind option_bind].
    destruct (IH s2 (tw c) Hs2 Htc) as (s3 & bl3 & k & Hmv & Hsl & Hs3).
    { rewrite (toward_distance _ _ _ Hvalid c Hc). lia. }
    rewrite Hmv. cbn [mbind option_bind].
    exists s3, bl3, (1 + k). split; [done|]. split; [|done].
    by eapply slides_on. }
  exists s, bl, 0. split; [done|]. split; [|done].
  apply slides_rest. right; right; right. by exists source, target.
Qed.
End slide.

(** ** Sums over the cells of a grid *)

Section cells.
Context {S : Type} `{LawfulStore S}.
Variable shape : list Z.

Definition cell (s : S) (c : list Z) : Z := default 0 (get_tile s c).

(** The sum of [f c v] over every cell [c] holding [v]. *)
Definition cells_sum (f : list Z → Z → Z) (s : S) : Z :=
  Zsum ((λ c, f c (cell s c)) <$> all_coords shape).

Lemma cells_sum_set f s c v s' :
  holds shape s → in_shape shape c → set_tile s c v = Some s' →
  cells_sum f s' = cells_sum f s - f c (cell s c) + f c v.
Proof.
  intros Hs Hc Hset.
  destruct (set_tile_spec shape s c v s' Hs Hc Hset) as (_ & Hg & Ho).
  unfold cells_sum.
  rewrite (Zsum_update (λ c, f c (cell s c)) (λ c, f c (cell s' c)) _ c).
  - unfold cell at 3. rewrite Hg. done.
  - apply NoDup_all_coords.
  - by apply elem_of_all_coords.
  - intros x Hx Hne. apply elem_of_all_coords in Hx.
    unfold cell. by rewrite Ho.
Qed.
End cells.

Section slide_facts.
Context {S : Type} `{LawfulStore S}.
Variables (shape : list Z) (dimension direction : Z).
Hypothesis Hvalid : @valid_move shape dimension direction.

Local Abbreviation dist := (wall_distance shape dimension direction).
Local Abbreviation tw := (toward dimension direction).
Local Abbreviation slides := (slides shape dimension direction).

(** The weight of a cell in the potential that every step lowers: an
    occupied cell weighs its distance to the wall. *)
Definition weight (c : list Z) (v : Z) : Z :=
  if bool_decide (v = 0) then 0 else dist c.

Definition total (s : S) : Z := cells_sum shape (λ _ v, v) s.
Definition potential (s : S) : Z := cells_sum shape weight s.

Lemma slides_holds s bl c s' bl' k :
  slides s bl c s' bl' k → holds shape s → in_shape shape c →
  holds shape s'.
Proof.
  induction 1 as [| s bl c v s1 s2 Hd Hv Hbl Hg Hgt H1 H2
                  | s bl c v s1 s2 s3 bl3 k Hd Hv Hbl Hg Hgt H1 H2 Hsl IH];
    intros Hs Hc; [done| |].
  - by destruct (set_pair_spec _ _ _ Hvalid _ _ _ _ _ Hs Hc Hd H1 H2).
  - destruct (set_pair_spec _ _ _ Hvalid _ _ _ _ _ Hs Hc Hd H1 H2)
      as (Hs2 & _).
    apply IH; [done|]. by apply toward_in_shape.
Qed.

Lemma slides_nonneg s bl c s' bl' k : slides s bl c s' bl' k → 0 ≤ k.
Proof. induction 1; lia. Qed.

(** A call that returns 0 has written nothing. *)
Lemma slides_idle s bl c s' bl' k :
  slides s bl c s' bl' k → k = 0 → s' = s ∧ bl' = bl.
Proof.
  destruct 1 as [| |????????? _ _ _ _ _ _ _ Hsl]; intros Hk; [done|lia|].
  apply slides_nonneg in Hsl. lia.
Qed.

Lemma cells_sum_set_pair f s c x s1 s2 :
  holds shape s → in_shape shape c → dist c ≠ 0 →
  set_tile s (tw c) x = Some s1 → set_tile s1 c 0 = Some s2 →
  cells_sum shape f s2
  = cells_sum shape f s - f (tw c) (cell s (tw c)) + f (tw c) x
    - f c (cell s c) + f c 0.
Proof.
  intros Hs Hc Hd H1 H2.
  pose proof (toward_in_shape _ _ _ Hvalid c Hc Hd) as Htc.
  destruct (set_tile_spec shape _ _ _ _ Hs Htc H1) as (Hs1 & _ & Ho1).
  rewrite (cells_sum_set shape f s1 c 0 s2 Hs1 Hc H2).
  rewrite (cells_sum_set shape f s (tw c) x s1 Hs Htc H1).
  unfold cell at 2. rewrite Ho1; [done..|].
  intros Heq. by apply (toward_neq _ _ _ Hvalid c Hc).
Qed.

(** Merges and relocations keep the sum of the tiles. *)
Lemma slides_total s bl c s' bl' k :
  slides s bl c s' bl' k → holds shape s → in_shape shape c →
  total s' = total s.
Proof.
  induction 1 as [| s bl c v s1 s2 Hd Hv Hbl Hg Hgt H1 H2
                  | s bl c v s1 s2 s3 bl3 k Hd Hv Hbl Hg Hgt H1 H2 Hsl IH];
    intros Hs Hc; [done| |].
  - unfold total.
    rewrite (cells_sum_set_pair _ _ _ _ _ _ Hs Hc Hd H1 H2).
    unfold cell. rewrite Hg, Hgt. simpl. lia.
  - destruct (set_pair_spec _ _ _ Hvalid _ _ _ _ _ Hs Hc Hd H1 H2)
      as (Hs2 & _).
    rewrite IH; [|done|by apply toward_in_shape]. unfold total.
    rewrite (cells_sum_set_pair _ _ _ _ _ _ Hs Hc Hd H1 H2).
    unfold cell. rewrite Hg, Hgt. simpl. lia.
Qed.

(** Every merge and every relocation lowers the potential. *)
Lemma slides_potential s bl c s' bl' k :
  slides s bl c s' bl' k → holds shape s → in_shape shape c →
  potential s' + k ≤ potential s.
Proof.
  induction 1 as [| s bl c v s1 s2 Hd Hv Hbl Hg Hgt H1 H2
                  | s bl c v s1 s2 s3 bl3 k Hd Hv Hbl Hg Hgt H1 H2 Hsl IH];
    intros Hs Hc; [lia| |].
  - unfold potential.
    rewrite (cells_sum_set_pair _ _ _ _ _ _ Hs Hc Hd H1 H2).
    unfold cell. rewrite Hg, Hgt. simpl. unfold weight.
    pose proof (wall_distance_nonneg _ _ _ Hvalid c Hc).
    repeat case_bool_decide; lia.
  - destruct (set_pair_spec _ _ _ Hvalid _ _ _ _ _ Hs Hc Hd H1 H2)
      as (Hs2 & _).
    pose proof (toward_in_shape _ _ _ Hvalid c Hc Hd) as Htc.
    specialize (IH Hs2 Htc). unfold potential in *.
    rewrite (cells_sum_set_pair _ _ _ _ _ _ Hs Hc Hd H1 H2) in IH.
    unfold cell in IH. rewrite Hg, Hgt in IH. simpl in IH.
    unfold weight in *. rewrite (toward_distance _ _ _ Hvalid c Hc) in IH.
    repeat case_bool_decide; lia.
Qed.

(** A call writes on the line of its coordinate only. *)
Lemma slides_local s bl c s' bl' k :
  slides s bl c s' bl' k → holds shape s → in_shape shape c →
  ∀ c', in_shape shape c' → ¬ same_line dimension c c' →
        get_tile s' c' = get_tile s c'.
Proof.
  induction 1 as [| s bl c v s1 s2 Hd Hv Hbl Hg Hgt H1 H2
                  | s bl c v s1 s2 s3 bl3 k Hd Hv Hbl Hg Hgt H1 H2 Hsl IH];
    intros Hs Hc c' Hc' Hl; [done| |].
  - destruct (set_pair_spec _ _ _ Hvalid _ _ _ _ _ Hs Hc Hd H1 H2)
      as (_ & _ & _ & Ho).
    apply Ho; [done| |]; intros ->; apply Hl;
      [apply same_line_refl|apply toward_same_line].
  - destruct (set_pair_spec _ _ _ Hvalid _ _ _ _ _ Hs Hc Hd H1 H2)
      as (Hs2 & _ & _ & Ho).
    rewrite IH; [|done|by apply toward_in_shape|done|].
    + apply Ho; [done| |]; intros ->; apply Hl;
        [apply same_line_refl|apply toward_same_line].
    + intros Hl'. apply Hl.
      eapply same_line_trans; [apply toward_same_line|done].
Qed.

(** A tile that is against the wall, or whose neighbour toward the wall is
    occupied by a different value, cannot move. *)
Definition stuck_at (s : S) (c : list Z) : Prop :=
  dist c = 0 ∨ get_tile s c = Some 0
  ∨ ∃ v w, get_tile s c = Some v ∧ get_tile s (tw c) = Some w
           ∧ w ≠ 0 ∧ w ≠ v.

Lemma slides_stuck s bl c s' bl' k :
  slides s bl c s' bl' k → stuck_at s c → s' = s ∧ bl' = bl ∧ k = 0.
Proof.
  destruct 1 as [| s bl c v s1 s2 Hd Hv Hbl Hg Hgt H1 H2
                 | s bl c v s1 s2 s3 bl3 k Hd Hv Hbl Hg Hgt H1 H2 Hsl];
    intros [Hst|[Hst|(v' & w & Hv' & Hw & Hw0 & Hne)]];
    try done; congruence.
Qed.

(** Cells that are blocked when a call starts, the coordinate of the call
    not being one of them, hold the same tile when it returns. *)
Lemma slides_frozen s bl c s' bl' k :
  slides s bl c s' bl' k → holds shape s → in_shape shape c → c ∉ bl →
  ∀ b, b ∈ bl → in_shape shape b → get_tile s' b = get_tile s b.
Proof.
  induction 1 as [| s bl c v s1 s2 Hd Hv Hbl Hg Hgt H1 H2
                  | s bl c v s1 s2 s3 bl3 k Hd Hv Hbl Hg Hgt H1 H2 Hsl IH];
    intros Hs Hc Hcbl b Hb Hbs; [done| |].
  - destruct (set_pair_spec _ _ _ Hvalid _ _ _ _ _ Hs Hc Hd H1 H2)
      as (_ & _ & _ & Ho).
    apply Ho; [done| |]; intros ->; done.
  - destruct (set_pair_spec _ _ _ Hvalid _ _ _ _ _ Hs Hc Hd H1 H2)
      as (Hs2 & _ & _ & Ho).
    rewrite IH; [|done|by apply toward_in_shape|done..].
    apply Ho; [done| |]; intros ->; done.
Qed.

(** A call blocks at most one more coordinate: a cell of its line that is
    closer to the wall than the coordinate it was called at. *)
Lemma slides_blocked s bl c s' bl' k :
  slides s bl c s' bl' k → holds shape s → in_shape shape c →
  bl' = bl
  ∨ ∃ t, bl' = bl ++ [t] ∧ in_shape shape t ∧ same_line dimension c t
         ∧ dist t < dist c.
Proof.
  induction 1 as [| s bl c v s1 s2 Hd Hv Hbl Hg Hgt H1 H2
                  | s bl c v s1 s2 s3 bl3 k Hd Hv Hbl Hg Hgt H1 H2 Hsl IH];
    intros Hs Hc; [by left| |].
  - right. exists (tw c). split; [done|].
    split; [by apply toward_in_shape|]. split; [apply toward_same_line|].
    rewrite (toward_distance _ _ _ Hvalid c Hc). lia.
  - destruct (set_pair_spec _ _ _ Hvalid _ _ _ _ _ Hs Hc Hd H1 H2)
      as (Hs2 & _).
    pose proof (toward_in_shape _ _ _ Hvalid c Hc Hd) as Htc.
    destruct (IH Hs2 Htc) as [->|(t & -> & Ht & Hl & Hlt)]; [by left|].
    right. exists t. split; [done|]. split; [done|].
    split; [eapply same_line_trans; [apply toward_same_line|done]|].
    rewrite (toward_distance _ _ _ Hvalid c Hc) in Hlt. lia.
Qed.
End slide_facts.

(** ** What the loop of [move] does *)

Section sweep.
Context {S : Type} `{LawfulStore S}.
Variables (shape : list Z) (dimension direction : Z).
Hypothesis Hvalid : @valid_move shape dimension direction.

Local Abbreviation dist := (wall_distance shape dimension direction).
Local Abbreviation tw := (toward dimension direction).
Local Abbreviation slides := (slides shape dimension direction).
Local Abbreviation stuck := (stuck_at shape dimension direction).
Local Abbreviation total := (total shape).
Local Abbreviation potential := (potential shape dimension direction).

(** [sweeps coords s bl s' bl' k]: the calls of [move_tile] at the
    coordinates [coords], in this order, lead from [s] and [bl] to [s'] and
    [bl'] and return [k] in total. *)
Inductive sweeps :
  list (list Z) → S → list (list Z) → S → list (list Z) → Z → Prop :=
| sweeps_nil s bl : sweeps [] s bl s bl 0
| sweeps_cons c coords s bl s1 bl1 k1 s2 bl2 k2 :
    slides s bl c s1 bl1 k1 → sweeps coords s1 bl1 s2 bl2 k2 →
    sweeps (c :: coords) s bl s2 bl2 (k1 + k2).

Lemma move_loop_sweeps depth coords s bl k0 :
  holds shape s → Forall (in_shape shape) coords →
  component shape dimension ≤ Z.of_nat depth →
  ∃ s' bl' k,
    move_loop depth shape dimension direction coords (s, bl, k0)
    = Some (s', bl', k0 + k)
    ∧ sweeps coords s bl s' bl' k ∧ holds shape s'.
Proof.
  intros Hs Hcs Hdepth. revert s bl k0 Hs.
  induction Hcs as [|c coords Hc Hcs IH]; intros s bl k0 Hs.
  { exists s, bl, 0. rewrite Z.add_0_r. repeat split; [constructor|done]. }
  destruct (move_tile_slides shape dimension direction Hvalid depth s bl c)
    as (s1 & bl1 & k1 & Hmv & Hsl & Hs1); [done..| |].
  { pose proof (wall_distance_bound _ _ _ Hvalid c Hc). lia. }
  destruct (IH s1 bl1 (k0 + k1) Hs1) as (s2 & bl2 & k2 & Hlp & Hsw & Hs2).
  exists s2, bl2, (k1 + k2). cbn [move_loop]. rewrite Hmv.
  cbn [mbind option_bind]. rewrite Hlp, Z.add_assoc.
  repeat split; [|done]. by econstructor.
Qed.

Lemma move_loop_app depth pre post st :
  move_loop depth shape dimension direction (pre ++ post) st
  = (move_loop depth shape dimension direction pre st
       ≫= move_loop depth shape dimension direction post).
Proof.
  revert st. induction pre as [|c pre IH]; intros [[s bl] k]; [done|].
  cbn [app move_loop].
  destruct (move_tile depth shape s bl c dimension direction)
    as [[[s1 bl1] k1]|]; [|done].
  cbn [mbind option_bind]. apply IH.
Qed.

Lemma sweeps_holds coords s bl s' bl' k :
  sweeps coords s bl s' bl' k → holds shape s →
  Forall (in_shape shape) coords → holds shape s'.
Proof.
  induction 1 as [|c coords s bl s1 bl1 k1 s2 bl2 k2 Hsl Hsw IH];
    intros Hs Hcs; [done|].
  apply Forall_cons in Hcs as [Hc Hcs]. apply IH; [|done].
  by eapply slides_holds.
Qed.

Lemma sweeps_nonneg coords s bl s' bl' k :
  sweeps coords s bl s' bl' k → 0 ≤ k.
Proof.
  induction 1 as [|c coords s bl s1 bl1 k1 s2 bl2 k2 Hsl Hsw IH]; [done|].
  apply slides_nonneg in Hsl. lia.
Qed.

Lemma sweeps_idle coords s bl s' bl' k :
  sweeps coords s bl s' bl' k → k = 0 → s' = s ∧ bl' = bl.
Proof.
  induction 1 as [|c coords s bl s1 bl1 k1 s2 bl2 k2 Hsl Hsw IH];
    intros Hk; [done|].
  pose proof (slides_nonneg _ _ _ _ _ _ _ _ _ Hsl).
  pose proof (sweeps_nonneg _ _ _ _ _ _ Hsw).
  destruct (slides_idle _ _ _ _ _ _ _ _ _ Hsl) as [-> ->]; [lia|].
  apply IH. lia.
Qed.

Lemma sweeps_total coords s bl s' bl' k :
  sweeps coords s bl s' bl' k → holds shape s →
  Forall (in_shape shape) coords → total s' = total s.
Proof.
  induction 1 as [|c coords s bl s1 bl1 k1 s2 bl2 k2 Hsl Hsw IH];
    intros Hs Hcs; [done|].
  apply Forall_cons in Hcs as [Hc Hcs].
  rewrite IH; [|by eapply slides_holds|done].
  by eapply slides_total.
Qed.

Lemma sweeps_potential coords s bl s' bl' k :
  sweeps coords s bl s' bl' k → holds shape s →
  Forall (in_shape shape) coords → potential s' + k ≤ potential s.
Proof.
  induction 1 as [|c coords s bl s1 bl1 k1 s2 bl2 k2 Hsl Hsw IH];
    intros Hs Hcs; [lia|].
  apply Forall_cons in Hcs as [Hc Hcs].
  pose proof (slides_potential _ _ _ Hvalid _ _ _ _ _ _ Hsl Hs Hc).
  specialize (IH (slides_holds _ _ _ Hvalid _ _ _ _ _ _ Hsl Hs Hc) Hcs).
  lia.
Qed.

(** A line on which every tile is stuck is left as it is. *)
Lemma sweeps_line_kept coords s bl s' bl' k c0 :
  sweeps coords s bl s' bl' k → holds shape s →
  Forall (in_shape shape) coords →
  (∀ c, in_shape shape c → same_line dimension c0 c → stuck s c) →
  ∀ c, in_shape shape c → same_line dimension c0 c →
       get_tile s' c = get_tile s c.
Proof.
  induction 1 as [|x coords s bl s1 bl1 k1 s2 bl2 k2 Hsl Hsw IH];
    intros Hs Hcs Hst c Hc Hl; [done|].
  apply Forall_cons in Hcs as [Hx Hcs].
  pose proof (slides_holds _ _ _ Hvalid _ _ _ _ _ _ Hsl Hs Hx) as Hs1.
  destruct (decide (same_line dimension c0 x)) as [Hlx|Hlx].
  - destruct (slides_stuck _ _ _ _ _ _ _ _ _ Hsl (Hst x Hx Hlx))
      as (-> & -> & ->).
    by apply IH.
  - assert (∀ c, in_shape shape c → same_line dimension c0 c →
                 get_tile s1 c = get_tile s c) as Hsame.
    { intros c' Hc' Hl'.
      apply (slides_local _ _ _ Hvalid _ _ _ _ _ _ Hsl Hs Hx c' Hc').
      intros Hxl. apply Hlx.
      eapply same_line_trans; [done|by apply same_line_sym]. }
    rewrite IH; [by apply Hsame|done..| |done|done].
    intros c' Hc' Hl'. specialize (Hst c' Hc' Hl'). unfold stuck_at.
    rewrite (Hsame c' Hc' Hl').
    destruct Hst as [Hst|[Hst|(v & w & Hv & Hw & Hw0 & Hne)]]; [by left|by right; left|].
    destruct (decide (dist c' = 0)) as [Hd|Hd]; [by left|].
    right; right. exists v, w. rewrite Hsame; [done| |].
    + by apply toward_in_shape.
    + eapply same_line_trans; [done|apply toward_same_line].
Qed.

(** The order in which [move] must visit the cells of one line: from the
    wall outwards. *)
Definition wallward (c c' : list Z) : Prop :=
  same_line dimension c c' → dist c < dist c'.

(** The blocked cells lie behind the coordinates still to be visited. *)
Definition blocked_behind (bl coords : list (list Z)) : Prop :=
  ∀ b, b ∈ bl →
       in_shape shape b
       ∧ ∀ x, x ∈ coords → same_line dimension b x → dist b < dist x.

Lemma slides_behind s bl c s1 bl1 k coords :
  slides s bl c s1 bl1 k → holds shape s → in_shape shape c →
  Forall (wallward c) coords → blocked_behind bl (c :: coords) →
  (c ∉ bl) ∧ blocked_behind bl1 coords.
Proof.
  intros Hsl Hs Hc Hsorted Hbh. split.
  { intros Hcbl. destruct (Hbh c Hcbl) as [_ Hlt].
    specialize (Hlt c (list_elem_of_here _ _) (same_line_refl _ _)). lia. }
  assert (blocked_behind bl coords) as Hbh'.
  { intros b Hb. destruct (Hbh b Hb) as [Hbs Hlt]. split; [done|].
    intros x Hx. apply Hlt. by right. }
  destruct (slides_blocked _ _ _ Hvalid _ _ _ _ _ _ Hsl Hs Hc)
    as [->|(t & -> & Ht & Hl & Hlt)]; [done|].
  intros b Hb. apply elem_of_app in Hb as [Hb|Hb]; [by apply Hbh'|].
  apply list_elem_of_singleton in Hb as ->. split; [done|].
  intros x Hx Hlx. rewrite Forall_forall in Hsorted.
  assert (dist c < dist x); [|lia].
  apply Hsorted; [done|]. by eapply same_line_trans.
Qed.

Lemma sweeps_behind pre post s bl s1 bl1 k :
  sweeps pre s bl s1 bl1 k → holds shape s →
  Forall (in_shape shape) pre → StronglySorted wallward (pre ++ post) →
  blocked_behind bl (pre ++ post) → blocked_behind bl1 post.
Proof.
  induction 1 as [|x coords s bl s1 bl1 k1 s2 bl2 k2 Hsl Hsw IH];
    intros Hs Hcs Hsorted Hbh; [done|].
  apply Forall_cons in Hcs as [Hx Hcs].
  apply StronglySorted_inv in Hsorted as [Hsorted Hall].
  destruct (slides_behind _ _ _ _ _ _ _ Hsl Hs Hx Hall Hbh) as [_ Hbh1].
  apply IH; [by eapply slides_holds|done..].
Qed.

(** Merge-once: once blocked, a cell keeps its tile until [move] returns. *)
Lemma sweeps_frozen coords s bl s' bl' k :
  sweeps coords s bl s' bl' k → holds shape s →
  Forall (in_shape shape) coords → StronglySorted wallward coords →
  blocked_behind bl coords →
  bl `prefix_of` bl' ∧ ∀ b, b ∈ bl → get_tile s' b = get_tile s b.
Proof.
  induction 1 as [|x coords s bl s1 bl1 k1 s2 bl2 k2 Hsl Hsw IH];
    intros Hs Hcs Hsorted Hbh; [done|].
  apply Forall_cons in Hcs as [Hx Hcs].
  apply StronglySorted_inv in Hsorted as [Hsorted Hall].
  destruct (slides_behind _ _ _ _ _ _ _ Hsl Hs Hx Hall Hbh) as [Hxbl Hbh1].
  destruct IH as [Hpre Hkeep]; [by eapply slides_holds|done..|].
  assert (bl `prefix_of` bl1) as Hpre1.
  { destruct (slides_blocked _ _ _ Hvalid _ _ _ _ _ _ Hsl Hs Hx)
      as [->|(t & -> & _)]; [done|by apply prefix_app_r]. }
  split; [by etrans|]. intros b Hb.
  rewrite Hkeep by (by eapply elem_of_prefix).
  apply (slides_frozen _ _ _ Hvalid _ _ _ _ _ _ Hsl Hs Hx Hxbl b Hb).
  by destruct (Hbh b Hb).
Qed.
End sweep.

(** ** The order of the sequential coordinates *)

Definition product (dims : list Z) : Z := foldr Z.mul 1 dims.

Lemma tile_count_product shape : tile_count shape = product shape.
Proof.
  assert (∀ a, foldl Z.mul a shape = a * product shape) as Hgen.
  { unfold product. induction shape as [|n shape IH]; intros a; simpl; [lia|].
    rewrite IH. lia. }
  unfold tile_count. rewrite Hgen. lia.
Qed.

Lemma product_cons n dims : product (n :: dims) = n * product dims.
Proof. done. Qed.

Lemma product_pos dims : positive_shape dims → 0 < product dims.
Proof.
  induction 1 as [|n dims Hn _ IH]; [done|]. rewrite product_cons. lia.
Qed.

Section sequential.
Variables (dimension direction : Z).

(** The coordinate that the loops of [__generate_sequential_coordinates]
    leave at index [k], from axis [dim] on. *)
Fixpoint digits (dim : Z) (dims : list Z) (fraction k : Z) : list Z :=
  match dims with
  | [] => []
  | dim_length :: rest =>
      let fraction := fraction `div` dim_length in
      (if bool_decide (direction = -1 ∨ dimension ≠ dim)
       then (k `div` fraction) `mod` dim_length
       else dim_length - 1 - (k `div` fraction) `mod` dim_length)
      :: digits (dim + 1) rest fraction k
  end.

Lemma fill_axes_digits N dims :
  ∀ dim fraction (P : nat → list Z),
    0 ≤ dim → (∀ k, length (P k) = Z.to_nat dim) →
    fill_axes dimension direction dim dims fraction
      ((λ k, P k ++ replicate (length dims) 0) <$> seq 0 N)
    = (λ k, P k ++ digits dim dims fraction (Z.of_nat k)) <$> seq 0 N.
Proof.
  induction dims as [|n rest IH]; intros dim fraction P Hdim HP; [done|].
  cbn [fill_axes digits length replicate].
  set (fr := fraction `div` n).
  set (v := λ k : nat,
         if bool_decide (direction = -1 ∨ dimension ≠ dim)
         then (Z.of_nat k `div` fr) `mod` n
         else n - 1 - (Z.of_nat k `div` fr) `mod` n).
  assert (fill_axis dimension direction dim n fr
            ((λ k, P k ++ 0 :: replicate (length rest) 0) <$> seq 0 N)
          = (λ k, (P k ++ [v k]) ++ replicate (length rest) 0) <$> seq 0 N)
    as ->.
  { apply list_eq. intros i. unfold fill_axis.
    rewrite list_lookup_imap, !list_lookup_fmap.
    destruct (seq 0 N !! i) as [k|] eqn:Hk; [|done].
    apply lookup_seq in Hk as [-> _]. cbn [fmap option_fmap option_map].
    f_equal. rewrite <- app_assoc. cbn [app]. unfold v.
    replace (Z.to_nat dim) with (length (P i) + 0)%nat by (rewrite HP; lia).
    case_bool_decide; by rewrite insert_app_r. }
  rewrite (IH (dim + 1) fr (λ k, P k ++ [v k])).
  - apply list_fmap_ext. intros _ k _. by rewrite <- app_assoc.
  - lia.
  - intros k. rewrite length_app, HP. simpl. lia.
Qed.

Lemma generate_sequential_coordinates_digits shape :
  generate_sequential_coordinates shape dimension direction
  = (λ k, digits 0 shape (tile_count shape) (Z.of_nat k))
      <$> seq 0 (Z.to_nat (tile_count shape)).
Proof.
  unfold generate_sequential_coordinates.
  set (N := Z.to_nat (tile_count shape)).
  assert (replicate N (replicate (length shape) 0)
          = (λ k : nat, [] ++ replicate (length shape) 0) <$> seq 0 N) as ->.
  { apply list_eq. intros i. rewrite list_lookup_fmap.
    destruct (decide (i < N)%nat) as [Hi|Hi].
    - rewrite lookup_replicate_2, lookup_seq_lt by done. done.
    - rewrite (proj1 (lookup_replicate_None N _ i)), lookup_seq_ge by lia.
      done. }
  by rewrite (fill_axes_digits N shape 0 _ (λ _, [])).
Qed.

Lemma digits_in_shape dims :
  positive_shape dims →
  ∀ dim fraction k, in_shape dims (digits dim dims fraction k).
Proof.
  induction 1 as [|n dims Hn Hdims IH]; intros dim fraction k;
    cbn [digits]; constructor; [|apply IH].
  pose proof (Z.mod_pos_bound (k `div` (fraction `div` n)) n Hn).
  case_bool_decide; lia.
Qed.

Lemma sequential_coordinates_in_shape shape :
  positive_shape shape →
  Forall (in_shape shape)
    (generate_sequential_coordinates shape dimension direction).
Proof.
  intros Hpos. rewrite generate_sequential_coordinates_digits.
  apply Forall_fmap, Forall_forall. intros k _. by apply digits_in_shape.
Qed.
End sequential.

Section sequential_order.
Variables (dimension direction : Z).

Local Abbreviation digs := (digits dimension direction).

(** The index at which a coordinate is generated, read off its
    components as a mixed-radix numeral. *)
Fixpoint rank_of (dim : Z) (dims c : list Z) : Z :=
  match dims, c with
  | dim_length :: rest, x :: xs =>
      (if bool_decide (direction = -1 ∨ dimension ≠ dim)
       then x else dim_length - 1 - x) * product rest
      + rank_of (dim + 1) rest xs
  | _, _ => 0
  end.

Lemma product_cons_div n dims : 0 < n → product (n :: dims) `div` n = product dims.
Proof.
  intros Hn. rewrite product_cons, Z.mul_comm. apply Z.div_mul. lia.
Qed.

Lemma digits_mod dims :
  positive_shape dims →
  ∀ dim k, digs dim dims (product dims) (k `mod` product dims)
           = digs dim dims (product dims) k.
Proof.
  induction 1 as [|n dims Hn Hdims IH]; intros dim k; [done|].
  pose proof (product_pos dims Hdims) as HP.
  cbn [digits]. rewrite product_cons_div by done.
  set (P := product dims) in *.
  assert (product (n :: dims) = P * n) as ->
    by (rewrite product_cons; unfold P; lia).
  f_equal.
  - assert ((k `mod` (P * n)) `div` P = (k `div` P) `mod` n) as ->.
    { rewrite Z.rem_mul_r by lia.
      rewrite (Z.mul_comm P), Z.div_add by lia.
      rewrite Z.div_small by (apply Z.mod_pos_bound; lia). lia. }
    by rewrite Z.mod_mod by lia.
  - rewrite <- (IH (dim + 1) (k `mod` (P * n))), <- (IH (dim + 1) k).
    f_equal. apply Z.mod_mod_divide. exists n. lia.
Qed.

Lemma rank_of_digits dims :
  positive_shape dims →
  ∀ dim k, 0 ≤ k < product dims →
           rank_of dim dims (digs dim dims (product dims) k) = k.
Proof.
  induction 1 as [|n dims Hn Hdims IH]; intros dim k Hk.
  { change (product []) with 1 in Hk. cbn [digits rank_of]. lia. }
  pose proof (product_pos dims Hdims) as HP.
  cbn [digits rank_of]. rewrite product_cons_div by done.
  set (P := product dims) in *.
  assert (product (n :: dims) = P * n) as HPn
    by (rewrite product_cons; unfold P; lia).
  rewrite HPn in Hk.
  assert (0 ≤ k `div` P < n) as Hq.
  { split; [apply Z.div_pos; lia|]. apply Z.div_lt_upper_bound; lia. }
  rewrite (Z.mod_small (k `div` P) n) by done.
  pose proof (digits_mod dims Hdims (dim + 1) k) as Hm. fold P in Hm.
  rewrite <- Hm.
  rewrite IH by (apply Z.mod_pos_bound; lia).
  pose proof (Z.div_mod k P). case_bool_decide; lia.
Qed.

(** Of two coordinates on one line of the moved axis, the one with the
    smaller index is the one closer to the wall. *)
Lemma rank_of_order dims :
  positive_shape dims →
  ∀ dim c1 c2,
    in_shape dims c1 → in_shape dims c2 →
    dim ≤ dimension < dim + Z.of_nat (length dims) →
    same_line (dimension - dim) c1 c2 →
    rank_of dim dims c1 < rank_of dim dims c2 →
    wall_distance dims (dimension - dim) direction c1
    < wall_distance dims (dimension - dim) direction c2.
Proof.
  induction 1 as [|n dims Hn Hdims IH]; intros dim c1 c2 Hc1 Hc2 Hd Hl Hr.
  { simpl in Hd. lia. }
  apply Forall2_cons_inv_l in Hc1 as (x1 & t1 & Hx1 & Ht1 & ->).
  apply Forall2_cons_inv_l in Hc2 as (x2 & t2 & Hx2 & Ht2 & ->).
  pose proof (product_pos dims Hdims) as HP.
  cbn [rank_of] in Hr. unfold same_line in Hl.
  destruct (decide (dimension = dim)) as [->|Hne].
  - rewrite Z.sub_diag in *. simpl in Hl.
    assert (t1 = t2) as -> by congruence.
    unfold wall_distance, component. simpl.
    repeat case_bool_decide; try lia; nia.
  - assert (Z.to_nat (dimension - dim)
            = Datatypes.S (Z.to_nat (dimension - (dim + 1)))) as Hsucc by lia.
    rewrite Hsucc in Hl. simpl in Hl.
    assert (x1 = x2) as -> by congruence.
    assert (same_line (dimension - (dim + 1)) t1 t2) as Hl'
      by (unfold same_line; congruence).
    specialize (IH (dim + 1) t1 t2 Ht1 Ht2).
    unfold wall_distance, component in *. rewrite Hsucc. simpl.
    apply IH; [simpl in Hd; lia|done|lia].
Qed.

Lemma StronglySorted_fmap_seq {A} (R : A → A → Prop) (f : nat → A) N :
  ∀ start, (∀ i j, (start ≤ i < j)%nat → (j < start + N)%nat → R (f i) (f j)) →
           StronglySorted R (f <$> seq start N).
Proof.
  induction N as [|N IH]; intros start HR; [constructor|].
  simpl. constructor.
  - apply IH. intros i j Hij Hj. apply HR; lia.
  - apply Forall_fmap, Forall_seq. intros j Hj. apply HR; lia.
Qed.

Lemma sequential_coordinates_sorted shape :
  positive_shape shape → 0 ≤ dimension < Z.of_nat (length shape) →
  StronglySorted (wallward shape dimension direction)
    (generate_sequential_coordinates shape dimension direction).
Proof.
  intros Hpos Hd. rewrite generate_sequential_coordinates_digits.
  rewrite tile_count_product.
  apply StronglySorted_fmap_seq. intros i j Hij Hj Hl.
  pose proof (rank_of_order shape Hpos 0) as Hord.
  rewrite Z.sub_0_r in Hord.
  apply Hord; [by apply digits_in_shape..|lia|done|].
  rewrite !rank_of_digits by (done || lia). lia.
Qed.
End sequential_order.

(** ** Nested lists of a regular shape are grids *)

(** [has_shape shape t]: [t] is a nesting of lists whose lengths are the
    components of [shape], with ints at the leaves. *)
Fixpoint has_shape (shape : list Z) (t : pyval) : Prop :=
  match shape with
  | [] => ∃ z, t = PInt z
  | dim_length :: rest =>
      ∃ l, t = PList l ∧ Z.of_nat (length l) = dim_length
           ∧ Forall (has_shape rest) l
  end.

Lemma py_index_in_range {A} (l : list A) i :
  0 ≤ i < Z.of_nat (length l) → py_index l i = Some (Z.to_nat i).
Proof. intros Hi. unfold py_index. by rewrite bool_decide_eq_true_2. Qed.

Lemma nested_get_shape shape :
  ∀ t c, has_shape shape t → in_shape shape c →
         ∃ z, nested_get t c = Some (PInt z).
Proof.
  induction shape as [|n shape IH]; intros t c Ht Hc.
  - apply Forall2_nil_inv_l in Hc as ->. destruct Ht as [z ->]. by exists z.
  - apply Forall2_cons_inv_l in Hc as (i & c' & Hi & Hc' & ->).
    destruct Ht as (l & -> & Hlen & Hall).
    cbn [nested_get]. unfold py_getitem.
    rewrite py_index_in_range by lia. cbn [mbind option_bind].
    destruct (lookup_lt_is_Some_2 l (Z.to_nat i)) as [sub Hsub]; [lia|].
    rewrite Hsub. cbn [mbind option_bind].
    apply IH; [|done]. by eapply Forall_lookup_1.
Qed.

Lemma nested_set_shape shape :
  ∀ t c v, shape ≠ [] → has_shape shape t → in_shape shape c →
    ∃ t', nested_set t c v = Some t' ∧ has_shape shape t'
          ∧ nested_get t' c = Some (PInt v)
          ∧ ∀ c', in_shape shape c' → c' ≠ c →
                  nested_get t' c' = nested_get t c'.
Proof.
  induction shape as [|n shape IH]; intros t c v Hne Ht Hc; [done|].
  apply Forall2_cons_inv_l in Hc as (i & c' & Hi & Hc' & ->).
  destruct Ht as (l & -> & Hlen & Hall).
  assert (Z.to_nat i < length l)%nat as Hlt by lia.
  destruct (lookup_lt_is_Some_2 l (Z.to_nat i) Hlt) as [sub Hsub].
  cbn [nested_set]. rewrite py_index_in_range by lia.
  cbn [mbind option_bind].
  assert (∀ sub', has_shape shape sub' →
            has_shape (n :: shape) (PList (<[Z.to_nat i := sub']> l)))
    as Hshape.
  { intros sub' Hsub'. exists (<[Z.to_nat i := sub']> l).
    split; [done|]. rewrite length_insert. split; [done|].
    by apply Forall_insert. }
  assert (∀ sub' c'', in_shape (n :: shape) c'' → c'' ≠ i :: c' →
            (∀ d, in_shape shape d → d ≠ c' →
                  nested_get sub' d = nested_get sub d) →
            nested_get (PList (<[Z.to_nat i := sub']> l)) c''
            = nested_get (PList l) c'') as Hother.
  { intros sub' c'' Hc'' Hneq Hsubother.
    apply Forall2_cons_inv_l in Hc'' as (j & d & Hj & Hd & ->).
    cbn [nested_get]. unfold py_getitem.
    rewrite !py_index_in_range by (rewrite ?length_insert; lia).
    cbn [mbind option_bind].
    destruct (decide (j = i)) as [->|Hji].
    - rewrite list_lookup_insert_eq, Hsub by done. cbn [mbind option_bind].
      apply Hsubother; [done|]. congruence.
    - rewrite list_lookup_insert_ne by lia. done. }
  destruct c' as [|i' c'].
  - apply Forall2_nil_inv_r in Hc' as ->.
    eexists. split; [done|]. split; [apply Hshape; by exists v|].
    split.
    + cbn [nested_get]. unfold py_getitem.
      rewrite py_index_in_range by (rewrite length_insert; lia).
      cbn [mbind option_bind]. by rewrite list_lookup_insert_eq.
    + intros c'' Hc'' Hneq. apply Hother; [done..|].
      intros d Hd Hdne. apply Forall2_nil_inv_l in Hd. done.
  - assert (shape ≠ []) as Hne' by (intros ->; inversion Hc').
    destruct (IH sub (i' :: c') v Hne') as (sub' & Hset & Hsh' & Hget & Hoth);
      [by eapply Forall_lookup_1|done|].
    rewrite Hsub. cbn [mbind option_bind]. rewrite Hset.
    cbn [mbind option_bind].
    eexists. split; [done|]. split; [by apply Hshape|]. split.
    + cbn [nested_get]. unfold py_getitem.
      rewrite py_index_in_range by (rewrite length_insert; lia).
      cbn [mbind option_bind]. rewrite list_lookup_insert_eq by done.
      cbn [mbind option_bind]. done.
    + intros c'' Hc'' Hneq. by apply Hother.
Qed.

Definition grid (shape : list Z) (t : pyval) : Prop :=
  shape ≠ [] ∧ has_shape shape t.

Lemma grid_get shape (t : pyval) c :
  grid shape t → in_shape shape c → is_Some (get_tile t c).
Proof.
  intros [_ Ht] Hc. destruct (nested_get_shape shape t c Ht Hc) as [z Hz].
  exists z. cbn. by rewrite Hz.
Qed.

Lemma grid_set shape (t : pyval) c v :
  grid shape t → in_shape shape c →
  ∃ t', set_tile t c v = Some t' ∧ grid shape t'
        ∧ get_tile t' c = Some v
        ∧ ∀ c', in_shape shape c' → c' ≠ c → get_tile t' c' = get_tile t c'.
Proof.
  intros [Hne Ht] Hc.
  destruct (nested_set_shape shape t c v Hne Ht Hc)
    as (t' & Hset & Ht' & Hget & Hoth).
  exists t'. split; [done|]. split; [done|]. split.
  - cbn. by rewrite Hget.
  - intros c' Hc' Hneq. cbn. by rewrite Hoth.
Qed.

#[global] Instance nested_lawful : LawfulStore pyval := {
  holds := grid;
  holds_get := grid_get;
  holds_set := grid_set
}.

(** A board as construction leaves it and as [move] and [place] keep it:
    at least one axis, every axis of positive length, and tiles nested
    accordingly, without lists shared between two places. *)
Definition well_formed (b : Board pyval) : Prop :=
  positive_shape (shape b) ∧ grid (shape b) (tiles b).

(** ** The sum of the tiles *)

(** The depth-first sum of every tile of a nested list. *)
Fixpoint sum_tiles (t : pyval) : Z :=
  match t with
  | PInt z => z
  | PList l => Zsum (sum_tiles <$> l)
  | _ => 0
  end.

Lemma Zsum_bind {A B} (f : B → Z) (g : A → list B) (l : list A) :
  Zsum (f <$> (l ≫= g)) = Zsum ((λ x, Zsum (f <$> g x)) <$> l).
Proof.
  induction l as [|x l IH]; [done|].
  rewrite bind_cons, fmap_app, Zsum_app, fmap_cons, Zsum_cons, IH. done.
Qed.

Lemma Zsum_seqZ_lookup {A} (F : Z → Z) (G : A → Z) (l : list A) :
  ∀ start,
    (∀ i x, l !! i = Some x → F (start + Z.of_nat i) = G x) →
    Zsum (F <$> seqZ start (Z.of_nat (length l))) = Zsum (G <$> l).
Proof.
  induction l as [|x l IH]; intros start HF; [done|].
  rewrite seqZ_cons by (simpl; lia).
  rewrite !fmap_cons, !Zsum_cons.
  replace (Z.pred (Z.of_nat (length (x :: l)))) with (Z.of_nat (length l))
    by (simpl; lia).
  rewrite (IH (Z.succ start)).
  - f_equal. rewrite <- (HF 0%nat x) by done. f_equal. lia.
  - intros i y Hy. rewrite <- (HF (Datatypes.S i) y) by done. f_equal. lia.
Qed.

Lemma sum_tiles_total shape :
  ∀ t, has_shape shape t → sum_tiles t = total shape t.
Proof.
  unfold total, cells_sum.
  induction shape as [|n shape IH]; intros t Ht.
  - destruct Ht as [z ->]. cbn. lia.
  - destruct Ht as (l & -> & Hlen & Hall). cbn [sum_tiles all_coords].
    rewrite Zsum_bind. subst n.
    apply eq_sym, Zsum_seqZ_lookup. intros i sub Hsub. rewrite Z.add_0_l.
    rewrite (IH sub) by (by eapply Forall_lookup_1).
    rewrite <- list_fmap_compose. apply Zsum_ext. intros c Hc.
    apply elem_of_all_coords in Hc.
    unfold cell, compose. cbn [get_tile nested_store nested_get].
    unfold py_getitem. apply lookup_lt_Some in Hsub as Hlt.
    rewrite py_index_in_range by lia. cbn [mbind option_bind].
    rewrite Nat2Z.id, Hsub. done.
Qed.

(** ** [move] on a well-formed board *)

Section move_facts.
Variables (b : Board pyval) (dimension direction : Z).
Hypothesis Hwf : well_formed b.
Hypothesis Hvalid : @valid_move (shape b) dimension direction.

Local Abbreviation coords :=
  (generate_sequential_coordinates (shape b) dimension direction).

Lemma move_run_sweeps :
  ∃ ts bl k,
    move_run b dimension direction = Some (ts, bl, k)
    ∧ sweeps (shape b) dimension direction coords (tiles b) [] ts bl k
    ∧ grid (shape b) ts.
Proof.
  destruct Hwf as [Hpos Hgrid]. unfold move_run.
  destruct (move_loop_sweeps (shape b) dimension direction Hvalid
              (slide_depth (shape b) dimension) coords (tiles b) [] 0)
    as (ts & bl & k & Hrun & Hsw & Hts); [done| | |].
  - by apply sequential_coordinates_in_shape.
  - unfold slide_depth, component. lia.
  - exists ts, bl, k. by rewrite Z.add_0_l in Hrun.
Qed.

Lemma move_valid_unfold :
  move b dimension direction
  = '(ts, _, steps) ← move_run b dimension direction;
    Some (mkBoard (shape b) ts, bool_decide (0 < steps)).
Proof.
  unfold move. destruct Hvalid as [Hd Hdir].
  rewrite bool_decide_eq_false_2 by (intros Hn; apply Hn; exact Hd).
  rewrite bool_decide_eq_false_2; [done|].
  intros Hn. apply Hn. destruct Hdir as [Hdir|Hdir]; rewrite Hdir;
    [left|right; left].
Qed.
End move_facts.

(** ** [place] on a well-formed board *)

Lemma location_in_bounds_Some location :
  ∀ shape loc,
    location_in_bounds location shape = Some loc →
    length location = length shape →
    location = PInt <$> loc ∧ in_shape shape loc.
Proof.
  induction location as [|v location IH]; intros shape loc Hloc Hlen.
  - destruct shape; [|done]. simpl in Hloc. simplify_eq. by split; [|constructor].
  - destruct shape as [|n shape]; [done|]. destruct v; try done.
    cbn [location_in_bounds] in Hloc. case_bool_decide; [|done].
    destruct (location_in_bounds location shape) as [loc'|] eqn:Hrest; [|done].
    cbn in Hloc. simplify_eq.
    destruct (IH shape loc' Hrest) as [-> Hin]; [simpl in Hlen; lia|].
    split; [done|]. by constructor.
Qed.

Lemma location_in_bounds_ints shape loc :
  in_shape shape loc → location_in_bounds (PInt <$> loc) shape = Some loc.
Proof.
  induction 1 as [|n i shape loc Hi _ IH]; [done|].
  cbn [fmap list_fmap location_in_bounds].
  rewrite bool_decide_eq_true_2 by done.
  fold (@fmap list _ _ _ PInt loc). by rewrite IH.
Qed.

Lemma location_in_bounds_outside location :
  ∀ shape i x n,
    location !! i = Some (PInt x) → shape !! i = Some n → ¬ 0 ≤ x < n →
    location_in_bounds location shape = None.
Proof.
  induction location as [|v location IH]; intros shape i x n Hx Hn Hout;
    [done|].
  destruct shape as [|m shape]; [done|]. destruct v; try done.
  cbn [location_in_bounds]. destruct i as [|i].
  - simpl in *. simplify_eq. by rewrite bool_decide_eq_false_2.
  - case_bool_decide; [|done]. simpl in Hx, Hn.
    by rewrite (IH shape i x n).
Qed.

Lemma location_in_bounds_not_int location :
  ∀ shape i v,
    location !! i = Some v → as_int v = None →
    location_in_bounds location shape = None.
Proof.
  induction location as [|w location IH]; intros shape i v Hv Hint; [done|].
  destruct i as [|i]; simpl in Hv.
  - simplify_eq. by destruct v, shape.
  - destruct shape as [|m shape]; [by destruct w|]. destruct w; try done.
    cbn [location_in_bounds]. case_bool_decide; [|done].
    by rewrite (IH shape i v).
Qed.

(** The number that [place] writes for a roll of [random.randint(0,9)]. *)
Definition placed_number (roll : Z) : Z :=
  if bool_decide (roll < 9) then 2 else 4.

(** [place] returns on every well-formed board: either it fails and leaves
    the board as it is, or it writes 2 or 4 in an empty cell. *)
Lemma place_cases (b : Board pyval) location roll :
  well_formed b →
  place b location roll = Some (b, false)
  ∨ ∃ loc ts,
      location = PInt <$> loc ∧ in_shape (shape b) loc
      ∧ get_tile (tiles b) loc = Some 0
      ∧ set_tile (tiles b) loc (placed_number roll) = Some ts
      ∧ grid (shape b) ts
      ∧ place b location roll = Some (mkBoard (shape b) ts, true).
Proof.
  intros [Hpos Hgrid]. unfold place.
  case_bool_decide as Hlen; [by left|].
  destruct (location_in_bounds location (shape b)) as [loc|] eqn:Hloc;
    [|by left].
  destruct (location_in_bounds_Some _ _ _ Hloc) as [-> Hin]; [lia|].
  destruct (grid_get _ _ _ Hgrid Hin) as [cell Hcell].
  rewrite Hcell. cbn [mbind option_bind].
  case_bool_decide as Hzero; [|by left]. subst cell.
  destruct (grid_set _ _ loc (placed_number roll) Hgrid Hin)
    as (ts & Hset & Hts & _).
  right. exists loc, ts. unfold placed_number in *. rewrite Hset. done.
Qed.

(** ** Well-formed boards stay well formed *)

Lemma move_well_formed (b b' : Board pyval) dimension direction moved :
  well_formed b → move b dimension direction = Some (b', moved) →
  well_formed b'.
Proof.
  intros Hwf Hmove.
  destruct (decide (valid_move (shape b) dimension direction))
    as [Hvalid|Hinvalid].
  - destruct (move_run_sweeps b dimension direction Hwf Hvalid)
      as (ts & bl & k & Hrun & _ & Hts).
    rewrite (move_valid_unfold b dimension direction Hvalid), Hrun in Hmove.
    cbn in Hmove. simplify_eq. by destruct Hwf.
  - unfold move in Hmove.
    case_bool_decide as Hd; [by simplify_eq|].
    case_bool_decide as Hdir; [by simplify_eq|].
    destruct Hinvalid. split; [lia|].
    apply elem_of_cons in Hdir as [|Hdir]; [by left|].
    apply elem_of_cons in Hdir as [|Hdir]; [by right|].
    by apply elem_of_nil in Hdir.
Qed.

Lemma place_well_formed (b b' : Board pyval) location roll placed :
  well_formed b → place b location roll = Some (b', placed) →
  well_formed b'.
Proof.
  intros Hwf Hplace.
  destruct (place_cases b location roll Hwf)
    as [Hfail|(loc & ts & _ & _ & _ & _ & Hts & Hok)].
  - rewrite Hfail in Hplace. by simplify_eq.
  - rewrite Hok in Hplace. simplify_eq. by destruct Hwf.
Qed.

(** Proves that a given board is well formed. *)
Ltac solve_shape :=
  cbn [has_shape];
  repeat first
    [ lia
    | eexists; split; [reflexivity|]; split; [reflexivity|]
    | by eexists
    | apply Forall_nil_2
    | apply Forall_cons_2 ].

Ltac solve_well_formed :=
  split; [repeat constructor; lia|split; [done|solve_shape]].

(** ** The claims about [move] *)





(** ** The claims about [place] *)

(** C4.  On every well-formed board, if the location has not as many
    components as the board has axes, or a component is outside its axis, or
    a component is not an int, or the cell it names is not empty, then
    [place] returns false and the board is the very one it was.  On the board built from
    the shape (2,2), [place([0,0])] succeeds and writes 2 or 4 at [0,0], and
    a second [place([0,0])] returns false and leaves the board as it was. *)
Theorem place_failure_atomic `{PyMath} :
  (∀ (b : Board pyval) location roll,
     well_formed b →
     length location ≠ length (shape b)
     ∨ (∃ i x n, location !! i = Some (PInt x) ∧ shape b !! i = Some n
                 ∧ ¬ 0 ≤ x < n)
     ∨ (∃ i v, location !! i = Some v ∧ as_int v = None)
     ∨ (∃ loc z, location = PInt <$> loc ∧ in_shape (shape b) loc
                 ∧ get_tile (tiles b) loc = Some z ∧ z ≠ 0) →
     place b location roll = Some (b, false))
  ∧ ∃ b0,
      Board_init [PInt 2; PInt 2] (PList []) = Some b0
      ∧ ∀ roll roll',
          ∃ b1,
            place b0 [PInt 0; PInt 0] roll = Some (b1, true)
            ∧ (get_tile (tiles b1) [0; 0] = Some 2
               ∨ get_tile (tiles b1) [0; 0] = Some 4)
            ∧ place b1 [PInt 0; PInt 0] roll' = Some (b1, false).
Proof.
  split.
  - intros b location roll Hwf Hbad. unfold place.
    case_bool_decide as Hlen; [done|].
    destruct Hbad as [Hbad|[(i & x & n & Hx & Hn & Hout)
                            |[(i & v & Hv & Hint)
                             |(loc & z & -> & Hin & Hz & Hnz)]]].
    + done.
    + by rewrite (location_in_bounds_outside _ _ _ _ _ Hx Hn Hout).
    + by rewrite (location_in_bounds_not_int _ _ _ _ Hv Hint).
    + rewrite (location_in_bounds_ints _ _ Hin), Hz. cbn [mbind option_bind].
      by rewrite bool_decide_eq_false_2.
  - eexists. split; [reflexivity|]. intros roll roll'.
    unfold place. cbn.
    destruct (bool_decide (roll < 9)); eexists; (split; [reflexivity|]);
      (split; [by (left + right)|reflexivity]).
Qed.

Lemma place_failure_atomic_witness :
  place (mkBoard [2;2] (rows [[2;0];[0;0]])) [PInt 0; PInt 0] 0
  = Some (mkBoard [2;2] (rows [[2;0];[0;0]]), false).
Proof.
  apply (proj1 (@place_failure_atomic exact_math)).
  - solve_well_formed.
  - right; right; right. exists [0; 0], 2.
    split; [reflexivity|]. split; [repeat constructor; lia|].
    split; [reflexivity|lia].
Defined.

(** ** Lines that cannot move *)

(** An empty cell is reachable when a tile stands behind it: some cell of
    its line that is farther from the wall is occupied. *)
Definition reachable_empty (b : Board pyval) (dimension direction : Z)
    (c : list Z) : Prop :=
  in_shape (shape b) c ∧ get_tile (tiles b) c = Some 0
  ∧ ∃ c', in_shape (shape b) c' ∧ same_line dimension c c'
          ∧ wall_distance (shape b) dimension direction c
            < wall_distance (shape b) dimension direction c'
          ∧ get_tile (tiles b) c' ≠ Some 0.

(** A tile and its neighbour toward the wall can merge when they hold the
    same number. *)
Definition mergeable (b : Board pyval) (dimension direction : Z)
    (c : list Z) : Prop :=
  in_shape (shape b) c ∧ wall_distance (shape b) dimension direction c ≠ 0
  ∧ ∃ v, v ≠ 0 ∧ get_tile (tiles b) c = Some v
         ∧ get_tile (tiles b) (toward dimension direction c) = Some v.

(** The sentence of the specification, as it stands: a line without a
    reachable empty cell is left unchanged. *)
Definition line_without_reachable_empty_is_kept : Prop :=
  ∀ (b : Board pyval) dimension direction c0,
    well_formed b → valid_move (shape b) dimension direction →
    (∀ c, same_line dimension c0 c → ¬ reachable_empty b dimension direction c) →
    ∃ b' moved,
      move b dimension direction = Some (b', moved)
      ∧ ∀ c, in_shape (shape b) c → same_line dimension c0 c →
             get_tile (tiles b') c = get_tile (tiles b) c.

(** Turns [in_shape shape c] for a given shape into the cases of [c]. *)
Ltac enum_coords H :=
  apply elem_of_all_coords in H; cbn in H;
  repeat (apply elem_of_cons in H as [->|H]);
  [..|by apply elem_of_nil in H].




(** ** Merge once *)



(** ** The terminal score *)

Lemma pyval_nested_ind (P : pyval → Prop) :
  (∀ z, P (PInt z)) → (∀ b, P (PBool b)) → P PNone →
  (∀ l, Forall P l → P (PList l)) → (∀ n, P (POther n)) →
  ∀ v, P v.
Proof.
  intros Hint Hbool Hnone Hlist Hother. fix IH 1.
  intros [z|b| |l|n];
    [apply Hint|apply Hbool|apply Hnone| |apply Hother].
  apply Hlist. revert l. fix IHl 1. intros [|x l]; constructor.
  - apply IH.
  - apply IHl.
Qed.

(** The leaves of a nested list, depth first. *)
Fixpoint leaves (t : pyval) : list pyval :=
  match t with
  | PList l => l ≫= leaves
  | _ => [t]
  end.

(** The tiles of a nested list, depth first. *)
Definition tile_values (t : pyval) : list Z := omap as_int (leaves t).

(** A tile of the data model: 0 or a power of two. *)
Definition legal_tile (v : pyval) : Prop :=
  ∃ z, v = PInt z ∧ (z = 0 ∨ ∃ k, 0 ≤ k ∧ z = 2 ^ k).

(** A tile that [get_score] can score: an int that is not negative. *)
Definition scorable_tile (v : pyval) : Prop := ∃ z, v = PInt z ∧ 0 ≤ z.

(** The score of one tile with an exact logarithm: 0 for 0, otherwise the
    tile times the integer part of log2 T - 1, [Z.log2] being the integer
    part of the logarithm.  On a tile 2^k of the data model the logarithm is
    k, truncating changes nothing, and the score is the T * (log2 T - 1) of
    the specification. *)
Definition spec_tile_score (tile : Z) : Z :=
  if bool_decide (tile = 0) then 0 else tile * (Z.log2 tile - 1).

Section score.
Context `{PyMath}.

(** The double-precision logarithm gives the exact result on this tile. *)
Definition log_exact_on (tile : Z) : Prop :=
  tile ≠ 0 → int_log2_minus_1 tile = Z.log2 tile - 1.

Lemma tile_values_cons_list l rest :
  tile_values (PList (PList l :: rest))
  = tile_values (PList l) ++ tile_values (PList rest).
Proof. unfold tile_values. cbn [leaves]. by rewrite bind_cons, omap_app. Qed.

Lemma tile_values_cons_int z rest :
  tile_values (PList (PInt z :: rest)) = z :: tile_values (PList rest).
Proof. unfold tile_values. cbn [leaves]. by rewrite bind_cons. Qed.

(** [get_score] threads the running score through every tile. *)
Lemma get_score_sum t :
  ∀ l score,
    t = PList l →
    Forall scorable_tile (leaves t) → Forall log_exact_on (tile_values t) →
    get_score t score
    = Some (score + Zsum (spec_tile_score <$> tile_values t)).
Proof.
  induction t as [| | |subs IH|] using pyval_nested_ind;
    intros l score Heq; try done.
  simplify_eq. cbn [get_score]. revert score.
  induction l as [|sub rest IHrest]; intros score Hlegal Hexact.
  { cbn. f_equal. lia. }
  apply Forall_cons in IH as [IHsub IH]. specialize (IHrest IH).
  cbn [leaves] in Hlegal. rewrite bind_cons in Hlegal.
  apply Forall_app in Hlegal as [Hlsub Hlrest].
  destruct sub as [z|b| |l'|n].
  - rewrite tile_values_cons_int in *.
    apply Forall_cons in Hexact as [Hz Hexact].
    apply Forall_singleton in Hlsub as (z' & ? & Hz'). simplify_eq.
    assert (tile_score z' = Some (spec_tile_score z')) as ->.
    { unfold tile_score, spec_tile_score. case_bool_decide; [done|].
      rewrite bool_decide_eq_false_2, Hz; [done..|]. lia. }
    cbn [mbind option_bind]. rewrite IHrest by done.
    rewrite fmap_cons, Zsum_cons. f_equal. lia.
  - apply Forall_singleton in Hlsub as (? & ? & _). done.
  - apply Forall_singleton in Hlsub as (? & ? & _). done.
  - rewrite tile_values_cons_list in *.
    apply Forall_app in Hexact as [Hesub Herest].
    rewrite (IHsub l' score eq_refl Hlsub Hesub). cbn [mbind option_bind].
    rewrite IHrest by done.
    rewrite fmap_app, Zsum_app. f_equal. lia.
  - apply Forall_singleton in Hlsub as (? & ? & _). done.
Qed.
End score.

Lemma Zsum_replicate_0 n : Zsum (replicate n 0) = 0.
Proof.
  induction n as [|n IH]; [done|]. cbn [replicate]. by rewrite Zsum_cons, IH.
Qed.

(** C5.  For every configuration of tiles that are ints and not negative,
    and on which the double-precision logarithm is exact, [get_score] is the
    depth-first sum over the tiles T of 0 when T is 0 and of T times the
    truncated log2 T - 1 otherwise; on a tile 2^k that is 2^k * (k - 1),
    which is T * (log2 T - 1); a configuration with one tile 8 and every
    other tile 0 scores 16. *)
Theorem get_score_terminal `{PyMath} :
  (∀ l, Forall scorable_tile (leaves (PList l)) →
        Forall log_exact_on (tile_values (PList l)) →
        get_score (PList l) 0
        = Some (Zsum (spec_tile_score <$> tile_values (PList l))))
  ∧ (∀ k, 0 ≤ k → spec_tile_score (2 ^ k) = 2 ^ k * (k - 1))
  ∧ (∀ l before after,
       log_exact_on 8 →
       leaves (PList l)
       = PInt <$> (replicate before 0 ++ 8 :: replicate after 0) →
       get_score (PList l) 0 = Some 16).
Proof.
  split; [|split].
  - intros l Hlegal Hexact.
    by rewrite (get_score_sum _ l 0 eq_refl Hlegal Hexact), Z.add_0_l.
  - intros k Hk. unfold spec_tile_score.
    pose proof (Z.pow_pos_nonneg 2 k).
    rewrite bool_decide_eq_false_2 by lia. by rewrite Z.log2_pow2.
  - intros l before after H8 Hleaves.
    assert (tile_values (PList l) = replicate before 0 ++ 8 :: replicate after 0)
      as Hvalues.
    { unfold tile_values. rewrite Hleaves.
      generalize (replicate before 0 ++ 8 :: replicate after 0). intros zs.
      induction zs as [|z zs IH]; [done|]. cbn. by rewrite IH. }
    rewrite (get_score_sum _ l 0 eq_refl).
    + rewrite Hvalues, fmap_app, fmap_cons, Zsum_app, Zsum_cons.
      rewrite !fmap_replicate.
      change (spec_tile_score 0) with 0. rewrite !Zsum_replicate_0. done.
    + rewrite Hleaves. apply Forall_fmap, Forall_forall.
      intros z Hz. exists z. split; [done|].
      apply elem_of_app in Hz as [Hz|Hz].
      * apply elem_of_replicate in Hz as [-> _]. done.
      * apply elem_of_cons in Hz as [->|Hz]; [done|].
        apply elem_of_replicate in Hz as [-> _]. done.
    + assert (log_exact_on 0) as H0 by (by intros ?).
      rewrite Hvalues. apply Forall_app. split; [by apply Forall_replicate|].
      constructor; [done|]. by apply Forall_replicate.
Qed.

Lemma get_score_terminal_witness :
  @get_score exact_math (rows [[2;0];[4;8]]) 0 = Some 20
  ∧ @get_score exact_math (rows [[8;0];[0;0]]) 0 = Some 16.
Proof.
  split.
  - etrans.
    + apply (proj1 (@get_score_terminal exact_math) (ints <$> [[2;0];[4;8]])).
      * repeat constructor; eexists; (split; [reflexivity|lia]).
      * repeat constructor; intros _; reflexivity.
    + vm_compute. reflexivity.
  - apply (proj2 (proj2 (@get_score_terminal exact_math)) _ 0%nat 3%nat).
    + intros _. reflexivity.
    + vm_compute. reflexivity.
Defined.

(** ** What construction accepts *)

Section validation_facts.
Context `{PyMath}.

(** A leaf that [validate_tiles] lets through: 0, or a positive int on
    which the test [log(leaf,2)%1!=0] is false. *)
Definition accepted_leaf (v : pyval) : Prop :=
  ∃ z, v = PInt z ∧ (z = 0 ∨ (0 < z ∧ log2_frac_nonzero z = false)).

(** The lengths [sh] are those recorded in [dims_length] from [depth]
    on. *)
Definition recorded (dims : gmap Z Z) (depth : Z) (sh : list Z) : Prop :=
  ∀ i n, sh !! i = Some n → dims !! (depth + Z.of_nat i) = Some n.

Lemma recorded_weaken dims dims' depth sh :
  dims ⊆ dims' → recorded dims depth sh → recorded dims' depth sh.
Proof. intros Hsub Hrec i n Hn. eapply lookup_weaken; eauto. Qed.

Lemma recorded_unique dims depth sh sh' :
  length sh = length sh' → recorded dims depth sh → recorded dims depth sh' →
  sh = sh'.
Proof.
  intros Hlen Hrec Hrec'. apply list_eq_same_length with (length sh); try done.
  intros i n n' _ Hn Hn'. specialize (Hrec i n Hn). specialize (Hrec' i n' Hn').
  congruence.
Qed.

Lemma validate_length_spec len depth dims dims' :
  validate_length len depth dims = Some dims' →
  dims ⊆ dims' ∧ dims' !! depth = Some len.
Proof.
  unfold validate_length. destruct (dims !! depth) as [seen|] eqn:Hseen.
  - case_bool_decide as Hne; [done|]. intros ?. by simplify_eq.
  - intros ?. simplify_eq. split; [by apply insert_subseteq|].
    apply lookup_insert_eq.
Qed.

Lemma validate_leaf_spec leaf depth max_depth dims st :
  validate_leaf leaf (depth, max_depth, dims) = Some st →
  st = (depth, depth, dims) ∧ (max_depth = -1 ∨ max_depth = depth)
  ∧ accepted_leaf (PInt leaf).
Proof.
  unfold validate_leaf. intros Hst.
  assert (accepted_leaf (PInt leaf)
          ∨ (leaf < 0 ∨ 0 < leaf ∧ log2_frac_nonzero leaf = true)) as Hleaf.
  { destruct (decide (leaf < 0)) as [|Hneg]; [by right; left|].
    destruct (decide (leaf = 0)) as [|Hz];
      [left; exists leaf; split; [done|by left]|].
    destruct (log2_frac_nonzero leaf) eqn:Htest.
    - right; right. split; [lia|done].
    - left. exists leaf. split; [done|]. right. split; [lia|done]. }
  repeat case_bool_decide; simplify_eq; destruct Hleaf as [Hacc|Hrej];
    try done; (split; [done|]); (split; [|done]); by (left + right).
Qed.

(** What a successful [validate_tiles] on a non-empty list at a depth
    tells. *)
Definition validated (t : pyval) : Prop :=
  ∀ l d m dims d' m' dims',
    t = PList l → l ≠ [] → 0 ≤ d →
    validate_tiles t d m dims = Some (d', m', dims') →
    d' = d - 1 ∧ dims ⊆ dims' ∧ d ≤ m' ∧ (m ≠ -1 → m' = m)
    ∧ Forall accepted_leaf (leaves t)
    ∧ ∃ sh, has_shape sh t ∧ positive_shape sh
            ∧ Z.of_nat (length sh) = m' - d + 1 ∧ recorded dims' d sh.

Lemma validate_each_spec subs :
  Forall validated subs →
  ∀ d m dims d2 m2 dims2,
    0 ≤ d →
    validate_each validate_tiles subs (d, m, dims) = Some (d2, m2, dims2) →
    d2 = d ∧ dims ⊆ dims2 ∧ (m ≠ -1 → m2 = m) ∧ (subs ≠ [] → d ≤ m2)
    ∧ Forall accepted_leaf (subs ≫= leaves)
    ∧ (subs ≠ [] →
       ∃ sh, Forall (has_shape sh) subs ∧ positive_shape sh
             ∧ Z.of_nat (length sh) = m2 - d ∧ recorded dims2 (d + 1) sh).
Proof.
  induction 1 as [|sub rest Hsub Hrest IH]; intros d m dims d2 m2 dims2 Hd Hrun.
  { cbn in Hrun. simplify_eq.
    split; [done|]. split; [done|]. split; [done|]. split; [done|].
    split; [constructor|done]. }
  cbn [validate_each] in Hrun. rewrite bind_cons.
  destruct sub as [leaf|b| |l'|n]; try done.
  - destruct (validate_leaf leaf (d, m, dims)) as [st|] eqn:Hleaf; [|done].
    apply validate_leaf_spec in Hleaf as (-> & Hm & Hacc).
    cbn [mbind option_bind] in Hrun.
    destruct (IH d d dims d2 m2 dims2 Hd Hrun)
      as (-> & Hsub2 & Hm2 & Hle & Hleaves & Hshape).
    assert (m2 = d) as -> by (apply Hm2; lia).
    split; [done|]. split; [done|]. split; [lia|]. split; [lia|].
    split; [by constructor|]. intros _. exists [].
    split; [|split; [constructor|split; [simpl; lia|intros i n Hn; done]]].
    constructor; [by exists leaf|].
    destruct rest as [|sub' rest']; [constructor|].
    destruct Hshape as (sh & Hall & _ & Hlen & _); [done|].
    destruct sh; [done|simpl in Hlen; lia].
  - case_bool_decide as Hne; [|done].
    destruct (validate_tiles (PList l') (d + 1) m dims)
      as [[[d1 m1] dims1]|] eqn:Hsubrun; [|done].
    cbn [mbind option_bind] in Hrun.
    destruct (Hsub l' (d + 1) m dims d1 m1 dims1 eq_refl)
      as (-> & Hsub1 & Hle1 & Hm1 & Hleaves1 & sh1 & Hsh1 & Hpos1 & Hlen1 & Hrec1);
      [intros ->; simpl in Hne; lia|lia|done|].
    replace (d + 1 - 1) with d in Hrun by lia.
    destruct (IH d m1 dims1 d2 m2 dims2 Hd Hrun)
      as (-> & Hsub2 & Hm2 & Hle & Hleaves & Hshape).
    assert (m2 = m1) as -> by (apply Hm2; lia).
    split; [done|]. split; [by etrans|]. split; [intros ?; by apply Hm1|].
    split; [lia|]. split; [by apply Forall_app|]. intros _. exists sh1.
    split; [|split; [done|split; [lia|by eapply recorded_weaken]]].
    constructor; [done|].
    destruct rest as [|sub' rest']; [constructor|].
    destruct Hshape as (sh & Hall & _ & Hlen & Hrec); [done|].
    rewrite (recorded_unique dims2 (d + 1) sh1 sh); [done|lia| |done].
    by eapply recorded_weaken.
Qed.

Lemma validate_tiles_spec t : validated t.
Proof.
  induction t as [| | |subs IH|] using pyval_nested_ind;
    intros l d m dims d' m' dims' Heq Hne Hd Hrun; try done.
  simplify_eq. cbn [validate_tiles] in Hrun.
  destruct (validate_length (Z.of_nat (length l)) d dims)
    as [dims0|] eqn:Hlen; [|done].
  apply validate_length_spec in Hlen as [Hsub0 Hd0].
  cbn [mbind option_bind] in Hrun.
  destruct (validate_each validate_tiles l (d, m, dims0))
    as [[[d2 m2] dims2]|] eqn:Heach; [|done].
  cbn in Hrun. simplify_eq.
  destruct (validate_each_spec l IH d m dims0 d2 m' dims' Hd Heach)
    as (-> & Hsub2 & Hm2 & Hle & Hleaves & Hshape).
  destruct (Hshape Hne) as (sh & Hall & Hpos & Hlensh & Hrec).
  split; [done|]. split; [by etrans|]. split; [by apply Hle|].
  split; [done|]. split; [done|].
  exists (Z.of_nat (length l) :: sh). split; [by exists l|].
  split; [constructor; [destruct l; [done|simpl; lia]|done]|].
  split; [simpl; lia|]. intros [|i] n Hn.
  - simpl in Hn. simplify_eq. rewrite Z.add_0_r.
    by eapply lookup_weaken.
  - simpl in Hn. replace (d + Z.of_nat (Datatypes.S i))
      with (d + 1 + Z.of_nat i) by lia. by apply Hrec.
Qed.

Lemma has_shape_recursive_len sh :
  ∀ t, sh ≠ [] → positive_shape sh → has_shape sh t →
       recursive_len t = Some sh.
Proof.
  induction sh as [|n sh IH]; intros t Hne Hpos Ht; [done|].
  apply Forall_cons in Hpos as [Hn Hpos].
  destruct Ht as (l & -> & Hlen & Hall).
  destruct l as [|first rest]; [simpl in Hlen; lia|].
  apply Forall_cons in Hall as [Hfirst _]. cbn [recursive_len].
  destruct sh as [|n' sh].
  - destruct Hfirst as [z ->]. cbn [mbind option_bind]. by rewrite Hlen.
  - pose proof (IH first) as IHfirst.
    destruct Hfirst as (l' & -> & Hfirst).
    rewrite IHfirst; [|done|done|by exists l'].
    cbn [mbind option_bind]. by rewrite Hlen.
Qed.

Lemma zero_tiles_shape sh :
  Forall (λ n, 0 ≤ n) sh → has_shape sh (zero_tiles sh).
Proof.
  induction 1 as [|n sh Hn _ IH]; [by exists 0|].
  cbn. eexists. split; [done|]. split; [|by apply Forall_replicate].
  rewrite length_replicate. lia.
Qed.

Lemma zero_tiles_leaves sh : Forall (λ v, v = PInt 0) (leaves (zero_tiles sh)).
Proof.
  induction sh as [|n sh IH]; [by repeat constructor|].
  cbn [zero_tiles foldr leaves]. fold (zero_tiles sh).
  induction (Z.to_nat n) as [|k IHk]; [constructor|].
  cbn [replicate]. rewrite bind_cons. by apply Forall_app.
Qed.

Lemma shape_dims_spec shape :
  ∀ dims, shape_dims shape = Some dims →
          length dims = length shape ∧ Forall (λ n, 2 ≤ n ≤ 10) dims.
Proof.
  induction shape as [|v shape IH]; intros dims Hdims.
  { cbn in Hdims. by simplify_eq. }
  destruct v as [n| | | |]; try done. cbn [shape_dims] in Hdims.
  case_bool_decide as Hn; [done|].
  destruct (shape_dims shape) as [dims'|]; [|done].
  cbn in Hdims. simplify_eq. destruct (IH dims' eq_refl) as [Hlen Hall].
  split; [simpl; lia|]. constructor; [lia|done].
Qed.

(** Every board that construction accepts is well formed, its tiles are
    the layout when one is given, and every leaf is an accepted leaf. *)
Lemma Board_init_spec given load_tiles b :
  Board_init given load_tiles = Some b →
  well_formed b ∧ Forall accepted_leaf (leaves (tiles b))
  ∧ (∀ l, load_tiles = PList l → l ≠ [] → tiles b = load_tiles).
Proof.
  unfold Board_init. intros Hinit.
  assert (∀ dims, shape_dims given = Some dims → length given ≠ 0%nat →
            well_formed (mkBoard dims (zero_tiles dims))
            ∧ Forall accepted_leaf (leaves (zero_tiles dims))) as Hshape.
  { intros dims Hdims Hlen.
    destruct (shape_dims_spec _ _ Hdims) as [Hl Hall]. split.
    - split; [eapply Forall_impl; [done|]; simpl; lia|]. split.
      + cbn [shape]. intros ->. simpl in Hl. lia.
      + apply zero_tiles_shape. eapply Forall_impl; [done|]. simpl. lia.
    - eapply Forall_impl; [apply zero_tiles_leaves|].
      intros v ->. exists 0. split; [done|by left]. }
  assert ((if bool_decide (length given = 0%nat) then None
           else if bool_decide (4 < length given)%nat then None
           else dims ← shape_dims given;
                Some (mkBoard dims (zero_tiles dims))) = Some b →
          well_formed b ∧ Forall accepted_leaf (leaves (tiles b)))
    as Hpath.
  { intros Hb. case_bool_decide as Hlen; [done|].
    case_bool_decide; [done|].
    destruct (shape_dims given) as [dims|] eqn:Hdims; [|done].
    cbn in Hb. simplify_eq. by apply Hshape. }
  destruct load_tiles as [z|flag| |l|n];
    try (destruct (Hpath Hinit); split; [done|split; [done|]];
         intros ? ? ?; by simplify_eq).
  destruct l as [|first rest].
  { destruct (Hpath Hinit); split; [done|split; [done|]].
    intros ? ? ?; by simplify_eq. }
  clear Hpath Hshape. case_bool_decide; [done|].
  destruct (validate_tiles (PList (first :: rest)) 0 (-1) ∅)
    as [[[d' m'] dims']|] eqn:Hval; [|done].
  cbn [mbind option_bind] in Hinit.
  destruct (recursive_len (PList (first :: rest))) as [dims|] eqn:Hdims;
    [|done].
  cbn in Hinit. simplify_eq.
  destruct (validate_tiles_spec _ (first :: rest) 0 (-1) ∅ d' m' dims' eq_refl)
    as (_ & _ & _ & _ & Hleaves & sh & Hsh & Hpos & Hlen & _);
    [done|lia|done|].
  assert (sh ≠ []) as Hne.
  { intros ->. by destruct Hsh as [z Hz]. }
  rewrite (has_shape_recursive_len sh _ Hne Hpos Hsh) in Hdims.
  simplify_eq. repeat split; done.
Qed.
Lemma Board_init_well_formed given load_tiles b :
  Board_init given load_tiles = Some b → well_formed b.
Proof. intros Hinit. by destruct (Board_init_spec _ _ _ Hinit). Qed.
End validation_facts.

(** The boards that a program can hold: constructed, then changed by
    calls of [move] and [place]. *)
Inductive reachable `{PyMath} : Board pyval → Prop :=
| reachable_init given load_tiles b :
    Board_init given load_tiles = Some b → reachable b
| reachable_move b dimension direction b' moved :
    reachable b → move b dimension direction = Some (b', moved) →
    reachable b'
| reachable_place b location roll b' placed :
    reachable b → place b location roll = Some (b', placed) →
    reachable b'.

Lemma reachable_well_formed `{PyMath} b : reachable b → well_formed b.
Proof.
  induction 1 as [given load_tiles b Hinit
                 |b dimension direction b' moved _ IH Hmove
                 |b location roll b' placed _ IH Hplace].
  - by eapply Board_init_well_formed.
  - by eapply move_well_formed.
  - by eapply place_well_formed.
Qed.

(** The leaf-value invariant as the specification states it: every leaf is
    0 or 2^k for some k ≥ 1. *)
Definition leaf_invariant (b : Board pyval) : Prop :=
  Forall (λ v, ∃ z, v = PInt z ∧ (z = 0 ∨ ∃ k, 1 ≤ k ∧ z = 2 ^ k))
         (leaves (tiles b)).

Definition construction_keeps_leaf_invariant : Prop :=
  ∀ (M : PyMath) given load_tiles b,
    Board_init given load_tiles = Some b → leaf_invariant b.


(** The constructor's test [log(leaf,2)%1!=0] tells on [z] whether [z] is
    a power of two. *)
Definition log_test_exact_on `{PyMath} (z : Z) : Prop :=
  0 < z → log2_frac_nonzero z = bool_decide (z ≠ 2 ^ Z.log2 z).



(** ** The attacker's wrapper *)

(** C8.  The wrapper does not check the elements of the location: a
    decision with [keepgoing] true and a list as location is returned to the
    round as it is, whatever the list holds; so is the one with the location
    [["x"]], whose only element is a string. *)
Theorem location_elements_unchecked :
  (∀ l, get_place_instruction
          (ThinkDict {[ "keepgoing" := PBool true; "location" := PList l ]})
        = Some {[ "keepgoing" := PBool true; "location" := PList l ]})
  ∧ get_place_instruction
      (ThinkDict {[ "keepgoing" := PBool true;
                    "location" := PList [POther 3] ]})
    = Some {[ "keepgoing" := PBool true; "location" := PList [POther 3] ]}.
Proof. split; [intros l|]; vm_compute; reflexivity. Qed.

(** ** A round in which the attacker gives up *)

Section round_facts.
Context `{PyMath}.

(** [get_score] returns on every nested list whose leaves construction
    accepts. *)
Lemma get_score_defined t :
  ∀ l score, t = PList l → Forall accepted_leaf (leaves t) →
             is_Some (get_score t score).
Proof.
  induction t as [| | |subs IH|] using pyval_nested_ind;
    intros l score Heq; try done.
  simplify_eq. cbn [get_score]. revert score.
  induction l as [|sub rest IHrest]; intros score Hacc; [by eexists|].
  apply Forall_cons in IH as [IHsub IH]. specialize (IHrest IH).
  cbn [leaves] in Hacc. rewrite bind_cons in Hacc.
  apply Forall_app in Hacc as [Hsub Hrest].
  destruct sub as [z|b| |l'|n];
    try (apply Forall_singleton in Hsub as (? & ? & _); done).
  - apply Forall_singleton in Hsub as (z' & ? & Hz). simplify_eq.
    assert (is_Some (tile_score z')) as [s ->].
    { unfold tile_score. case_bool_decide; [by eexists|].
      rewrite bool_decide_eq_false_2; [by eexists|]. lia. }
    cbn [mbind option_bind]. by apply IHrest.
  - destruct (IHsub l' score eq_refl Hsub) as [s ->].
    cbn [mbind option_bind]. by apply IHrest.
Qed.

(** A well-formed decision to stop: the dict has the two members, and
    [keepgoing] is [False]. *)
Definition gives_up (answer : think_result) : Prop :=
  ∃ d, answer = ThinkDict d ∧ size d = 2%nat
       ∧ d !! "keepgoing" = Some (PBool false) ∧ is_Some (d !! "location").

Lemma gives_up_accepted answer :
  gives_up answer →
  ∃ d, get_place_instruction answer = Some d
       ∧ is_true (d !! "keepgoing") = false.
Proof.
  intros (d & -> & Hsize & Hkeep & [location Hloc]). exists d.
  unfold get_place_instruction.
  rewrite bool_decide_eq_false_2 by (intros Hne; by apply Hne).
  by rewrite Hkeep, Hloc.
Qed.
End round_facts.

(** C9.  When the board is constructed and the attacker answers every
    question with a well-formed decision to stop, [start] returns after one
    question: for every positive fuel the round ends with the score of the
    initial board, the board is the initial board, the only question asked
    is the one to the attacker, and no number has been drawn. *)
Theorem attacker_gives_up_at_once `{PyMath} (attacker defender : provider)
    (rolls : nat → Z) fuel given board_tiles b :
  Board_init given board_tiles = Some b →
  (∀ n shown, ∃ answer, attacker n shown = Returned answer ∧ gives_up answer) →
  ∃ score,
    get_score (tiles b) 0 = Some score
    ∧ Round_start attacker defender rolls (Datatypes.S fuel) given board_tiles
      = Some (Returned (score, mkRound b [AskedAttacker (tiles b)] 0)).
Proof.
  intros Hinit Hstop.
  destruct (Board_init_spec given board_tiles b Hinit)
    as ([_ [Hne Hshape]] & Hacc & _).
  assert (∃ l, tiles b = PList l) as [l Hl].
  { destruct (shape b) as [|n sh]; [done|].
    destruct Hshape as (l & Hl & _). by exists l. }
  destruct (get_score_defined (tiles b) l 0 Hl Hacc) as [score Hscore].
  exists score. split; [done|].
  unfold Round_start. rewrite Hinit. cbn [play board asked drawn].
  destruct (Hstop (attacker_asked (mkRound b [] 0)) (tiles b))
    as (answer & Hanswer & Hgives).
  rewrite Hanswer.
  destruct (gives_up_accepted answer Hgives) as (d & Hd & Hkeep).
  rewrite Hd, Hkeep, Hscore. done.
Qed.

Lemma attacker_gives_up_at_once_witness :
  ∃ score,
    @get_score exact_math (rows [[8;0];[0;0]]) 0 = Some score
    ∧ @Round_start exact_math
        (λ _ _, Returned (ThinkDict {[ "keepgoing" := PBool false;
                                      "location" := PNone ]}))
        (λ _ _, Raised) (λ _, 0) 1 [] (rows [[8;0];[0;0]])
      = Some (Returned (score,
                mkRound (mkBoard [2;2] (rows [[8;0];[0;0]]))
                        [AskedAttacker (rows [[8;0];[0;0]])] 0)).
Proof.
  apply (@attacker_gives_up_at_once exact_math _ _ _ 0 []
           (rows [[8;0];[0;0]]) (mkBoard [2;2] (rows [[8;0];[0;0]]))).
  - reflexivity.
  - intros n shown. eexists. split; [reflexivity|].
    eexists. split; [reflexivity|].
    split; [reflexivity|]. split; [reflexivity|]. by eexists.
Defined.

(** ** What [move] and [place] can write *)

Section preserved.
Context {S : Type} `{TileStore S} (P : S → Prop).
Hypothesis set_tile_keeps :
  ∀ s c v s', P s → set_tile s c v = Some s' → P s'.

(** The tiles change through [__set_tile] only, so a property that every
    write keeps is kept by every call. *)
Lemma move_tile_keeps depth :
  ∀ sh s bl c dim dir s' bl' k,
    P s → move_tile depth sh s bl c dim dir = Some (s', bl', k) → P s'.
Proof.
  induction depth as [|depth IH]; intros sh s bl c dim dir s' bl' k Hs Hm;
    [done|].
  cbn [move_tile] in Hm.
  destruct (c !! Z.to_nat dim) as [here|]; [|done].
  destruct (wall_index sh dim dir) as [wall|]; [|done].
  cbn [mbind option_bind] in Hm.
  case_bool_decide; [by simplify_eq|].
  destruct (get_tile s c) as [source|]; [|done].
  cbn [mbind option_bind] in Hm.
  case_bool_decide; [by simplify_eq|].
  case_bool_decide; [by simplify_eq|].
  destruct (get_tile s _) as [target|]; [|done].
  cbn [mbind option_bind] in Hm.
  case_bool_decide.
  - destruct (set_tile s _ _) as [s1|] eqn:Hone; [|done].
    cbn [mbind option_bind] in Hm.
    destruct (set_tile s1 _ _) as [s2|] eqn:Htwo; [|done].
    cbn in Hm. simplify_eq. eauto.
  - case_bool_decide; [|by simplify_eq].
    destruct (set_tile s _ _) as [s1|] eqn:Hone; [|done].
    cbn [mbind option_bind] in Hm.
    destruct (set_tile s1 _ _) as [s2|] eqn:Htwo; [|done].
    cbn [mbind option_bind] in Hm.
    destruct (move_tile depth sh s2 bl _ dim dir)
      as [[[s3 bl3] k3]|] eqn:Hthree; [|done].
    cbn in Hm. simplify_eq. eapply IH; [|done]. eauto.
Qed.

Lemma move_loop_keeps depth sh dim dir coords :
  ∀ s bl k s' bl' k',
    P s → move_loop depth sh dim dir coords (s, bl, k) = Some (s', bl', k') →
    P s'.
Proof.
  induction coords as [|c coords IH]; intros s bl k s' bl' k' Hs Hm.
  { cbn in Hm. by simplify_eq. }
  cbn [move_loop] in Hm.
  destruct (move_tile depth sh s bl c dim dir) as [[[s1 bl1] k1]|] eqn:Hone;
    [|done].
  cbn [mbind option_bind] in Hm. eapply IH; [|done].
  by eapply move_tile_keeps.
Qed.

Lemma move_keeps (b b' : Board S) dim dir moved :
  P (tiles b) → move b dim dir = Some (b', moved) → P (tiles b').
Proof.
  intros Hs Hm. unfold move, move_run in Hm.
  case_bool_decide; [by simplify_eq|].
  case_bool_decide; [by simplify_eq|].
  destruct (move_loop _ _ _ _ _ _) as [[[s1 bl1] k1]|] eqn:Hone; [|done].
  cbn in Hm. simplify_eq. by eapply move_loop_keeps.
Qed.

Lemma place_keeps (b b' : Board S) location roll placed :
  P (tiles b) → place b location roll = Some (b', placed) → P (tiles b').
Proof.
  intros Hs Hp. unfold place in Hp.
  case_bool_decide; [by simplify_eq|].
  destruct (location_in_bounds _ _) as [loc|]; [|by simplify_eq].
  destruct (get_tile _ _) as [cell|]; [|done].
  cbn [mbind option_bind] in Hp.
  case_bool_decide; [|by simplify_eq].
  destruct (set_tile _ _ _) as [s1|] eqn:Hone; [|done].
  cbn in Hp. simplify_eq. eauto.
Qed.

Lemma run_calls_keeps calls :
  ∀ b b' : Board S,
    P (tiles b) → run_calls b calls = Some b' → P (tiles b').
Proof.
  induction calls as [|c calls IH]; intros b b' Hs Hrun.
  { cbn in Hrun. by simplify_eq. }
  cbn [run_calls] in Hrun.
  destruct (run_call b c) as [b1|] eqn:Hcall; [|done].
  cbn [mbind option_bind] in Hrun. eapply IH; [|done].
  destruct c as [location roll|dim dir]; cbn [run_call] in Hcall.
  - destruct (place b location roll) as [[b2 placed]|] eqn:Hp; [|done].
    cbn in Hcall. simplify_eq. by eapply place_keeps.
  - destruct (move b dim dir) as [[b2 moved]|] eqn:Hm; [|done].
    cbn in Hcall. simplify_eq. by eapply move_keeps.
Qed.
End preserved.

(** ** The board does not share lists with its layout *)

Section heap_facts.
Variable h0 : heap.

(** A value is new when it is not a list of the heap [h0]. *)
Definition new_value (v : hval) : Prop :=
  ∀ l, v = HRef l → (length h0 ≤ l)%nat.

(** The lists created since [h0] hold new values only. *)
Definition closed (h : heap) : Prop :=
  ∀ l xs, (length h0 ≤ l)%nat → h !! l = Some xs → Forall new_value xs.

(** The tiles [s] are apart from [h0]: the lists of [h0] are all there as
    they were, and no list reachable from the tiles is one of them. *)
Definition apart (s : heap * hval) : Prop :=
  h0 `prefix_of` s.1 ∧ closed s.1 ∧ new_value s.2.

Lemma py_getitem_elem {A} (xs : list A) i x :
  py_getitem xs i = Some x → x ∈ xs.
Proof.
  unfold py_getitem. destruct (py_index xs i) as [n|]; [|done].
  cbn. apply list_elem_of_lookup_2.
Qed.

Lemma heap_walk_new h location :
  ∀ tile v, closed h → new_value tile →
            heap_walk h tile location = Some v → new_value v.
Proof.
  induction location as [|i location IH]; intros tile v Hcl Hnew Hwalk.
  { cbn in Hwalk. by simplify_eq. }
  destruct tile as [| | |l|]; try done. cbn [heap_walk] in Hwalk.
  destruct (h !! l) as [xs|] eqn:Hxs; [|done].
  cbn [mbind option_bind] in Hwalk.
  destruct (py_getitem xs i) as [sub|] eqn:Hsub; [|done].
  cbn [mbind option_bind] in Hwalk.
  apply (IH sub v Hcl); [|done].
  pose proof (Hcl l xs (Hnew l eq_refl) Hxs) as Hall.
  rewrite Forall_forall in Hall. apply Hall. by eapply py_getitem_elem.
Qed.

Lemma prefix_insert_new (h : heap) l xs :
  h0 `prefix_of` h → (length h0 ≤ l)%nat → h0 `prefix_of` <[l := xs]> h.
Proof.
  intros [k ->] Hl. rewrite insert_app_r_alt by done. by eexists.
Qed.

Lemma prefix_alter_new (h : heap) l f :
  h0 `prefix_of` h → (length h0 ≤ l)%nat → h0 `prefix_of` alter f l h.
Proof.
  intros [k ->] Hl. rewrite alter_app_r_alt by done. by eexists.
Qed.

(** A write through tiles that are apart from [h0] leaves them apart. *)
Lemma heap_set_apart s location number s' :
  apart s → heap_set s location number = Some s' → apart s'.
Proof.
  intros (Hpre & Hcl & Hroot) Hset. unfold heap_set in Hset.
  destruct (last location) as [i|]; [|done].
  cbn [mbind option_bind] in Hset.
  destruct (heap_walk s.1 s.2 (removelast location)) as [tile|] eqn:Hwalk;
    [|done].
  cbn [mbind option_bind] in Hset.
  pose proof (heap_walk_new _ _ _ _ Hcl Hroot Hwalk) as Hnew.
  destruct tile as [| | |l|]; try done.
  destruct (s.1 !! l) as [xs|] eqn:Hxs; [|done].
  cbn [mbind option_bind] in Hset.
  destruct (py_index xs i) as [n|]; [|done]. cbn in Hset. simplify_eq.
  specialize (Hnew l eq_refl). split; [by apply prefix_insert_new|].
  split; [|done]. intros l' xs' Hl' Hxs'. cbn [fst] in Hxs'.
  rewrite list_lookup_insert in Hxs'. case_decide as Heq.
  - destruct Heq as [<- _]. simplify_eq.
    apply Forall_insert; [by eapply (Hcl l)|]. by intros ? ?.
  - by eapply (Hcl l').
Qed.

Definition memo_new (memo : gmap nat nat) : Prop :=
  ∀ l y, memo !! l = Some y → (length h0 ≤ y)%nat.

Definition copying (h : heap) (memo : gmap nat nat) : Prop :=
  h0 `prefix_of` h ∧ closed h ∧ memo_new memo.

Definition copies_apart
    (copy : heap → gmap nat nat → hval
            → option (heap * gmap nat nat * hval)) : Prop :=
  ∀ h memo v h' memo' v',
    copying h memo → copy h memo v = Some (h', memo', v') →
    copying h' memo' ∧ new_value v' ∧ (length h ≤ length h')%nat.

Lemma deepcopy_each_apart copy y xs :
  copies_apart copy → (length h0 ≤ y)%nat →
  ∀ h memo h' memo',
    copying h memo → deepcopy_each copy y xs h memo = Some (h', memo') →
    copying h' memo' ∧ (length h ≤ length h')%nat.
Proof.
  intros Hcopy Hy. induction xs as [|a xs IH]; intros h memo h' memo' Hc Heach.
  { cbn in Heach. by simplify_eq. }
  cbn [deepcopy_each] in Heach.
  destruct (copy h memo a) as [[[ha ma] a']|] eqn:Ha; [|done].
  cbn [mbind option_bind] in Heach.
  destruct (Hcopy _ _ _ _ _ _ Hc Ha) as ((Hpre & Hcl & Hmemo) & Hnew & Hlen).
  assert (copying (alter (λ ys, ys ++ [a']) y ha) ma) as Hc1.
  { split; [by apply prefix_alter_new|]. split; [|done].
    intros l ys Hl Hys. rewrite list_lookup_alter in Hys.
    case_decide as Heq; [|by eapply (Hcl l)].
    destruct (ha !! y) as [ys'|] eqn:Hys'; [|done].
    cbn in Hys. simplify_eq. apply Forall_app.
    split; [by eapply (Hcl l)|]. by constructor. }
  destruct (IH _ _ _ _ Hc1 Heach) as [Hc' Hlen'].
  split; [done|]. rewrite length_alter in Hlen'. lia.
Qed.

Lemma deepcopy_apart depth : copies_apart (deepcopy depth).
Proof.
  induction depth as [|depth IH]; intros h memo v h' memo' v' Hc Hcopy.
  - destruct v as [| | |l|]; cbn in Hcopy; simplify_eq;
      try (split; [done|split; [by intros ? ?|done]]).
    destruct (memo !! l) as [y|] eqn:Hy; [|done]. simplify_eq.
    destruct Hc as (? & ? & Hmemo). split; [done|].
    split; [|done]. intros ? ?. simplify_eq. by eapply Hmemo.
  - destruct v as [| | |l|]; cbn [deepcopy] in Hcopy; simplify_eq;
      try (split; [done|split; [by intros ? ?|done]]).
    destruct Hc as (Hpre & Hcl & Hmemo).
    destruct (memo !! l) as [y|] eqn:Hy.
    { simplify_eq. split; [done|]. split; [|done].
      intros ? ?. simplify_eq. by eapply Hmemo. }
    destruct (h !! l) as [xs|] eqn:Hxs; [|done].
    cbn [mbind option_bind] in Hcopy.
    destruct (deepcopy_each _ _ _ _ _) as [[h2 memo2]|] eqn:Heach; [|done].
    cbn in Hcopy. simplify_eq.
    assert (length h0 ≤ length h)%nat as Hle by (by apply prefix_length).
    assert (copying (h ++ [[]]) (<[l := length h]> memo)) as Hc1.
    { split; [by apply prefix_app_r|]. split.
      - intros l' ys Hl' Hys.
        destruct (decide (l' < length h)%nat) as [Hlt|Hge].
        + rewrite lookup_app_l in Hys by done. by eapply (Hcl l').
        + rewrite lookup_app_r in Hys by lia.
          destruct (l' - length h)%nat; [|done]. cbn in Hys. by simplify_eq.
      - intros l' y Hy'. rewrite lookup_insert in Hy'.
        case_decide; [by simplify_eq|by eapply Hmemo]. }
    destruct (deepcopy_each_apart _ _ _ IH Hle _ _ _ _ Hc1 Heach)
      as [Hc' Hlen].
    split; [done|]. rewrite length_app in Hlen. simpl in Hlen.
    split; [|lia]. intros ? ?. by simplify_eq.
Qed.

Lemma reify_kept depth :
  ∀ (h : heap) v t,
    h0 `prefix_of` h → reify depth h0 v = Some t → reify depth h v = Some t.
Proof.
  induction depth as [|depth IH]; intros h v t Hpre Hr;
    destruct v as [| | |l|]; try done.
  cbn [reify] in *.
  destruct (h0 !! l) as [xs|] eqn:Hxs; [|done].
  rewrite (prefix_lookup_Some _ _ _ _ Hxs Hpre).
  cbn [mbind option_bind] in *.
  destruct (mapM (reify depth h0) xs) as [subs|] eqn:Hsubs; [|done].
  cbn in Hr. simplify_eq.
  apply mapM_Some in Hsubs.
  rewrite (proj2 (mapM_Some (reify depth h) xs subs)); [done|].
  eapply Forall2_impl; [done|]. intros x y Hxy. by apply IH.
Qed.
End heap_facts.

(** C10.  When [Board(load_tiles=L)] is constructed in a heap [h], every
    list of [h] is afterwards what it was, and the tiles of the board are
    apart from [h]: no list reachable from them is a list of [h].  After any
    calls of [place] and [move] on the board this is still so, and [L]
    denotes the nested list it denoted before the construction. *)
Theorem layout_not_aliased `{PyMath} depth (h : heap) load_tiles b :
  Board_init_load depth h load_tiles = Some b →
  apart h (tiles b)
  ∧ ∀ calls b',
      run_calls b calls = Some b' →
      apart h (tiles b')
      ∧ reify depth (tiles b').1 load_tiles = reify depth h load_tiles.
Proof.
  intros Hinit. unfold Board_init_load in Hinit.
  destruct (reify depth h load_tiles) as [layout|] eqn:Hlayout; [|done].
  cbn [mbind option_bind] in Hinit.
  destruct layout as [| | |[|first rest]|]; try done.
  case_bool_decide; [done|].
  destruct (validate_tiles _ _ _ _) as [?|]; [|done].
  cbn [mbind option_bind] in Hinit.
  destruct (recursive_len _) as [dims|]; [|done].
  cbn [mbind option_bind] in Hinit.
  destruct (deepcopy depth h ∅ load_tiles) as [[[h1 memo] copy]|] eqn:Hcopy;
    [|done].
  cbn in Hinit. simplify_eq. cbn [tiles].
  assert (apart h (h1, copy)) as Hapart.
  { destruct (deepcopy_apart h depth h ∅ load_tiles h1 memo copy)
      as ((Hpre & Hcl & _) & Hnew & _); [|done|done].
    split; [done|]. split.
    - intros l xs Hl Hxs. apply lookup_lt_Some in Hxs. lia.
    - intros l y Hy. by rewrite lookup_empty in Hy. }
  split; [done|]. intros calls b' Hrun.
  assert (apart h (tiles b')) as Hapart'.
  { apply (@run_calls_keeps _ heap_store (apart h) (heap_set_apart h) calls
             (mkBoard dims (h1, copy)) b' Hapart Hrun). }
  split; [done|]. destruct Hapart' as [Hpre _].
  by apply (reify_kept h).
Qed.

Lemma layout_not_aliased_witness :
  let h := [[HRef 1; HRef 2]; [HInt 2; HInt 0]; [HInt 0; HInt 0]] in
  let b := mkBoard [2; 2]
             (h ++ [[HRef 4; HRef 5]; [HInt 2; HInt 0]; [HInt 0; HInt 0]],
              HRef 3) in
  apart h (tiles b)
  ∧ ∀ calls b',
      run_calls b calls = Some b' →
      apart h (tiles b')
      ∧ reify 3 (tiles b').1 (HRef 0) = reify 3 h (HRef 0).
Proof.
  intros h b. apply (@layout_not_aliased exact_math 3 h (HRef 0) b).
  vm_compute. reflexivity.
Defined.

(** The board built from the layout [[2,0],[0,0]] is played on; the layout
    stays [[2,0],[0,0]]. *)
Example layout_survives_play :
  let h := [[HRef 1; HRef 2]; [HInt 2; HInt 0]; [HInt 0; HInt 0]] in
  ∃ b b',
    @Board_init_load exact_math 3 h (HRef 0) = Some b
    ∧ run_calls b [CallPlace [PInt 1; PInt 1] 3; CallMove 0 (-1)] = Some b'
    ∧ reify 3 (tiles b').1 (tiles b').2 = Some (rows [[2;2];[0;0]])
    ∧ reify 3 (tiles b').1 (HRef 0) = Some (rows [[2;0];[0;0]]).
Proof.
  intros h.
  exists (mkBoard [2; 2]
            (h ++ [[HRef 4; HRef 5]; [HInt 2; HInt 0]; [HInt 0; HInt 0]],
             HRef 3)),
         (mkBoard [2; 2]
            (h ++ [[HRef 4; HRef 5]; [HInt 2; HInt 2]; [HInt 0; HInt 0]],
             HRef 3)).
  repeat split; vm_compute; reflexivity.
Qed.

(** * Further properties *)

(** ** The tiles of a grid, cell by cell *)

Lemma bind_seqZ_lookup {A B} (F : Z → list B) (G : A → list B) (l : list A) :
  ∀ start,
    (∀ i x, l !! i = Some x → F (start + Z.of_nat i) = G x) →
    seqZ start (Z.of_nat (length l)) ≫= F = l ≫= G.
Proof.
  induction l as [|x l IH]; intros start HF; [done|].
  rewrite seqZ_cons by (simpl; lia). rewrite !bind_cons.
  replace (Z.pred (Z.of_nat (length (x :: l)))) with (Z.of_nat (length l))
    by (simpl; lia).
  rewrite (IH (Z.succ start)).
  - f_equal. rewrite <- (HF 0%nat x) by done. f_equal. lia.
  - intros i y Hy. rewrite <- (HF (Datatypes.S i) y) by done. f_equal. lia.
Qed.

Lemma fmap_bind_list {A B C} (f : B → C) (g : A → list B) (l : list A) :
  f <$> (l ≫= g) = l ≫= (λ x, f <$> g x).
Proof.
  induction l as [|x l IH]; [done|]. by rewrite !bind_cons, fmap_app, IH.
Qed.

(** The leaves of a grid, depth first, are its cells in lexicographic
    order. *)
Lemma leaves_cells shape :
  ∀ t, has_shape shape t →
       leaves t = (λ c, PInt (cell t c)) <$> all_coords shape.
Proof.
  induction shape as [|n shape IH]; intros t Ht.
  - destruct Ht as [z ->]. done.
  - destruct Ht as (l & -> & Hlen & Hall). cbn [leaves all_coords].
    subst n. rewrite fmap_bind_list.
    apply eq_sym, bind_seqZ_lookup. intros i sub Hsub. rewrite Z.add_0_l.
    rewrite (IH sub) by (by eapply Forall_lookup_1).
    rewrite <- list_fmap_compose.
    apply list_fmap_ext. intros _ c _.
    unfold cell, compose. cbn [get_tile nested_store nested_get].
    unfold py_getitem. apply lookup_lt_Some in Hsub as Hlt.
    rewrite py_index_in_range by lia. cbn [mbind option_bind].
    rewrite Nat2Z.id, Hsub. done.
Qed.

Lemma tile_values_cells shape t :
  has_shape shape t → tile_values t = cell t <$> all_coords shape.
Proof.
  intros Ht. unfold tile_values. rewrite (leaves_cells shape t Ht).
  induction (all_coords shape) as [|c cs IH]; [done|].
  rewrite !fmap_cons. cbn [omap list_omap as_int]. by rewrite IH.
Qed.

Lemma tile_values_Forall (P : Z → Prop) shape t :
  has_shape shape t →
  Forall P (tile_values t) ↔ ∀ c, in_shape shape c → P (cell t c).
Proof.
  intros Ht. rewrite (tile_values_cells shape t Ht), Forall_fmap, Forall_forall.
  split; intros HP c Hc; apply HP; by apply elem_of_all_coords.
Qed.

Lemma elem_of_tile_values shape t v :
  has_shape shape t →
  v ∈ tile_values t ↔ ∃ c, in_shape shape c ∧ cell t c = v.
Proof.
  intros Ht. rewrite (tile_values_cells shape t Ht), list_elem_of_fmap.
  split; intros (c & Hc & Hv); exists c.
  - split; [by apply elem_of_all_coords|done].
  - split; [done|by apply elem_of_all_coords].
Qed.

Lemma leaves_ints shape t :
  has_shape shape t → leaves t = PInt <$> tile_values t.
Proof.
  intros Ht. rewrite (tile_values_cells shape t Ht), (leaves_cells shape t Ht).
  by rewrite <- list_fmap_compose.
Qed.

(** A call of [move] with a dimension or a direction that it refuses. *)
Lemma move_invalid {S} `{TileStore S} (b : Board S) dimension direction :
  ¬ valid_move (shape b) dimension direction →
  move b dimension direction = Some (b, false).
Proof.
  intros Hinvalid. unfold move.
  case_bool_decide as Hd; [done|].
  case_bool_decide as Hdir; [done|].
  destruct Hinvalid. split; [lia|].
  apply elem_of_cons in Hdir as [|Hdir]; [by left|].
  apply elem_of_cons in Hdir as [|Hdir]; [by right|].
  by apply elem_of_nil in Hdir.
Qed.

(** What [move] returns on a well-formed board, in one statement. *)
Lemma move_cases (b : Board pyval) dimension direction :
  well_formed b →
  (¬ valid_move (shape b) dimension direction
   ∧ move b dimension direction = Some (b, false))
  ∨ (valid_move (shape b) dimension direction
     ∧ ∃ ts bl k,
         move_run b dimension direction = Some (ts, bl, k)
         ∧ move b dimension direction
           = Some (mkBoard (shape b) ts, bool_decide (0 < k))
         ∧ sweeps (shape b) dimension direction
             (generate_sequential_coordinates (shape b) dimension direction)
             (tiles b) [] ts bl k
         ∧ grid (shape b) ts).
Proof.
  intros Hwf.
  destruct (decide (valid_move (shape b) dimension direction))
    as [Hvalid|Hinvalid]; [right|left; by split; [|apply move_invalid]].
  split; [done|].
  destruct (move_run_sweeps b dimension direction Hwf Hvalid)
    as (ts & bl & k & Hrun & Hsw & Hts).
  exists ts, bl, k. split; [done|]. split; [|done].
  by rewrite (move_valid_unfold b dimension direction Hvalid), Hrun.
Qed.

(** ** What a move can write *)

Section written.
Context {S : Type} `{LawfulStore S}.
Variables (shape : list Z) (dimension direction : Z).
Hypothesis Hvalid : @valid_move shape dimension direction.
Variable s0 : S.

Local Abbreviation dist := (wall_distance shape dimension direction).
Local Abbreviation tw := (toward dimension direction).

(** A tile of the tiles [s0] that [move] starts from. *)
Definition original (v : Z) : Prop :=
  ∃ c0, in_shape shape c0 ∧ cell s0 c0 = v.

(** While [move] runs, a cell that is not blocked holds 0 or a tile that
    was on the board at the start, and a blocked cell holds the double of
    such a tile. *)
Definition traced (s : S) (bl : list (list Z)) : Prop :=
  ∀ c, in_shape shape c →
       (c ∉ bl → cell s c = 0 ∨ original (cell s c))
       ∧ (c ∈ bl → ∃ u, original u ∧ cell s c = u * 2).

Lemma traced_start : traced s0 [].
Proof.
  intros c Hc. split; [|by intros ?%elem_of_nil].
  intros _. right. by exists c.
Qed.

(** A property of tiles that 0 has and that doubling keeps holds of every
    tile while [move] runs, when it holds of the tiles at the start. *)
Lemma traced_closed (P : Z → Prop) s bl :
  P 0 → (∀ v, P v → P (v * 2)) →
  (∀ c, in_shape shape c → P (cell s0 c)) →
  traced s bl → ∀ c, in_shape shape c → P (cell s c).
Proof.
  intros Hzero Hdouble Hstart Htr c Hc.
  destruct (Htr c Hc) as [Hfree Hblocked].
  destruct (decide (c ∈ bl)) as [Hin|Hnin].
  - destruct (Hblocked Hin) as (u & (c0 & Hc0 & <-) & ->).
    by apply Hdouble, Hstart.
  - destruct (Hfree Hnin) as [->|(c0 & Hc0 & <-)]; [done|by apply Hstart].
Qed.

Lemma traced_pair s bl c v x s1 s2 bl' :
  holds shape s → in_shape shape c → dist c ≠ 0 → v ≠ 0 →
  get_tile s c = Some v → c ∉ bl → tw c ∉ bl →
  set_tile s (tw c) x = Some s1 → set_tile s1 c 0 = Some s2 →
  traced s bl →
  (bl' = bl ∧ x = v) ∨ (bl' = bl ++ [tw c] ∧ x = v * 2) →
  traced s2 bl'.
Proof.
  intros Hs Hc Hd Hv Hg Hcbl Htbl H1 H2 Htr Hcase.
  destruct (set_pair_spec _ _ _ Hvalid _ _ _ _ _ Hs Hc Hd H1 H2)
    as (_ & Hgt & Hgc & Ho).
  pose proof (toward_neq _ _ _ Hvalid c Hc) as Hne.
  assert (original v) as Hov.
  { destruct (Htr c Hc) as [Hfree _]. unfold cell in Hfree.
    rewrite Hg in Hfree. destruct (Hfree Hcbl); done. }
  intros c' Hc'.
  destruct (decide (c' = c)) as [->|Hnc].
  { unfold cell. rewrite Hgc. split; [by left|].
    intros Hin. destruct Hcase as [[-> _]|[-> _]]; [done|].
    apply elem_of_app in Hin as [|Hin%list_elem_of_singleton]; done. }
  destruct (decide (c' = tw c)) as [->|Hnt].
  { unfold cell. rewrite Hgt. destruct Hcase as [[-> ->]|[-> ->]].
    - split; [by right|done].
    - split; [|by exists v]. intros Hnin. destruct Hnin.
      apply elem_of_app. right. by apply list_elem_of_singleton. }
  unfold cell. rewrite (Ho c' Hc' Hnc Hnt). fold (cell s c').
  destruct (Htr c' Hc') as [Hfree Hblocked].
  destruct Hcase as [[-> _]|[-> _]]; [done|]. split.
  - intros Hnin. apply Hfree. intros Hin. apply Hnin, elem_of_app. by left.
  - intros Hin. apply Hblocked.
    apply elem_of_app in Hin as [|Hin%list_elem_of_singleton]; done.
Qed.

Lemma slides_traced s bl c s' bl' k :
  slides shape dimension direction s bl c s' bl' k →
  holds shape s → in_shape shape c → c ∉ bl → traced s bl → traced s' bl'.
Proof.
  induction 1 as [| s bl c v s1 s2 Hd Hv Hbl Hg Hgt H1 H2
                  | s bl c v s1 s2 s3 bl3 k Hd Hv Hbl Hg Hgt H1 H2 Hsl IH];
    intros Hs Hc Hcbl Htr; [done| |].
  - eapply (traced_pair s bl c v (v * 2)); try done. by right.
  - destruct (set_pair_spec _ _ _ Hvalid _ _ _ _ _ Hs Hc Hd H1 H2)
      as (Hs2 & _).
    apply IH; [done|by apply toward_in_shape|done|].
    eapply (traced_pair s bl c v v); try done. by left.
Qed.

Lemma sweeps_traced coords s bl s' bl' k :
  sweeps shape dimension direction coords s bl s' bl' k →
  holds shape s → Forall (in_shape shape) coords →
  StronglySorted (wallward shape dimension direction) coords →
  blocked_behind shape dimension direction bl coords →
  traced s bl → traced s' bl'.
Proof.
  induction 1 as [|x coords s bl s1 bl1 k1 s2 bl2 k2 Hsl Hsw IH];
    intros Hs Hcs Hsorted Hbh Htr; [done|].
  apply Forall_cons in Hcs as [Hx Hcs].
  apply StronglySorted_inv in Hsorted as [Hsorted Hall].
  destruct (slides_behind _ _ _ Hvalid _ _ _ _ _ _ _ Hsl Hs Hx Hall Hbh)
    as [Hxbl Hbh1].
  apply IH; [by eapply slides_holds|done..|].
  by eapply slides_traced.
Qed.
End written.

(** After a call of [move] on a well-formed board, every cell holds 0, a
    tile of the board before the call, or the double of one. *)
Lemma move_traced (b : Board pyval) dimension direction ts bl k :
  well_formed b → valid_move (shape b) dimension direction →
  move_run b dimension direction = Some (ts, bl, k) →
  traced (shape b) (tiles b) ts bl.
Proof.
  intros Hwf Hvalid Hrun.
  destruct (move_run_sweeps b dimension direction Hwf Hvalid)
    as (ts' & bl' & k' & Hrun' & Hsw & Hts).
  rewrite Hrun in Hrun'. simplify_eq. destruct Hwf as [Hpos Hgrid].
  eapply (sweeps_traced _ _ _ Hvalid); [done..| | | |].
  - by apply sequential_coordinates_in_shape.
  - apply sequential_coordinates_sorted; [done|apply Hvalid].
  - intros c Hc. by apply elem_of_nil in Hc.
  - apply traced_start.
Qed.



(** ** Tiles stay in the data model *)

Definition zero_or_power_of_two (z : Z) : Prop :=
  z = 0 ∨ ∃ k, 0 ≤ k ∧ z = 2 ^ k.

Lemma legal_tile_values shape t :
  has_shape shape t →
  Forall legal_tile (leaves t) ↔ Forall zero_or_power_of_two (tile_values t).
Proof.
  intros Ht. rewrite (leaves_ints shape t Ht), Forall_fmap.
  apply Forall_proper; [|done]. intros z. unfold legal_tile, compose.
  split; [intros (z' & ? & Hz); by simplify_eq|intros Hz; by exists z].
Qed.

(** What a successful [place] has done. *)
Lemma place_written (b b' : Board pyval) location roll :
  well_formed b → place b location roll = Some (b', true) →
  ∃ loc,
    location = PInt <$> loc ∧ in_shape (shape b) loc
    ∧ shape b' = shape b ∧ grid (shape b) (tiles b')
    ∧ get_tile (tiles b) loc = Some 0
    ∧ get_tile (tiles b') loc = Some (placed_number roll)
    ∧ ∀ c, in_shape (shape b) c → c ≠ loc →
           get_tile (tiles b') c = get_tile (tiles b) c.
Proof.
  intros Hwf Hplace.
  destruct (place_cases b location roll Hwf)
    as [Hfail|(loc & ts & -> & Hin & Hcell & Hset & Hts & Hok)].
  { rewrite Hfail in Hplace. by simplify_eq. }
  rewrite Hok in Hplace. simplify_eq. exists loc. cbn [shape tiles].
  destruct Hwf as [_ Hgrid].
  destruct (set_tile_spec (shape b) (tiles b) loc (placed_number roll) ts)
    as (_ & Hg & Ho); [done..|].
  split; [done|]. split; [done|]. split; [done|]. split; [done|]. done.
Qed.

(** [place] succeeds at every empty cell. *)
Lemma place_on_empty (b : Board pyval) loc roll :
  well_formed b → in_shape (shape b) loc → get_tile (tiles b) loc = Some 0 →
  ∃ b', place b (PInt <$> loc) roll = Some (b', true).
Proof.
  intros Hwf Hin Hzero.
  destruct (place_cases b (PInt <$> loc) roll Hwf)
    as [Hfail|(? & ts & _ & _ & _ & _ & _ & Hok)]; [|by eexists].
  unfold place in Hfail. rewrite length_fmap in Hfail.
  pose proof (in_shape_length _ loc Hin) as Hlen.
  rewrite bool_decide_eq_false_2 in Hfail by lia.
  rewrite (location_in_bounds_ints _ _ Hin), Hzero in Hfail.
  cbn [mbind option_bind] in Hfail.
  rewrite bool_decide_eq_true_2 in Hfail by done.
  destruct (set_tile _ _ _); [|done]. cbn in Hfail. by simplify_eq.
Qed.

(** X2.  The tiles of a well-formed board stay in the data model: when
    every tile is 0 or a power of two, so is every tile after any call of
    [move] and after any call of [place]. *)
Theorem legal_tiles_kept (b : Board pyval) :
  well_formed b → Forall legal_tile (leaves (tiles b)) →
  (∀ dimension direction b' moved,
     move b dimension direction = Some (b', moved) →
     Forall legal_tile (leaves (tiles b')))
  ∧ (∀ location roll b' placed,
       place b location roll = Some (b', placed) →
       Forall legal_tile (leaves (tiles b'))).
Proof.
  intros Hwf Hlegal. pose proof Hwf as [_ [_ Hb]].
  apply (legal_tile_values (shape b) _ Hb) in Hlegal. split.
  - intros dimension direction b' moved Hmove.
    destruct (move_cases b dimension direction Hwf)
      as [[_ Hsame]|(Hvalid & ts & bl & k & Hrun & Hmv & _ & [_ Hts])].
    { assert (b' = b) as -> by congruence.
      by apply (legal_tile_values (shape b) _ Hb). }
    rewrite Hmv in Hmove. simplify_eq. cbn [tiles].
    apply (legal_tile_values (shape b) _ Hts).
    apply (tile_values_Forall _ (shape b) _ Hts).
    apply (traced_closed (shape b) (tiles b) zero_or_power_of_two ts bl).
    + by left.
    + intros v [->|(k' & Hk' & ->)]; [by left|]. right.
      exists (k' + 1). split; [lia|]. rewrite Z.pow_add_r by lia. lia.
    + by apply (tile_values_Forall _ (shape b) (tiles b) Hb).
    + by eapply move_traced.
  - intros location roll b' [|] Hplace.
    + destruct (place_written b b' location roll Hwf Hplace)
        as (loc & _ & Hin & Hshape & [_ Hb'] & _ & Hnew & Hother).
      apply (legal_tile_values (shape b) _ Hb').
      apply (tile_values_Forall _ (shape b) _ Hb'). intros c Hc.
      destruct (decide (c = loc)) as [->|Hne].
      * unfold cell. rewrite Hnew. right. unfold placed_number.
        case_bool_decide; [by exists 1|by exists 2].
      * unfold cell. rewrite (Hother c Hc Hne).
        by apply (tile_values_Forall _ (shape b) (tiles b) Hb).
    + destruct (place_cases b location roll Hwf)
        as [Hfail|(? & ? & _ & _ & _ & _ & _ & Hok)].
      * assert (b' = b) as -> by congruence.
        by apply (legal_tile_values (shape b) _ Hb).
      * rewrite Hok in Hplace. by simplify_eq.
Qed.

Lemma legal_tiles_kept_witness :
  (∀ dimension direction b' moved,
     move (mkBoard [2;2] (rows [[2;2];[0;4]])) dimension direction
     = Some (b', moved) →
     Forall legal_tile (leaves (tiles b')))
  ∧ (∀ location roll b' placed,
       place (mkBoard [2;2] (rows [[2;2];[0;4]])) location roll
       = Some (b', placed) →
       Forall legal_tile (leaves (tiles b'))).
Proof.
  apply (legal_tiles_kept (mkBoard [2;2] (rows [[2;2];[0;4]]))).
  - solve_well_formed.
  - repeat (apply Forall_cons_2 || apply Forall_nil_2);
      eexists; (split; [reflexivity|]);
      first [by left|right; by exists 1|right; by exists 2].
Defined.

(** ** Occupied cells and merges *)

(** How many tiles of a nested list are not 0. *)
Definition occupied (t : pyval) : Z :=
  Z.of_nat (length (filter (λ v, v ≠ 0) (tile_values t))).

(** 1 for an occupied cell, 0 for an empty one. *)
Definition occupancy (c : list Z) (v : Z) : Z :=
  if bool_decide (v = 0) then 0 else 1.

Lemma Zsum_occupancy (l : list Z) :
  Zsum ((λ v, if bool_decide (v = 0) then 0 else 1) <$> l)
  = Z.of_nat (length (filter (λ v, v ≠ 0) l)).
Proof.
  induction l as [|v l IH]; [done|].
  rewrite fmap_cons, Zsum_cons, IH, filter_cons.
  case_bool_decide; case_decide; try done; simpl; lia.
Qed.

Lemma occupied_cells shape t :
  has_shape shape t → occupied t = cells_sum shape occupancy t.
Proof.
  intros Ht. unfold occupied, cells_sum.
  rewrite (tile_values_cells shape t Ht), <- Zsum_occupancy.
  by rewrite <- list_fmap_compose.
Qed.

Section merges.
Context {S : Type} `{LawfulStore S}.
Variables (shape : list Z) (dimension direction : Z).
Hypothesis Hvalid : @valid_move shape dimension direction.

(** Each merge empties one cell and blocks one coordinate; a relocation
    does neither. *)
Lemma slides_occupied s bl c s' bl' k :
  slides shape dimension direction s bl c s' bl' k →
  holds shape s → in_shape shape c →
  cells_sum shape occupancy s' + Z.of_nat (length bl')
  = cells_sum shape occupancy s + Z.of_nat (length bl)
  ∧ Z.of_nat (length bl') ≤ Z.of_nat (length bl) + k.
Proof.
  induction 1 as [| s bl c v s1 s2 Hd Hv Hbl Hg Hgt H1 H2
                  | s bl c v s1 s2 s3 bl3 k Hd Hv Hbl Hg Hgt H1 H2 Hsl IH];
    intros Hs Hc; [lia| |].
  - rewrite (cells_sum_set_pair _ _ _ Hvalid _ _ _ _ _ _ Hs Hc Hd H1 H2).
    unfold cell. rewrite Hg, Hgt. simpl. unfold occupancy.
    rewrite length_app. simpl.
    repeat case_bool_decide; lia.
  - destruct (set_pair_spec _ _ _ Hvalid _ _ _ _ _ Hs Hc Hd H1 H2)
      as (Hs2 & _).
    pose proof (toward_in_shape _ _ _ Hvalid c Hc Hd) as Htc.
    destruct (IH Hs2 Htc) as [IH1 IH2].
    rewrite (cells_sum_set_pair _ _ _ Hvalid _ _ _ _ _ _ Hs Hc Hd H1 H2)
      in IH1.
    unfold cell in IH1. rewrite Hg, Hgt in IH1. simpl in IH1.
    unfold occupancy in *. revert IH1.
    repeat case_bool_decide; lia.
Qed.

Lemma sweeps_occupied coords s bl s' bl' k :
  sweeps shape dimension direction coords s bl s' bl' k →
  holds shape s → Forall (in_shape shape) coords →
  cells_sum shape occupancy s' + Z.of_nat (length bl')
  = cells_sum shape occupancy s + Z.of_nat (length bl)
  ∧ Z.of_nat (length bl') ≤ Z.of_nat (length bl) + k.
Proof.
  induction 1 as [|x coords s bl s1 bl1 k1 s2 bl2 k2 Hsl Hsw IH];
    intros Hs Hcs; [lia|].
  apply Forall_cons in Hcs as [Hx Hcs].
  destruct (slides_occupied _ _ _ _ _ _ Hsl Hs Hx) as [H1 H2].
  destruct IH as [IH1 IH2]; [by eapply slides_holds|done|]. lia.
Qed.
End merges.

(** X3.  On a well-formed board and for a valid dimension/direction pair,
    [move] lowers the number of occupied cells by exactly the number of
    merges, which is the number of coordinates it has entered in
    [blocked_coordinates]; and [steps] counts at least one for every
    merge. *)
Theorem move_merges_counted (b : Board pyval) dimension direction :
  well_formed b → valid_move (shape b) dimension direction →
  ∃ ts bl k,
    move_run b dimension direction = Some (ts, bl, k)
    ∧ move b dimension direction
      = Some (mkBoard (shape b) ts, bool_decide (0 < k))
    ∧ occupied ts + Z.of_nat (length bl) = occupied (tiles b)
    ∧ Z.of_nat (length bl) ≤ k.
Proof.
  intros Hwf Hvalid.
  destruct (move_cases b dimension direction Hwf)
    as [[Hinvalid _]|(_ & ts & bl & k & Hrun & Hmv & Hsw & Hts)]; [done|].
  exists ts, bl, k. split; [done|]. split; [done|].
  destruct Hwf as [Hpos Hgrid].
  destruct (sweeps_occupied _ _ _ Hvalid _ _ _ _ _ _ Hsw) as [Hocc Hle];
    [done|by apply sequential_coordinates_in_shape|].
  rewrite (occupied_cells (shape b) ts), (occupied_cells (shape b) (tiles b));
    [|apply Hgrid|apply Hts].
  simpl in *. lia.
Qed.

Lemma move_merges_counted_witness :
  ∃ ts bl k,
    move_run (mkBoard [4] (ints [4;4;4;4])) 0 (-1) = Some (ts, bl, k)
    ∧ move (mkBoard [4] (ints [4;4;4;4])) 0 (-1)
      = Some (mkBoard [4] ts, bool_decide (0 < k))
    ∧ occupied ts + Z.of_nat (length bl) = occupied (ints [4;4;4;4])
    ∧ Z.of_nat (length bl) ≤ k.
Proof.
  apply (move_merges_counted (mkBoard [4] (ints [4;4;4;4])) 0 (-1)).
  - solve_well_formed.
  - split; [simpl; lia|by left].
Defined.

(** ** The score and the merges *)

Lemma spec_tile_score_double v :
  0 < v → spec_tile_score (v * 2) = 2 * spec_tile_score v + v * 2.
Proof.
  intros Hv. unfold spec_tile_score.
  rewrite !bool_decide_eq_false_2 by lia.
  rewrite (Z.mul_comm v 2), Z.log2_double by done. lia.
Qed.

Section scored.
Context {S : Type} `{LawfulStore S}.
Variables (shape : list Z) (dimension direction : Z).
Hypothesis Hvalid : @valid_move shape dimension direction.

Local Abbreviation tw := (toward dimension direction).

(** The score of the tiles with an exact logarithm. *)
Definition exact_score (s : S) : Z :=
  cells_sum shape (λ _ v, spec_tile_score v) s.

(** The sum of the tiles that stand on the blocked coordinates. *)
Definition merged (s : S) (bl : list (list Z)) : Z := Zsum (cell s <$> bl).

Definition no_negative (s : S) : Prop :=
  ∀ c, in_shape shape c → 0 ≤ cell s c.

Lemma merged_pair s bl c x s1 s2 :
  holds shape s → in_shape shape c →
  wall_distance shape dimension direction c ≠ 0 →
  Forall (in_shape shape) bl → c ∉ bl → tw c ∉ bl →
  set_tile s (tw c) x = Some s1 → set_tile s1 c 0 = Some s2 →
  merged s2 bl = merged s bl.
Proof.
  intros Hs Hc Hd Hbl Hcbl Htbl H1 H2.
  destruct (set_pair_spec _ _ _ Hvalid _ _ _ _ _ Hs Hc Hd H1 H2)
    as (_ & _ & _ & Ho).
  unfold merged. apply Zsum_ext. intros b Hb. unfold cell.
  rewrite Ho; [done| |by intros ->|by intros ->].
  rewrite Forall_forall in Hbl. by apply Hbl.
Qed.

Lemma no_negative_pair s c x s1 s2 :
  holds shape s → in_shape shape c →
  wall_distance shape dimension direction c ≠ 0 →
  set_tile s (tw c) x = Some s1 → set_tile s1 c 0 = Some s2 →
  no_negative s → 0 ≤ x → no_negative s2.
Proof.
  intros Hs Hc Hd H1 H2 Hnn Hx c' Hc'.
  destruct (set_pair_spec _ _ _ Hvalid _ _ _ _ _ Hs Hc Hd H1 H2)
    as (_ & Hgt & Hgc & Ho).
  destruct (decide (c' = c)) as [->|Hnc]; [unfold cell; by rewrite Hgc|].
  destruct (decide (c' = tw c)) as [->|Hnt]; [unfold cell; by rewrite Hgt|].
  unfold cell. rewrite Ho by done. by apply Hnn.
Qed.

(** A merge of two tiles [v] raises the exact score by the tile [2v] that
    it makes; a relocation leaves the score as it is. *)
Lemma slides_score s bl c s' bl' k :
  slides shape dimension direction s bl c s' bl' k →
  holds shape s → in_shape shape c → c ∉ bl →
  Forall (in_shape shape) bl → no_negative s →
  exact_score s' - merged s' bl' = exact_score s - merged s bl
  ∧ no_negative s'.
Proof.
  induction 1 as [| s bl c v s1 s2 Hd Hv Hbl Hg Hgt H1 H2
                  | s bl c v s1 s2 s3 bl3 k Hd Hv Hbl Hg Hgt H1 H2 Hsl IH];
    intros Hs Hc Hcbl Hbls Hnn; [done| |].
  - assert (0 < v) as Hpos.
    { specialize (Hnn c Hc). unfold cell in Hnn. rewrite Hg in Hnn.
      simpl in Hnn. lia. }
    destruct (set_pair_spec _ _ _ Hvalid _ _ _ _ _ Hs Hc Hd H1 H2)
      as (_ & Hgt2 & _).
    split; [|eapply (no_negative_pair s c (v * 2)); try done; lia].
    unfold exact_score.
    rewrite (cells_sum_set_pair _ _ _ Hvalid _ _ _ _ _ _ Hs Hc Hd H1 H2).
    unfold cell at 1 2. rewrite Hg, Hgt. simpl.
    rewrite spec_tile_score_double by done.
    unfold merged at 1. rewrite fmap_app, Zsum_app.
    fold (merged s2 bl). rewrite (merged_pair s bl c (v * 2) s1 s2) by done.
    rewrite fmap_cons, Zsum_cons. unfold cell at 1. rewrite Hgt2.
    change (spec_tile_score 0) with 0. simpl. unfold Zsum. simpl. lia.
  - assert (0 < v) as Hpos.
    { specialize (Hnn c Hc). unfold cell in Hnn. rewrite Hg in Hnn.
      simpl in Hnn. lia. }
    destruct (set_pair_spec _ _ _ Hvalid _ _ _ _ _ Hs Hc Hd H1 H2)
      as (Hs2 & _).
    pose proof (toward_in_shape _ _ _ Hvalid c Hc Hd) as Htc.
    destruct IH as [IHs IHn]; [done..| |].
    { eapply (no_negative_pair s c v); try done; lia. }
    split; [|done]. rewrite IHs.
    rewrite (merged_pair s bl c v s1 s2) by done.
    unfold exact_score.
    rewrite (cells_sum_set_pair _ _ _ Hvalid _ _ _ _ _ _ Hs Hc Hd H1 H2).
    unfold cell at 1 2. rewrite Hg, Hgt. simpl. lia.
Qed.

Lemma sweeps_score coords s bl s' bl' k :
  sweeps shape dimension direction coords s bl s' bl' k →
  holds shape s → Forall (in_shape shape) coords →
  StronglySorted (wallward shape dimension direction) coords →
  blocked_behind shape dimension direction bl coords →
  no_negative s →
  exact_score s' - merged s' bl' = exact_score s - merged s bl
  ∧ no_negative s'.
Proof.
  induction 1 as [|x coords s bl s1 bl1 k1 s2 bl2 k2 Hsl Hsw IH];
    intros Hs Hcs Hsorted Hbh Hnn; [done|].
  apply Forall_cons in Hcs as [Hx Hcs].
  apply StronglySorted_inv in Hsorted as [Hsorted Hall].
  destruct (slides_behind _ _ _ Hvalid _ _ _ _ _ _ _ Hsl Hs Hx Hall Hbh)
    as [Hxbl Hbh1].
  destruct (slides_score _ _ _ _ _ _ Hsl Hs Hx Hxbl) as [Hsc1 Hnn1];
    [|done|].
  { apply Forall_forall. intros b Hb. by destruct (Hbh b Hb). }
  destruct IH as [IHs IHn]; [by eapply slides_holds|done..|].
  split; [lia|done].
Qed.
End scored.

Lemma get_score_exact `{PyMath} shape t :
  grid shape t →
  Forall (λ v, 0 ≤ v) (tile_values t) →
  Forall log_exact_on (tile_values t) →
  get_score t 0 = Some (exact_score shape t).
Proof.
  intros [Hne Ht] Hnn Hexact.
  assert (∃ l, t = PList l) as [l Hl].
  { destruct shape as [|n shape]; [done|]. destruct Ht as (l & -> & _).
    by exists l. }
  rewrite (get_score_sum t l 0 Hl); [| |done].
  - rewrite Z.add_0_l. unfold exact_score, cells_sum.
    rewrite (tile_values_cells shape t Ht). by rewrite <- list_fmap_compose.
  - rewrite (leaves_ints shape t Ht). apply Forall_fmap.
    eapply Forall_impl; [exact Hnn|]. intros v Hv. by exists v.
Qed.

(** X4.  On a well-formed board without negative tiles, for a valid
    dimension/direction pair, and where the double-precision logarithm is
    exact on the tiles before and after, the score of the board after
    [move] is the score before plus the sum of the tiles that the merges
    have made, which are the tiles standing on [blocked_coordinates]; so a
    move never lowers the score. *)
Theorem move_score `{PyMath} (b : Board pyval) dimension direction :
  well_formed b → valid_move (shape b) dimension direction →
  Forall (λ v, 0 ≤ v) (tile_values (tiles b)) →
  (∀ v, v ∈ tile_values (tiles b) → log_exact_on v ∧ log_exact_on (v * 2)) →
  ∃ ts bl k before,
    move_run b dimension direction = Some (ts, bl, k)
    ∧ get_score (tiles b) 0 = Some before
    ∧ get_score ts 0 = Some (before + Zsum (cell ts <$> bl))
    ∧ 0 ≤ Zsum (cell ts <$> bl).
Proof.
  intros Hwf Hvalid Hnn Hexact.
  destruct (move_cases b dimension direction Hwf)
    as [[Hinvalid _]|(_ & ts & bl & k & Hrun & Hmv & Hsw & Hts)]; [done|].
  pose proof (move_traced b dimension direction ts bl k Hwf Hvalid Hrun)
    as Htr.
  destruct Hwf as [Hpos Hgrid]. pose proof Hgrid as [_ Hb].
  pose proof (sequential_coordinates_in_shape dimension direction _ Hpos)
    as Hcoords.
  destruct (sweeps_score _ _ _ Hvalid _ _ _ _ _ _ Hsw) as [Hscore Hnn'];
    [done|done| | | |].
  { apply sequential_coordinates_sorted; [done|apply Hvalid]. }
  { intros c Hc. by apply elem_of_nil in Hc. }
  { unfold no_negative.
    by apply (tile_values_Forall (λ v, 0 ≤ v) (shape b) (tiles b) Hb). }
  exists ts, bl, k, (exact_score (shape b) (tiles b)).
  split; [done|]. split; [|split].
  - apply get_score_exact; [done..|].
    apply Forall_forall. intros v Hv. by apply Hexact.
  - rewrite (get_score_exact (shape b) ts Hts).
    + f_equal. unfold merged in Hscore. simpl in Hscore.
      fold (merged ts bl) in *. unfold merged in *. lia.
    + by apply (tile_values_Forall (λ v, 0 ≤ v) (shape b) ts (proj2 Hts)).
    + apply (tile_values_Forall log_exact_on (shape b) ts (proj2 Hts)).
      intros c Hc.
      destruct (Htr c Hc) as [Hfree Hblocked].
      destruct (decide (c ∈ bl)) as [Hin|Hnin].
      * destruct (Hblocked Hin) as (u & (c0 & Hc0 & <-) & ->).
        apply Hexact. apply (elem_of_tile_values (shape b) _ _ Hb). eauto.
      * destruct (Hfree Hnin) as [->|(c0 & Hc0 & <-)]; [by intros ?|].
        apply Hexact. apply (elem_of_tile_values (shape b) _ _ Hb). eauto.
  - assert (∀ l : list Z, Forall (λ v, 0 ≤ v) l → 0 ≤ Zsum l) as Hsum.
    { induction 1; [done|]. rewrite Zsum_cons. lia. }
    apply Hsum, Forall_fmap, Forall_forall. intros c Hc.
    apply Hnn'.
    assert (blocked_behind (shape b) dimension direction bl []) as Hbh.
    { eapply (sweeps_behind _ _ _ Hvalid); [done..| |].
      - rewrite app_nil_r.
        apply sequential_coordinates_sorted; [done|apply Hvalid].
      - intros c' Hc'. by apply elem_of_nil in Hc'. }
    by destruct (Hbh c Hc).
Qed.

Lemma move_score_witness :
  ∃ ts bl k before,
    move_run (mkBoard [4] (ints [4;4;2;2])) 0 (-1) = Some (ts, bl, k)
    ∧ @get_score exact_math (ints [4;4;2;2]) 0 = Some before
    ∧ @get_score exact_math ts 0 = Some (before + Zsum (cell ts <$> bl))
    ∧ 0 ≤ Zsum (cell ts <$> bl).
Proof.
  apply (@move_score exact_math (mkBoard [4] (ints [4;4;2;2])) 0 (-1)).
  - solve_well_formed.
  - split; [simpl; lia|by left].
  - repeat constructor; lia.
  - intros v Hv. cbn in Hv.
    repeat (apply elem_of_cons in Hv as [->|Hv]); try (by apply elem_of_nil in Hv);
      split; intros _; reflexivity.
Defined.

(** ** Every cell is visited once *)

Lemma length_all_coords shape :
  Forall (λ n, 0 ≤ n) shape →
  Z.of_nat (length (all_coords shape)) = product shape.
Proof.
  induction 1 as [|n shape Hn _ IH]; [done|].
  cbn [all_coords]. rewrite product_cons, <- IH.
  assert (∀ l : list Z,
            length (l ≫= λ i, (λ c, i :: c) <$> all_coords shape)
            = (length l * length (all_coords shape))%nat) as ->.
  { induction l as [|i l IHl]; [done|].
    rewrite bind_cons, length_app, length_fmap, IHl. simpl. lia. }
  rewrite length_seqZ. lia.
Qed.

(** X5.  For every shape of positive lengths, every dimension and every
    direction, [__generate_sequential_coordinates] lists every coordinate
    of the board exactly once: the list is a permutation of the cells, so
    [move] calls [move_tile] once at each cell. *)
Theorem sequential_coordinates_permutation shape dimension direction :
  positive_shape shape →
  generate_sequential_coordinates shape dimension direction
  ≡ₚ all_coords shape.
Proof.
  intros Hpos. pose proof (product_pos shape Hpos) as HP.
  assert (NoDup (generate_sequential_coordinates shape dimension direction))
    as Hnd.
  { rewrite generate_sequential_coordinates_digits, tile_count_product.
    apply NoDup_fmap_2_strong; [|apply NoDup_seq].
    intros i j Hi Hj Heq.
    apply elem_of_seq in Hi, Hj.
    apply (f_equal (rank_of dimension direction 0 shape)) in Heq.
    rewrite !rank_of_digits in Heq by (done || lia). lia. }
  apply submseteq_length_Permutation.
  - apply NoDup_submseteq; [done|]. intros c Hc.
    apply elem_of_all_coords.
    pose proof (sequential_coordinates_in_shape dimension direction _ Hpos)
      as Hall.
    rewrite Forall_forall in Hall. by apply Hall.
  - apply Nat2Z.inj_le. rewrite length_all_coords.
    + rewrite generate_sequential_coordinates_digits, length_fmap, length_seq.
      rewrite tile_count_product. lia.
    + eapply Forall_impl; [done|]. simpl. lia.
Qed.

Lemma sequential_coordinates_permutation_witness :
  generate_sequential_coordinates [3;3] 1 1 ≡ₚ all_coords [3;3].
Proof.
  apply (sequential_coordinates_permutation [3;3] 1 1).
  repeat constructor; lia.
Defined.

(** ** What [place] writes *)

(** X6.  On a well-formed board, [place] returns true at every location
    that names an empty cell by ints within the axes; and a call that
    returns true has written 2 or 4, as the draw says, in the cell named,
    which was empty, and has changed no other cell, so that one more cell
    is occupied. *)
Theorem place_writes_one_cell (b : Board pyval) :
  well_formed b →
  (∀ loc roll,
     in_shape (shape b) loc → get_tile (tiles b) loc = Some 0 →
     ∃ b', place b (PInt <$> loc) roll = Some (b', true))
  ∧ (∀ location roll b',
       place b location roll = Some (b', true) →
       ∃ loc,
         location = PInt <$> loc ∧ in_shape (shape b) loc
         ∧ shape b' = shape b
         ∧ get_tile (tiles b) loc = Some 0
         ∧ get_tile (tiles b') loc
           = Some (if bool_decide (roll < 9) then 2 else 4)
         ∧ (∀ c, in_shape (shape b) c → c ≠ loc →
                 get_tile (tiles b') c = get_tile (tiles b) c)
         ∧ occupied (tiles b') = occupied (tiles b) + 1).
Proof.
  intros Hwf. split.
  - intros loc roll Hin Hzero. by apply place_on_empty.
  - intros location roll b' Hplace.
    destruct (place_written b b' location roll Hwf Hplace)
      as (loc & -> & Hin & Hshape & [_ Hb'] & Hzero & Hnew & Hother).
    exists loc. split; [done|]. split; [done|]. split; [done|].
    split; [done|]. split; [done|]. split; [done|].
    destruct Hwf as [_ Hgrid]. pose proof Hgrid as [_ Hb].
    rewrite (occupied_cells (shape b) _ Hb'), (occupied_cells (shape b) _ Hb).
    unfold cells_sum.
    rewrite (Zsum_update (λ c, occupancy c (cell (tiles b) c))
               (λ c, occupancy c (cell (tiles b') c)) _ loc).
    + unfold cell. rewrite Hzero, Hnew. unfold occupancy, placed_number.
      simpl. repeat case_bool_decide; lia.
    + apply NoDup_all_coords.
    + by apply elem_of_all_coords.
    + intros c Hc%elem_of_all_coords Hne. unfold cell.
      by rewrite Hother.
Qed.

Lemma place_writes_one_cell_witness :
  (∀ loc roll,
     in_shape [2;2] loc → get_tile (rows [[2;0];[0;4]]) loc = Some 0 →
     ∃ b', place (mkBoard [2;2] (rows [[2;0];[0;4]])) (PInt <$> loc) roll
           = Some (b', true))
  ∧ (∀ location roll b',
       place (mkBoard [2;2] (rows [[2;0];[0;4]])) location roll
       = Some (b', true) →
       ∃ loc,
         location = PInt <$> loc ∧ in_shape [2;2] loc
         ∧ shape b' = [2;2]
         ∧ get_tile (rows [[2;0];[0;4]]) loc = Some 0
         ∧ get_tile (tiles b') loc
           = Some (if bool_decide (roll < 9) then 2 else 4)
         ∧ (∀ c, in_shape [2;2] c → c ≠ loc →
                 get_tile (tiles b') c = get_tile (rows [[2;0];[0;4]]) c)
         ∧ occupied (tiles b') = occupied (rows [[2;0];[0;4]]) + 1).
Proof.
  apply (place_writes_one_cell (mkBoard [2;2] (rows [[2;0];[0;4]]))).
  solve_well_formed.
Defined.

(** ** Construction from a shape *)

Lemma shape_dims_ints dims :
  Forall (λ n, 2 ≤ n ≤ 10) dims → shape_dims (PInt <$> dims) = Some dims.
Proof.
  induction 1 as [|n dims Hn _ IH]; [done|].
  cbn [fmap list_fmap shape_dims].
  rewrite bool_decide_eq_false_2 by lia.
  fold (@fmap list _ _ _ PInt dims). by rewrite IH.
Qed.

Lemma shape_dims_Some given dims :
  shape_dims given = Some dims →
  given = PInt <$> dims ∧ Forall (λ n, 2 ≤ n ≤ 10) dims.
Proof.
  revert dims. induction given as [|v given IH]; intros dims Hdims.
  { cbn in Hdims. by simplify_eq. }
  destruct v as [n| | | |]; try done. cbn [shape_dims] in Hdims.
  case_bool_decide as Hn; [done|].
  destruct (shape_dims given) as [dims'|]; [|done].
  cbn in Hdims. simplify_eq. destruct (IH dims' eq_refl) as [-> Hall].
  split; [done|]. constructor; [lia|done].
Qed.

Lemma zero_tiles_cell dims c :
  in_shape dims c → get_tile (zero_tiles dims) c = Some 0.
Proof.
  intros Hc.
  assert (Forall (λ n, 0 ≤ n) dims) as Hnn.
  { clear -Hc. induction Hc as [|n i dims c Hi _ IH]; constructor; [lia|done]. }
  pose proof (zero_tiles_shape dims Hnn) as Hsh.
  destruct (nested_get_shape dims _ c Hsh Hc) as [z Hz].
  pose proof (zero_tiles_leaves dims) as Hleaves.
  rewrite (leaves_cells dims _ Hsh), Forall_fmap, Forall_forall in Hleaves.
  specialize (Hleaves c (proj2 (elem_of_all_coords dims c) Hc)).
  unfold compose, cell in Hleaves. cbn [get_tile nested_store] in *.
  rewrite Hz in *. cbn in *. by simplify_eq.
Qed.

(** Without a layout, construction goes by the shape alone. *)
Lemma Board_init_no_layout `{PyMath} given load_tiles :
  (∀ first rest, load_tiles ≠ PList (first :: rest)) →
  Board_init given load_tiles
  = if bool_decide (length given = 0%nat) then None
    else if bool_decide (4 < length given)%nat then None
    else dims ← shape_dims given; Some (mkBoard dims (zero_tiles dims)).
Proof.
  intros Hload. unfold Board_init.
  destruct load_tiles as [| | |[|first rest]|]; try done.
  by destruct (Hload first rest).
Qed.

Lemma Board_init_from_shape `{PyMath} given load_tiles b :
  (∀ first rest, load_tiles ≠ PList (first :: rest)) →
  Board_init given load_tiles = Some b →
  ∃ dims,
    given = PInt <$> dims ∧ (1 ≤ length dims ≤ 4)%nat
    ∧ Forall (λ n, 2 ≤ n ≤ 10) dims
    ∧ b = mkBoard dims (zero_tiles dims).
Proof.
  intros Hload. rewrite (Board_init_no_layout given load_tiles Hload).
  intros Hb. case_bool_decide as Hlen; [done|].
  case_bool_decide as Hlen4; [done|].
  destruct (shape_dims given) as [dims|] eqn:Hdims; [|done].
  cbn in Hb. simplify_eq.
  destruct (shape_dims_Some _ _ Hdims) as [-> Hall].
  rewrite length_fmap in *. exists dims. repeat split; try done; lia.
Qed.

(** X7.  Without a layout (when [load_tiles] is not a non-empty list)
    construction succeeds exactly when the shape has one to four components
    and each is an int from 2 to 10; the board then has that shape and every
    cell holds 0. *)
Theorem construction_from_shape `{PyMath} given load_tiles :
  (∀ first rest, load_tiles ≠ PList (first :: rest)) →
  (∀ b,
     Board_init given load_tiles = Some b ↔
     ∃ dims,
       given = PInt <$> dims ∧ (1 ≤ length dims ≤ 4)%nat
       ∧ Forall (λ n, 2 ≤ n ≤ 10) dims
       ∧ b = mkBoard dims (zero_tiles dims))
  ∧ (∀ b c,
       Board_init given load_tiles = Some b → in_shape (shape b) c →
       get_tile (tiles b) c = Some 0).
Proof.
  intros Hload. split.
  - intros b. split; [by apply Board_init_from_shape|].
    intros (dims & -> & Hlen & Hall & ->).
    rewrite (Board_init_no_layout _ load_tiles Hload), length_fmap.
    rewrite bool_decide_eq_false_2 by lia.
    rewrite bool_decide_eq_false_2 by lia.
    by rewrite (shape_dims_ints dims Hall).
  - intros b c Hb Hc.
    apply (Board_init_from_shape _ _ _ Hload) in Hb as (dims & _ & _ & _ & ->).
    by apply zero_tiles_cell.
Qed.

Lemma construction_from_shape_witness :
  (∀ b,
     @Board_init exact_math [PInt 4; PInt 4] (PList []) = Some b ↔
     ∃ dims,
       [PInt 4; PInt 4] = PInt <$> dims ∧ (1 ≤ length dims ≤ 4)%nat
       ∧ Forall (λ n, 2 ≤ n ≤ 10) dims
       ∧ b = mkBoard dims (zero_tiles dims))
  ∧ (∀ b c,
       @Board_init exact_math [PInt 4; PInt 4] (PList []) = Some b →
       in_shape (shape b) c → get_tile (tiles b) c = Some 0).
Proof.
  apply (@construction_from_shape exact_math [PInt 4; PInt 4] (PList [])).
  intros first rest. discriminate.
Defined.

(** ** Construction from a layout *)

Section validation_complete.
Context `{PyMath}.
Variable full : list Z.
Hypothesis Hpos : positive_shape full.

(** The lengths recorded in [dims_length] are those of the shape. *)
Definition agrees (dims : gmap Z Z) : Prop :=
  ∀ d n, dims !! d = Some n → 0 ≤ d ∧ full !! Z.to_nat d = Some n.

(** What [validate_tiles] returns on a sublist at [depth] of a regular
    layout of shape [full] whose leaves it accepts. *)
Definition validates (t : pyval) : Prop :=
  ∀ d m dims n rest,
    0 ≤ d → drop (Z.to_nat d) full = n :: rest → has_shape (n :: rest) t →
    Forall accepted_leaf (leaves t) → agrees dims →
    m = -1 ∨ m = Z.of_nat (length full) - 1 →
    ∃ dims',
      validate_tiles t d m dims
      = Some (d - 1, Z.of_nat (length full) - 1, dims')
      ∧ agrees dims'.

Lemma drop_lookup_head d n rest :
  drop d full = n :: rest → full !! d = Some n ∧ drop (Datatypes.S d) full = rest
  ∧ (0 < n) ∧ length full = (d + Datatypes.S (length rest))%nat.
Proof.
  intros Hdrop.
  assert (full !! d = Some n) as Hn.
  { rewrite <- (Nat.add_0_r d), <- lookup_drop, Hdrop. done. }
  split; [done|]. split.
  { replace (Datatypes.S d) with (d + 1)%nat by lia.
    rewrite <- drop_drop, Hdrop. done. }
  split.
  { unfold positive_shape in Hpos. rewrite Forall_forall in Hpos.
    apply Hpos. by eapply list_elem_of_lookup_2. }
  apply (f_equal length) in Hdrop. rewrite length_drop in Hdrop.
  simpl in Hdrop. apply lookup_lt_Some in Hn. lia.
Qed.

Lemma validate_each_complete subs :
  Forall validates subs →
  ∀ d m dims n rest,
    0 ≤ d → drop (Z.to_nat d) full = n :: rest →
    Forall (has_shape rest) subs →
    Forall accepted_leaf (subs ≫= leaves) → agrees dims →
    m = -1 ∨ m = Z.of_nat (length full) - 1 →
    ∃ m' dims',
      validate_each validate_tiles subs (d, m, dims) = Some (d, m', dims')
      ∧ agrees dims'
      ∧ (subs = [] → m' = m)
      ∧ (subs ≠ [] → m' = Z.of_nat (length full) - 1).
Proof.
  induction 1 as [|sub subs Hsub _ IH];
    intros d m dims n rest Hd Hdrop Hshape Hacc Hagree Hm.
  { exists m, dims. split; [done|]. split; [done|]. by split. }
  apply Forall_cons in Hshape as [Hsh Hshape].
  rewrite bind_cons in Hacc. apply Forall_app in Hacc as [Hacc1 Hacc].
  destruct (drop_lookup_head _ _ _ Hdrop) as (Hn & Hrest & Hnpos & Hlen).
  cbn [validate_each].
  destruct rest as [|n' rest'].
  - destruct Hsh as [z ->].
    apply Forall_singleton in Hacc1 as (z' & Hz' & Hleaf). simplify_eq.
    assert (validate_leaf z' (d, m, dims) = Some (d, d, dims)) as ->.
    { unfold validate_leaf.
      assert (m = -1 ∨ m = d) as Hmd by (simpl in Hlen; lia).
      assert ((if bool_decide (m = -1) then d else m) = d) as ->
        by (case_bool_decide; lia).
      rewrite bool_decide_eq_false_2 by lia.
      rewrite bool_decide_eq_false_2; [done|].
      intros [Hneg|[Hp Htest]]; destruct Hleaf as [->|[Hp' Hf]];
        try lia; congruence. }
    cbn [mbind option_bind].
    destruct (IH d d dims n [] Hd Hdrop Hshape Hacc Hagree)
      as (m' & dims' & Hrun & Hag & Hnil & Hcons).
    { right. simpl in Hlen. lia. }
    exists m', dims'. split; [done|]. split; [done|]. split; [done|].
    intros _. destruct (decide (subs = [])) as [Hs|Hs].
    + rewrite (Hnil Hs). simpl in Hlen. lia.
    + by apply Hcons.
  - destruct Hsh as (l' & -> & Hlen' & Hall').
    assert (0 < n') as Hn'pos.
    { rewrite <- Hrest in *. clear -Hpos Hrest.
      unfold positive_shape in Hpos. rewrite Forall_forall in Hpos.
      apply Hpos. apply (list_elem_of_lookup_2 _ (Datatypes.S (Z.to_nat d))).
      rewrite <- (Nat.add_0_r (Datatypes.S _)), <- lookup_drop, Hrest. done. }
    rewrite bool_decide_eq_true_2 by lia.
    destruct (Hsub (d + 1) m dims n' rest') as (dims1 & Hrun1 & Hag1);
      [lia| |by exists l'|done..|].
    { replace (Z.to_nat (d + 1)) with (Datatypes.S (Z.to_nat d)) by lia.
      done. }
    rewrite Hrun1. cbn [mbind option_bind].
    replace (d + 1 - 1) with d by lia.
    destruct (IH d (Z.of_nat (length full) - 1) dims1 n (n' :: rest')
                Hd Hdrop Hshape Hacc Hag1)
      as (m' & dims' & Hrun & Hag & Hnil & Hcons); [by right|].
    exists m', dims'. split; [done|]. split; [done|]. split; [done|].
    intros _. destruct (decide (subs = [])) as [Hs|Hs].
    + by rewrite (Hnil Hs).
    + by apply Hcons.
Qed.

Lemma validate_tiles_complete t : validates t.
Proof.
  induction t as [| | |subs IH|k] using pyval_nested_ind;
    intros d m dims n rest Hd Hdrop Hsh Hacc Hagree Hm;
    try (by destruct Hsh as (? & ? & _)).
  destruct Hsh as (l & Heq & Hlen & Hall). simplify_eq.
  destruct (drop_lookup_head _ _ _ Hdrop) as (Hn & Hrest & Hnpos & Hlenfull).
  cbn [validate_tiles].
  assert (∃ dims0,
            validate_length (Z.of_nat (length l)) d dims = Some dims0
            ∧ agrees dims0) as (dims0 & -> & Hag0).
  { unfold validate_length. destruct (dims !! d) as [seen|] eqn:Hseen.
    - destruct (Hagree d seen Hseen) as [_ Hfull].
      rewrite bool_decide_eq_false_2 by congruence. by exists dims.
    - eexists. split; [done|]. intros d' n'.
      destruct (decide (d' = d)) as [->|Hne].
      + rewrite lookup_insert_eq. intros ?. simplify_eq. done.
      + rewrite lookup_insert_ne by done. apply Hagree. }
  cbn [mbind option_bind].
  destruct (validate_each_complete l IH d m dims0 (Z.of_nat (length l)) rest)
    as (m' & dims' & Hrun & Hag & _ & Hcons); [done..|].
  rewrite Hrun. cbn [mbind option_bind]. exists dims'.
  rewrite Hcons; [done|]. intros ->. simpl in Hnpos. lia.
Qed.
End validation_complete.

(** A regular layout of accepted leaves whose printed form has at most 200
    characters is accepted, with the shape of its lengths, whatever shape
    is given beside it. *)
Lemma Board_init_layout `{PyMath} given dims t :
  dims ≠ [] → positive_shape dims → has_shape dims t →
  Forall accepted_leaf (leaves t) → (py_str_len t ≤ 200)%nat →
  Board_init given t = Some (mkBoard dims t).
Proof.
  intros Hne Hpos Hsh Hacc Hlen.
  destruct dims as [|n rest]; [done|].
  pose proof Hsh as (l & -> & Hl & Hall).
  assert (0 < n) as Hn by (by apply Forall_cons in Hpos as [? _]).
  destruct l as [|first l]; [simpl in Hl; lia|].
  unfold Board_init. rewrite bool_decide_eq_false_2 by lia.
  destruct (validate_tiles_complete (n :: rest) Hpos (PList (first :: l))
              0 (-1) ∅ n rest) as (dims' & -> & _); try done.
  { by left. }
  cbn [mbind option_bind].
  by rewrite (has_shape_recursive_len (n :: rest)).
Qed.

(** X8.  Loading the tiles of a board gives the board back: for every
    well-formed board whose tiles are leaves that the constructor accepts
    and whose printed form has at most 200 characters,
    [Board(load_tiles=board.get_tiles())] succeeds and has the same shape
    and the same tiles, whatever shape is given beside. *)
Theorem load_round_trip `{PyMath} (b : Board pyval) given :
  well_formed b → Forall accepted_leaf (leaves (tiles b)) →
  (py_str_len (tiles b) ≤ 200)%nat →
  Board_init given (tiles b) = Some b.
Proof.
  intros [Hpos [Hne Hsh]] Hacc Hlen.
  rewrite (Board_init_layout given (shape b) (tiles b)); try done.
  by destruct b.
Qed.

Lemma load_round_trip_witness :
  @Board_init exact_math [] (rows [[2;0];[4;8]])
  = Some (mkBoard [2;2] (rows [[2;0];[4;8]])).
Proof.
  apply (@load_round_trip exact_math (mkBoard [2;2] (rows [[2;0];[4;8]])) []).
  - solve_well_formed.
  - repeat (apply Forall_cons_2 || apply Forall_nil_2);
      eexists; (split; [reflexivity|]);
      first [by left|right; split; [lia|reflexivity]].
  - vm_compute. lia.
Defined.

(** ** Layouts too long to load *)

Lemma pretty_N_go_length x s :
  (String.length s ≤ String.length (pretty_N_go x s))%nat.
Proof.
  revert s. induction (N.lt_wf_0 x) as [x _ IH]. intros s.
  destruct (decide (x = 0)%N) as [->|Hx]; [by rewrite pretty_N_go_0|].
  rewrite pretty_N_go_step by lia.
  etrans; [|apply IH; apply N.div_lt; lia]. simpl. lia.
Qed.

Lemma pretty_N_length (x : N) : (1 ≤ String.length (pretty x))%nat.
Proof.
  unfold pretty, pretty_N. case_decide; [simpl; lia|].
  rewrite pretty_N_go_step by lia.
  etrans; [|apply pretty_N_go_length]. simpl. lia.
Qed.

(** The printed form of an int has at least one character. *)
Lemma pretty_Z_length (z : Z) : (1 ≤ String.length (pretty z))%nat.
Proof.
  unfold pretty, pretty_Z. destruct z as [|p|p].
  - simpl. lia.
  - apply pretty_N_length.
  - simpl. lia.
Qed.

(** A lower bound of the length of the printed form of a grid: one
    character for a tile, and for a list its brackets and separators. *)
Fixpoint printed_bound (shape : list Z) : Z :=
  match shape with
  | [] => 1
  | n :: rest => 2 * n + n * printed_bound rest
  end.

Lemma sum_list_bound (f : pyval → nat) (l : list pyval) (m : Z) :
  Forall (λ x, m ≤ Z.of_nat (f x)) l →
  Z.of_nat (length l) * m ≤ Z.of_nat (sum_list (f <$> l)).
Proof.
  induction 1 as [|x l Hx _ IH]; [simpl; lia|].
  rewrite fmap_cons.
  change (sum_list (f x :: (f <$> l))) with (f x + sum_list (f <$> l))%nat.
  cbn [length]. rewrite Nat2Z.inj_succ, Nat2Z.inj_add, Z.mul_succ_l. lia.
Qed.

Lemma py_str_len_bound shape :
  ∀ t, positive_shape shape → has_shape shape t →
       printed_bound shape ≤ Z.of_nat (py_str_len t).
Proof.
  induction shape as [|n shape IH]; intros t Hpos Ht.
  - destruct Ht as [z ->]. cbn [printed_bound py_str_len].
    pose proof (pretty_Z_length z). lia.
  - apply Forall_cons in Hpos as [Hn Hpos].
    destruct Ht as (l & -> & Hlen & Hall).
    cbn [printed_bound py_str_len].
    pose proof (sum_list_bound py_str_len l (printed_bound shape)) as Hsum.
    rewrite Hlen in Hsum.
    assert (Forall (λ x, printed_bound shape ≤ Z.of_nat (py_str_len x)) l)
      as Hsubs.
    { eapply Forall_impl; [exact Hall|]. intros sub Hsub. by apply IH. }
    specialize (Hsum Hsubs). lia.
Qed.

Lemma printed_bound_product shape :
  shape ≠ [] → positive_shape shape → 3 * product shape ≤ printed_bound shape.
Proof.
  induction shape as [|n shape IH]; intros Hne Hpos; [done|].
  apply Forall_cons in Hpos as [Hn Hpos].
  cbn [printed_bound]. rewrite product_cons.
  destruct shape as [|m shape].
  - change (product []) with 1. cbn [printed_bound]. lia.
  - specialize (IH ltac:(done) Hpos).
    pose proof (product_pos _ Hpos). nia.
Qed.

(** X9.  The constructor refuses every layout whose printed form is longer
    than 200 characters, and the printed form of a regular grid takes at
    least three characters for each cell: so the tiles of a well-formed
    board of 67 cells or more, such as any board built from the shapes
    (10,10) or (5,5,5), cannot be loaded, whatever they hold. *)
Theorem large_layout_refused `{PyMath} (b : Board pyval) given :
  well_formed b → 67 ≤ product (shape b) →
  (200 < py_str_len (tiles b))%nat ∧ Board_init given (tiles b) = None.
Proof.
  intros [Hpos [Hne Hsh]] Hcells.
  pose proof (py_str_len_bound (shape b) (tiles b) Hpos Hsh) as Hlen.
  pose proof (printed_bound_product (shape b) Hne Hpos) as Hbound.
  assert (200 < py_str_len (tiles b))%nat as Hlong by lia.
  split; [done|].
  destruct (shape b) as [|n rest]; [done|].
  destruct Hsh as (l & Hl & Hn & _). apply Forall_cons in Hpos as [Hnpos _].
  destruct l as [|first l]; [simpl in Hn; lia|].
  unfold Board_init. rewrite Hl in *.
  by rewrite bool_decide_eq_true_2.
Qed.

Lemma large_layout_refused_witness :
  (200 < py_str_len (zero_tiles [10%Z;10%Z]))%nat
  ∧ @Board_init exact_math [] (zero_tiles [10;10]) = None.
Proof.
  apply (@large_layout_refused exact_math
           (mkBoard [10;10] (zero_tiles [10;10])) []).
  - split; [repeat constructor; lia|]. split; [done|].
    apply zero_tiles_shape. repeat constructor; lia.
  - vm_compute. discriminate.
Defined.

(** ** The random attacker *)

Lemma get_tile_cons (l : list pyval) i sub c :
  0 ≤ i → l !! Z.to_nat i = Some sub →
  get_tile (PList l) (i :: c) = get_tile sub c.
Proof.
  intros Hi Hsub. cbn [get_tile nested_store nested_get]. unfold py_getitem.
  apply lookup_lt_Some in Hsub as Hlt.
  rewrite py_index_in_range by lia. cbn [mbind option_bind].
  by rewrite Hsub.
Qed.

Lemma in_shape_cons n rest i c :
  in_shape (n :: rest) (i :: c) ↔ 0 ≤ i < n ∧ in_shape rest c.
Proof.
  split; [|intros [? ?]; by constructor].
  intros Hc. by apply Forall2_cons_1 in Hc.
Qed.

(** The cells of a list of grids: the cell [c'] of the [i]-th one has the
    coordinate [(start + i) :: c']. *)
Definition cell_of_sublists (rest : list Z) (l : list pyval) (start : Z)
    (v : Z) (c : list Z) : Prop :=
  ∃ (i : nat) sub c',
    c = (start + Z.of_nat i) :: c' ∧ l !! i = Some sub
    ∧ in_shape rest c' ∧ get_tile sub c' = Some v.

Lemma cell_of_sublists_nil rest start v c :
  ¬ cell_of_sublists rest [] start v c.
Proof. by intros (i & sub & c' & _ & ? & _). Qed.

Lemma cell_of_sublists_cons rest sub l start v c :
  cell_of_sublists rest (sub :: l) start v c ↔
  (∃ c', c = start :: c' ∧ in_shape rest c' ∧ get_tile sub c' = Some v)
  ∨ cell_of_sublists rest l (start + 1) v c.
Proof.
  split.
  - intros ([|i] & sub' & c' & -> & Hsub & Hin & Hget); simpl in Hsub.
    + simplify_eq. left. exists c'. by rewrite Z.add_0_r.
    + right. exists i, sub', c'. split; [f_equal; lia|done].
  - intros [(c' & -> & Hin & Hget)|(i & sub' & c' & -> & Hsub & Hin & Hget)].
    + exists 0%nat, sub, c'. by rewrite Z.add_0_r.
    + exists (Datatypes.S i), sub', c'. split; [f_equal; lia|done].
Qed.

Lemma cell_of_sublists_grid n rest l v c :
  Z.of_nat (length l) = n →
  cell_of_sublists rest l 0 v c ↔
  in_shape (n :: rest) c ∧ get_tile (PList l) c = Some v.
Proof.
  intros Hlen. split.
  - intros (i & sub & c' & -> & Hsub & Hin & Hget).
    apply lookup_lt_Some in Hsub as Hlt. rewrite Z.add_0_l.
    split; [apply in_shape_cons; split; [lia|done]|].
    rewrite (get_tile_cons l _ sub); [done|lia|by rewrite Nat2Z.id].
  - intros [Hin Hget]. destruct c as [|i c']; [by inversion Hin|].
    apply in_shape_cons in Hin as [Hi Hin].
    destruct (lookup_lt_is_Some_2 l (Z.to_nat i)) as [sub Hsub]; [lia|].
    rewrite (get_tile_cons l i sub) in Hget by (done || lia).
    exists (Z.to_nat i), sub, c'. split; [f_equal; lia|done].
Qed.

(** What [find_zero_tiles] returns on a grid of shape [rest] that it
    reaches with the coordinate [prefix]: it appends the coordinates of the
    empty cells. *)
Definition finds_zeros (rest : list Z)
    (find : pyval → list Z → list (list Z) → option (list (list Z)))
  : Prop :=
  ∀ sub prefix acc,
    has_shape rest sub →
    ∃ found,
      find sub prefix acc = Some (acc ++ (app prefix <$> found))
      ∧ ∀ c, c ∈ found ↔ in_shape rest c ∧ get_tile sub c = Some 0.

Lemma find_zero_each_spec rest find prefix l :
  (rest ≠ [] → finds_zeros rest find) →
  Forall (has_shape rest) l →
  ∀ start acc,
    ∃ found,
      find_zero_each find prefix start l acc
      = Some (acc ++ (app prefix <$> found))
      ∧ ∀ c, c ∈ found ↔ cell_of_sublists rest l start 0 c.
Proof.
  intros Hfind. induction 1 as [|sub l Hsub _ IH]; intros start acc.
  { exists []. split; [by rewrite app_nil_r|]. intros c.
    split; [by intros ?%elem_of_nil|by intros ?%cell_of_sublists_nil]. }
  cbn [find_zero_each].
  assert (∃ found1,
            match sub with
            | PList _ => find sub (prefix ++ [start]) acc
            | _ =>
                is_zero ← equals_zero sub;
                Some (if is_zero : bool then acc ++ [prefix ++ [start]]
                      else acc)
            end = Some (acc ++ (app prefix <$> found1))
            ∧ ∀ c, c ∈ found1 ↔
                   ∃ c', c = start :: c' ∧ in_shape rest c'
                         ∧ get_tile sub c' = Some 0)
    as (found1 & -> & Hfound1).
  { destruct rest as [|n' rest'].
    - destruct Hsub as [z ->]. cbn [equals_zero mbind option_bind].
      case_bool_decide as Hz.
      + exists [[start]]. split; [done|]. intros c.
        rewrite list_elem_of_singleton. split.
        * intros ->. exists []. subst z.
          split; [done|]. split; [constructor|done].
        * intros (c' & -> & Hin & _). by apply Forall2_nil_inv_l in Hin as ->.
      + exists []. split; [by rewrite app_nil_r|]. intros c.
        split; [by intros ?%elem_of_nil|].
        intros (c' & -> & Hin & Hget). apply Forall2_nil_inv_l in Hin as ->.
        cbn in Hget. by simplify_eq.
    - pose proof Hsub as (l' & -> & _).
      destruct (Hfind ltac:(done) (PList l') (prefix ++ [start]) acc Hsub)
        as (found & Hrun & Hfound).
      exists ((λ c, start :: c) <$> found). split.
      + rewrite Hrun, <- list_fmap_compose. do 2 f_equal.
        apply list_fmap_ext. intros _ c _. unfold compose.
        by rewrite <- app_assoc.
      + intros c. rewrite list_elem_of_fmap. split.
        * intros (c' & -> & Hc'). exists c'. by apply Hfound in Hc'.
        * intros (c' & -> & Hc'). exists c'. split; [done|]. by apply Hfound. }
  cbn [mbind option_bind].
  destruct (IH (start + 1) (acc ++ (app prefix <$> found1)))
    as (found2 & -> & Hfound2).
  exists (found1 ++ found2). split; [by rewrite fmap_app, app_assoc|].
  intros c. rewrite elem_of_app, cell_of_sublists_cons, Hfound1, Hfound2.
  done.
Qed.
Lemma find_zero_tiles_spec shape :
  shape ≠ [] → finds_zeros shape find_zero_tiles.
Proof.
  induction shape as [|n rest IH]; intros Hne sub prefix acc Hsub; [done|].
  destruct Hsub as (l & -> & Hlen & Hall). cbn [find_zero_tiles].
  destruct (find_zero_each_spec rest find_zero_tiles prefix l IH Hall 0 acc)
    as (found & -> & Hfound).
  exists found. split; [done|]. intros c.
  by rewrite Hfound, (cell_of_sublists_grid n rest l 0 c Hlen).
Qed.

Lemma random_choice_elem {A} (draw : nat) (seq : list A) :
  seq ≠ [] → ∃ x, random_choice draw seq = Some x ∧ x ∈ seq.
Proof.
  intros Hne. unfold random_choice.
  destruct (lookup_lt_is_Some_2 seq (draw `mod` length seq)) as [x Hx].
  { apply Nat.mod_upper_bound. by destruct seq. }
  exists x. split; [done|]. by eapply list_elem_of_lookup_2.
Qed.

Lemma random_choice_any {A} (seq : list A) x :
  x ∈ seq → ∃ draw, random_choice draw seq = Some x.
Proof.
  intros (i & Hi)%list_elem_of_lookup_1. exists i. unfold random_choice.
  apply lookup_lt_Some in Hi as Hlt. by rewrite Nat.mod_small.
Qed.

(** The decision of an attacker that keeps going with the location
    [loc]. *)
Definition place_decision (loc : list Z) : gmap string pyval :=
  {[ "keepgoing" := PBool true; "location" := PList (PInt <$> loc) ]}.

(** What [Random_Attacker.think] returns on a well-formed board: it finds
    the empty cells and chooses among them. *)
Lemma Random_Attacker_think_spec (b : Board pyval) :
  well_formed b →
  ∃ found,
    (∀ c, c ∈ found ↔ in_shape (shape b) c ∧ get_tile (tiles b) c = Some 0)
    ∧ ∀ draw,
        Random_Attacker_think draw (tiles b)
        = if bool_decide (0 < length found)%nat then
            location ← random_choice draw found;
            Some (ThinkDict (place_decision location))
          else Some (ThinkDict {[ "keepgoing" := PBool false;
                                  "location" := PNone ]}).
Proof.
  intros [Hpos [Hne Hsh]].
  destruct (find_zero_tiles_spec (shape b) Hne (tiles b) [] [] Hsh)
    as (found & Hrun & Hfound).
  rewrite app_nil_l in Hrun.
  assert ((app [] <$> found) = found) as Hid.
  { rewrite <- (list_fmap_id found) at 2. by apply list_fmap_ext. }
  rewrite Hid in Hrun. exists found. split; [done|]. intros draw.
  unfold Random_Attacker_think. by rewrite Hrun.
Qed.

(** X10.  Shown the tiles of a well-formed board, [Random_Attacker.think]
    returns a decision that the wrapper accepts.  While a cell is empty it
    keeps going, and whatever it draws, its location is an empty cell of
    the board, so that [place] returns true there; each empty cell is the
    location for some draw.  When no cell is empty it gives up. *)
Theorem random_attacker_places (b : Board pyval) :
  well_formed b →
  ((∃ c, in_shape (shape b) c ∧ get_tile (tiles b) c = Some 0) →
   (∀ draw,
      ∃ loc,
        Random_Attacker_think draw (tiles b)
        = Some (ThinkDict (place_decision loc))
        ∧ get_place_instruction (ThinkDict (place_decision loc))
          = Some (place_decision loc)
        ∧ in_shape (shape b) loc ∧ get_tile (tiles b) loc = Some 0
        ∧ ∀ roll, ∃ b', place b (PInt <$> loc) roll = Some (b', true))
   ∧ (∀ loc, in_shape (shape b) loc → get_tile (tiles b) loc = Some 0 →
             ∃ draw, Random_Attacker_think draw (tiles b)
                     = Some (ThinkDict (place_decision loc))))
  ∧ ((∀ c, in_shape (shape b) c → get_tile (tiles b) c ≠ Some 0) →
     ∀ draw,
       Random_Attacker_think draw (tiles b)
       = Some (ThinkDict {[ "keepgoing" := PBool false;
                            "location" := PNone ]})
       ∧ get_place_instruction
           (ThinkDict {[ "keepgoing" := PBool false; "location" := PNone ]})
         = Some {[ "keepgoing" := PBool false; "location" := PNone ]}).
Proof.
  intros Hwf.
  destruct (Random_Attacker_think_spec b Hwf) as (found & Hfound & Hthink).
  split.
  - intros (c & Hc & Hzero).
    assert (found ≠ []) as Hsome.
    { intros Hnil. assert (c ∈ found) as Hin by (by apply Hfound).
      rewrite Hnil in Hin. by apply elem_of_nil in Hin. }
    assert (0 < length found)%nat as Hlen by (destruct found; [done|simpl; lia]).
    split.
    + intros draw.
      destruct (random_choice_elem draw found Hsome) as (loc & Hloc & Hin).
      exists loc. rewrite Hthink, bool_decide_eq_true_2, Hloc by done.
      split; [done|]. split; [by vm_compute|].
      pose proof (proj1 (Hfound loc) Hin) as [? ?].
      split; [done|]. split; [done|]. intros roll. by apply place_on_empty.
    + intros loc Hloc Hlz.
      destruct (random_choice_any found loc) as [draw Hdraw];
        [by apply Hfound|].
      exists draw. by rewrite Hthink, bool_decide_eq_true_2, Hdraw.
  - intros Hfull draw.
    assert (found = []) as ->.
    { destruct found as [|c found]; [done|].
      destruct (proj1 (Hfound c)) as [Hc Hzero]; [by left|].
      by destruct (Hfull c Hc). }
    rewrite Hthink. split; [done|by vm_compute].
Qed.

Lemma random_attacker_places_witness :
  (∃ c, in_shape [2;2] c ∧ get_tile (rows [[2;0];[0;4]]) c = Some 0)
  ∧ ∀ draw,
      ∃ loc,
        Random_Attacker_think draw (rows [[2;0];[0;4]])
        = Some (ThinkDict (place_decision loc))
        ∧ get_place_instruction (ThinkDict (place_decision loc))
          = Some (place_decision loc)
        ∧ in_shape [2;2] loc ∧ get_tile (rows [[2;0];[0;4]]) loc = Some 0
        ∧ ∀ roll, ∃ b', place (mkBoard [2;2] (rows [[2;0];[0;4]]))
                          (PInt <$> loc) roll = Some (b', true).
Proof.
  assert (∃ c, in_shape [2;2] c ∧ get_tile (rows [[2;0];[0;4]]) c = Some 0)
    as Hempty.
  { exists [0; 1]. split; [repeat constructor; lia|reflexivity]. }
  split; [exact Hempty|].
  apply (proj1 (random_attacker_places (mkBoard [2;2] (rows [[2;0];[0;4]]))
                  ltac:(solve_well_formed))).
  exact Hempty.
Defined.

(** ** The strategy attacker *)

(** Two coordinates are neighbours when they differ by one in one
    component and agree in every other. *)
Definition neighbours (a b : list Z) : Prop :=
  ∃ (i : nat) x y,
    a !! i = Some x ∧ b = <[i := y]> a ∧ Z.abs (x - y) = 1.

Lemma neighbours_cons x a y b :
  neighbours (x :: a) (y :: b) ↔
  (Z.abs (x - y) = 1 ∧ a = b) ∨ (x = y ∧ neighbours a b).
Proof.
  split.
  - intros ([|i] & x' & y' & Hx & Heq & Habs); simpl in *; simplify_eq.
    + by left.
    + right. split; [done|]. by exists i, x', y'.
  - intros [[Habs ->]|[-> (i & x' & y' & Hx & -> & Habs)]].
    + by exists 0%nat, x, y.
    + by exists (Datatypes.S i), x', y'.
Qed.

Lemma neighbours_nil b : ¬ neighbours [] b.
Proof. by intros (i & x & y & ? & _). Qed.

Lemma is_adjoining_from_total a :
  ∀ b k, length a = length b → is_Some (is_adjoining_from a b k).
Proof.
  induction a as [|x a IH]; intros [|y b] k Hlen; try done.
  cbn [is_adjoining_from]. simpl in Hlen.
  repeat case_bool_decide; try done; apply IH; lia.
Qed.

Lemma is_adjoining_from_many a :
  ∀ b k, 2 ≤ k → is_adjoining_from a b k ≠ Some true.
Proof.
  induction a as [|x a IH]; intros b k Hk.
  - cbn. rewrite bool_decide_eq_false_2 by lia. done.
  - destruct b as [|y b]; [done|]. cbn [is_adjoining_from].
    repeat case_bool_decide; [apply IH; lia|done|by apply IH].
Qed.

Lemma is_adjoining_from_one a :
  ∀ b, length a = length b →
       is_adjoining_from a b 1 = Some true ↔ a = b.
Proof.
  induction a as [|x a IH]; intros [|y b] Hlen; try done.
  cbn [is_adjoining_from]. simpl in Hlen.
  case_bool_decide as H1; [|case_bool_decide as H2].
  - split; [by intros ?%is_adjoining_from_many|].
    intros ?. simplify_eq. lia.
  - split; [done|]. intros ?. simplify_eq. lia.
  - assert (x = y) as -> by lia. rewrite IH by lia.
    split; [by intros ->|]. intros ?. by simplify_eq.
Qed.

Lemma is_adjoining_spec a :
  ∀ b, length a = length b →
       is_adjoining a b = Some true ↔ neighbours a b.
Proof.
  unfold is_adjoining.
  induction a as [|x a IH]; intros [|y b] Hlen; try done.
  { cbn. split; [done|]. by intros ?%neighbours_nil. }
  cbn [is_adjoining_from]. simpl in Hlen. rewrite neighbours_cons.
  case_bool_decide as H1; [|case_bool_decide as H2].
  - rewrite Z.add_0_l, is_adjoining_from_one by lia.
    split; [by left|]. intros [[_ ?]|[? _]]; [done|lia].
  - split; [done|]. intros [[? _]|[? _]]; lia.
  - rewrite IH by lia. split; [intros ?; right; split; [lia|done]|].
    intros [[? _]|[_ ?]]; [lia|done].
Qed.

(** The loop over the zero tiles adds those that are neighbours of the
    tile. *)
Lemma adjoining_zeros_spec greatest_tile zeros :
  Forall (λ z, length greatest_tile = length z) zeros →
  ∀ possible_zeros,
    ∃ found,
      adjoining_zeros greatest_tile zeros possible_zeros
      = Some (possible_zeros ++ found)
      ∧ ∀ z, z ∈ found ↔ z ∈ zeros ∧ neighbours greatest_tile z.
Proof.
  induction 1 as [|zero_tile zeros Hlen _ IH]; intros possible_zeros.
  { exists []. split; [by rewrite app_nil_r|]. intros z.
    split; [by intros ?%elem_of_nil|by intros [?%elem_of_nil _]]. }
  cbn [adjoining_zeros].
  destruct (is_adjoining_from_total greatest_tile zero_tile 0 Hlen)
    as [adjoining Hadj].
  fold (is_adjoining greatest_tile zero_tile) in Hadj.
  rewrite Hadj. cbn [mbind option_bind].
  pose proof (is_adjoining_spec greatest_tile zero_tile Hlen) as Hspec.
  rewrite Hadj in Hspec.
  destruct adjoining.
  - destruct (IH (possible_zeros ++ [zero_tile])) as (found & -> & Hfound).
    exists (zero_tile :: found). split; [by rewrite <- app_assoc|].
    intros z. rewrite !elem_of_cons, Hfound. split.
    + intros [->|[? ?]]; [|by auto]. split; [by left|by apply Hspec].
    + intros [[->|?] ?]; by auto.
  - destruct (IH possible_zeros) as (found & -> & Hfound).
    exists found. split; [done|]. intros z. rewrite elem_of_cons, Hfound.
    split; [intros [? ?]; by auto|].
    intros [[->|?] Hn]; [|done]. apply Hspec in Hn. done.
Qed.

Lemma adjoining_tiles_spec greatest_tiles zeros :
  Forall (λ t, Forall (λ z, length t = length z) zeros) greatest_tiles →
  ∀ possible_zeros,
    ∃ found,
      adjoining_tiles greatest_tiles zeros possible_zeros
      = Some (possible_zeros ++ found)
      ∧ ∀ z, z ∈ found ↔
             z ∈ zeros ∧ ∃ t, t ∈ greatest_tiles ∧ neighbours t z.
Proof.
  induction 1 as [|t greatest_tiles Hlen _ IH]; intros possible_zeros.
  { exists []. split; [by rewrite app_nil_r|]. intros z.
    split; [by intros ?%elem_of_nil|]. by intros [_ (t & ?%elem_of_nil & _)]. }
  cbn [adjoining_tiles].
  destruct (adjoining_zeros_spec t zeros Hlen possible_zeros)
    as (found1 & -> & Hfound1).
  cbn [mbind option_bind].
  destruct (IH (possible_zeros ++ found1)) as (found2 & -> & Hfound2).
  exists (found1 ++ found2). split; [by rewrite app_assoc|].
  intros z. rewrite elem_of_app, Hfound1, Hfound2. split.
  - intros [[? ?]|[? (t' & ? & ?)]]; (split; [done|]).
    + exists t. split; [by left|done].
    + exists t'. split; [by right|done].
  - intros [? (t' & [->|?]%elem_of_cons & ?)]; [by left|right].
    split; [done|]. by exists t'.
Qed.

Lemma fromkeys_elem {A} `{EqDecision A} (seq : list A) x :
  x ∈ fromkeys seq ↔ x ∈ seq.
Proof.
  unfold fromkeys.
  assert (∀ keys,
            x ∈ foldl (λ keys x, if decide (x ∈ keys) then keys
                                 else keys ++ [x]) keys seq
            ↔ x ∈ keys ∨ x ∈ seq) as Hgen.
  { induction seq as [|y seq IH]; intros keys; cbn [foldl].
    - split; [by left|]. by intros [?|?%elem_of_nil].
    - rewrite IH, elem_of_cons. case_decide as Hy.
      + split; [intros [?|?]; by auto|].
        intros [?|[->|?]]; by auto.
      + rewrite elem_of_app, list_elem_of_singleton. tauto. }
  rewrite Hgen. split; [by intros [?%elem_of_nil|?]|by right].
Qed.

(** The coordinates entered in [tiles_location] under a tile. *)
Definition entries (tiles_location : gmap Z (list (list Z))) (v : Z)
  : list (list Z) :=
  default [] (tiles_location !! v).

(** No key of [tiles_location] holds an empty list. *)
Definition no_empty_entry (tiles_location : gmap Z (list (list Z))) : Prop :=
  ∀ v, tiles_location !! v ≠ Some [].

(** What [recursive_tile] returns on a grid of shape [rest] that it reaches
    with the coordinate [prefix]: every cell is entered under its tile. *)
Definition records (rest : list Z)
    (recur : pyval → list Z → gmap Z (list (list Z))
             → option (gmap Z (list (list Z)))) : Prop :=
  ∀ sub prefix m,
    has_shape rest sub → no_empty_entry m →
    ∃ m',
      recur sub prefix m = Some m' ∧ no_empty_entry m'
      ∧ ∀ v c, c ∈ entries m' v ↔
               c ∈ entries m v
               ∨ ∃ c', c = prefix ++ c' ∧ in_shape rest c'
                       ∧ get_tile sub c' = Some v.

Lemma entries_insert m key c v :
  entries (<[key := default [] (m !! key) ++ [c]]> m) v
  = if decide (v = key) then entries m key ++ [c] else entries m v.
Proof.
  unfold entries. case_decide as Hv.
  - subst. by rewrite lookup_insert_eq.
  - by rewrite lookup_insert_ne.
Qed.

Lemma recursive_tile_each_spec rest recur prefix l :
  (rest ≠ [] → records rest recur) →
  Forall (has_shape rest) l →
  ∀ start m,
    no_empty_entry m →
    ∃ m',
      recursive_tile_each recur prefix start l m = Some m'
      ∧ no_empty_entry m'
      ∧ ∀ v c, c ∈ entries m' v ↔
               c ∈ entries m v
               ∨ ∃ c', c = prefix ++ c' ∧ cell_of_sublists rest l start v c'.
Proof.
  intros Hrecur. induction 1 as [|sub l Hsub _ IH]; intros start m Hm.
  { exists m. split; [done|]. split; [done|]. intros v c.
    split; [by left|]. by intros [?|(c' & _ & ?%cell_of_sublists_nil)]. }
  cbn [recursive_tile_each].
  assert (∃ m1,
            match sub with
            | PList _ => recur sub (prefix ++ [start]) m
            | _ =>
                key ← tile_key sub;
                Some (<[key := default [] (m !! key) ++ [prefix ++ [start]]]> m)
            end = Some m1
            ∧ no_empty_entry m1
            ∧ ∀ v c, c ∈ entries m1 v ↔
                     c ∈ entries m v
                     ∨ ∃ c', c = prefix ++ start :: c' ∧ in_shape rest c'
                             ∧ get_tile sub c' = Some v)
    as (m1 & -> & Hm1 & Hentries1).
  { destruct rest as [|n' rest'].
    - destruct Hsub as [z ->]. cbn [tile_key mbind option_bind].
      eexists. split; [done|]. split.
      + intros v. destruct (decide (v = z)) as [->|Hne].
        * rewrite lookup_insert_eq. by destruct (default [] (m !! z)).
        * by rewrite lookup_insert_ne.
      + intros v c. rewrite entries_insert. case_decide as Hv.
        * subst v. rewrite elem_of_app, list_elem_of_singleton. split.
          -- intros [?| ->]; [by left|right]. exists [].
             split; [done|]. split; [constructor|done].
          -- intros [?|(c' & -> & Hin & _)]; [by left|right].
             by apply Forall2_nil_inv_l in Hin as ->.
        * split; [by left|]. intros [?|(c' & -> & Hin & Hget)]; [done|].
          apply Forall2_nil_inv_l in Hin as ->. cbn in Hget. by simplify_eq.
    - pose proof Hsub as (l' & -> & _).
      destruct (Hrecur ltac:(done) (PList l') (prefix ++ [start]) m Hsub Hm)
        as (m1 & Hrun & Hm1 & Hentries).
      exists m1. split; [done|]. split; [done|]. intros v c.
      rewrite Hentries. split.
      + intros [?|(c' & -> & ? & ?)]; [by left|right].
        exists c'. by rewrite <- app_assoc.
      + intros [?|(c' & -> & ? & ?)]; [by left|right].
        exists c'. by rewrite <- app_assoc. }
  cbn [mbind option_bind].
  destruct (IH (start + 1) m1 Hm1) as (m2 & -> & Hm2 & Hentries2).
  exists m2. split; [done|]. split; [done|]. intros v c.
  rewrite Hentries2, Hentries1. split.
  - intros [[?|(c' & -> & ? & ?)]|(c' & -> & ?)]; [by left| |]; right.
    + exists (start :: c'). split; [done|].
      apply cell_of_sublists_cons. left. by exists c'.
    + exists c'. split; [done|]. apply cell_of_sublists_cons. by right.
  - intros [?|(c' & -> & Hcell)]; [by left; left|].
    apply cell_of_sublists_cons in Hcell as [(c'' & -> & ? & ?)|?].
    + left; right. by exists c''.
    + right. by exists c'.
Qed.

Lemma recursive_tile_spec shape : shape ≠ [] → records shape recursive_tile.
Proof.
  induction shape as [|n rest IH]; intros Hne sub prefix m Hsub Hm; [done|].
  destruct Hsub as (l & -> & Hlen & Hall). cbn [recursive_tile].
  destruct (recursive_tile_each_spec rest recursive_tile prefix l IH Hall 0 m Hm)
    as (m' & -> & Hm' & Hentries).
  exists m'. split; [done|]. split; [done|]. intros v c.
  rewrite Hentries. split.
  - intros [?|(c' & -> & Hcell)]; [by left|right]. exists c'.
    split; [done|]. by apply (cell_of_sublists_grid n rest l v c' Hlen).
  - intros [?|(c' & -> & ? & ?)]; [by left|right]. exists c'.
    split; [done|]. by apply (cell_of_sublists_grid n rest l v c' Hlen).
Qed.

(** The keys in descending order. *)
Lemma sorted_keys_reverse_spec {V} (d : gmap Z V) :
  (∀ g, g ∈ sorted_keys_reverse d ↔ is_Some (d !! g))
  ∧ StronglySorted descending (sorted_keys_reverse d).
Proof.
  unfold sorted_keys_reverse. split.
  - intros g. rewrite merge_sort_Permutation, list_elem_of_fmap. split.
    + intros ([g' v] & -> & Hin%elem_of_map_to_list). by exists v.
    + intros [v Hv]. exists (g, v). split; [done|].
      by apply elem_of_map_to_list.
  - apply StronglySorted_merge_sort.
    + intros x y z. unfold descending. lia.
    + intros x y. unfold descending. lia.
Qed.

(** No tile of the numbers [numbers] has an empty neighbour. *)
Definition none_adjoining (m : gmap Z (list (list Z))) (numbers : list Z)
  : Prop :=
  ∀ g t z, g ∈ numbers → t ∈ entries m g → z ∈ entries m 0 →
           ¬ neighbours t z.

(** The loop over the sorted numbers stops at the first number one of
    whose tiles has an empty neighbour, with all the empty neighbours of
    the tiles of that number. *)
Lemma greatest_adjoining_spec (m : gmap Z (list (list Z))) (len : nat) :
  is_Some (m !! 0) →
  (∀ v c, c ∈ entries m v → length c = len) →
  ∀ numbers,
    (∀ g, g ∈ numbers → is_Some (m !! g)) →
    ∃ possible_zeros,
      greatest_adjoining numbers m [] = Some possible_zeros
      ∧ ((possible_zeros = [] ∧ none_adjoining m numbers)
         ∨ ∃ pre g post,
             numbers = pre ++ g :: post ∧ possible_zeros ≠ []
             ∧ none_adjoining m pre
             ∧ ∀ z, z ∈ possible_zeros ↔
                    z ∈ entries m 0 ∧ ∃ t, t ∈ entries m g ∧ neighbours t z).
Proof.
  intros [zeros Hzeros] Hlen.
  induction numbers as [|g numbers IH]; intros Hkeys.
  { exists []. split; [done|]. left. split; [done|].
    by intros g t z ?%elem_of_nil. }
  destruct (Hkeys g) as [greatest_tiles Hg]; [by left|].
  cbn [greatest_adjoining]. rewrite Hg, Hzeros. cbn [mbind option_bind].
  destruct (adjoining_tiles_spec greatest_tiles zeros) with (possible_zeros := @nil (list Z))
    as (found & Hrun & Hfound).
  { apply Forall_forall. intros t Ht. apply Forall_forall. intros z Hz.
    rewrite (Hlen g t), (Hlen 0 z); [done|..]; unfold entries.
    - by rewrite Hzeros.
    - by rewrite Hg. }
  rewrite Hrun, app_nil_l. cbn [mbind option_bind].
  assert (entries m g = greatest_tiles) as Heg by (unfold entries; by rewrite Hg).
  assert (entries m 0 = zeros) as He0 by (unfold entries; by rewrite Hzeros).
  case_bool_decide as Hsome.
  - exists found. split; [done|]. right. exists [], g, numbers.
    split; [done|]. split; [by destruct found; [simpl in Hsome; lia|]|].
    split; [by intros g' t z ?%elem_of_nil|].
    intros z. by rewrite Hfound, Heg, He0.
  - assert (found = []) as -> by (destruct found; [done|simpl in Hsome; lia]).
    destruct IH as (pz & -> & Hcases).
    { intros g' Hg'. apply Hkeys. by right. }
    assert (none_adjoining m [g]) as Hnone.
    { intros g' t z ->%list_elem_of_singleton Ht Hz Hn.
      assert (z ∈ @nil (list Z)) as Hin; [|by apply elem_of_nil in Hin].
      apply Hfound. rewrite <- He0, <- Heg. split; [done|]. by exists t. }
    exists pz. split; [done|].
    destruct Hcases as [[-> Hrest]|(pre & g' & post & -> & Hpz & Hpre & Hmem)].
    + left. split; [done|]. intros g' t z [->|Hg']%elem_of_cons.
      * apply Hnone. by left.
      * by apply Hrest.
    + right. exists (g :: pre), g', post. split; [done|]. split; [done|].
      split; [|done]. intros g'' t z [->|Hg'']%elem_of_cons.
      * apply Hnone. by left.
      * by apply Hpre.
Qed.

(** An empty cell [z] of the board beside the cell [c]. *)
Definition beside (b : Board pyval) (c z : list Z) : Prop :=
  in_shape (shape b) c ∧ in_shape (shape b) z
  ∧ get_tile (tiles b) z = Some 0 ∧ neighbours c z.

(** On a board with an axis of two cells or more, every cell has a
    neighbour. *)
Lemma cell_has_neighbour shape z :
  in_shape shape z → (∃ n, n ∈ shape ∧ 2 ≤ n) →
  ∃ c, in_shape shape c ∧ neighbours c z.
Proof.
  intros Hz (n & (i & Hn)%list_elem_of_lookup_1 & Hn2).
  destruct (Forall2_lookup_l _ _ _ _ _ Hz Hn) as (x & Hx & Hxn).
  assert (∃ y, Z.abs (y - x) = 1 ∧ 0 ≤ y < n) as (y & Habs & Hyn).
  { destruct (decide (x = 0)); [exists 1|exists (x - 1)]; lia. }
  exists (<[i := y]> z). split.
  - apply Forall2_same_length_lookup. split.
    + rewrite length_insert. by apply (Forall2_length _ _ _ Hz).
    + intros j m v Hm Hv. destruct (decide (j = i)) as [->|Hne].
      * rewrite list_lookup_insert_eq in Hv by (by eapply lookup_lt_Some).
        by simplify_eq.
      * rewrite list_lookup_insert_ne in Hv by done.
        by apply (Forall2_lookup_lr _ _ _ _ _ _ Hz Hm Hv).
  - exists i, y, x. split; [|split].
    + rewrite list_lookup_insert_eq; [done|by eapply lookup_lt_Some].
    + by rewrite list_insert_insert_eq, list_insert_id.
    + done.
Qed.

(** X11.  Shown the tiles of a well-formed board, [Strategy_Attacker.think]
    returns a decision that the wrapper accepts.  While some cell has an
    empty neighbour it keeps going, and whatever it draws, its location is
    an empty cell beside a cell whose tile is the greatest of all tiles
    that have an empty neighbour, and [place] returns true there.  When no
    cell has an empty neighbour it gives up.  On a board with an axis of
    two cells or more every empty cell has a neighbour, so there the
    attacker gives up only when the board is full. *)
Theorem strategy_attacker_places (b : Board pyval) :
  well_formed b →
  ((∃ c z, beside b c z) →
   ∀ draw,
     ∃ loc c,
       Strategy_Attacker_think draw (tiles b)
       = Some (ThinkDict (place_decision loc))
       ∧ get_place_instruction (ThinkDict (place_decision loc))
         = Some (place_decision loc)
       ∧ beside b c loc
       ∧ (∀ c' z', beside b c' z' → cell (tiles b) c' ≤ cell (tiles b) c)
       ∧ ∀ roll, ∃ b', place b (PInt <$> loc) roll = Some (b', true))
  ∧ ((∀ c z, ¬ beside b c z) →
     ∀ draw,
       Strategy_Attacker_think draw (tiles b)
       = Some (ThinkDict {[ "keepgoing" := PBool false;
                            "location" := PNone ]})
       ∧ get_place_instruction
           (ThinkDict {[ "keepgoing" := PBool false; "location" := PNone ]})
         = Some {[ "keepgoing" := PBool false; "location" := PNone ]})
  ∧ ((∃ n, n ∈ shape b ∧ 2 ≤ n) →
     (∃ z, in_shape (shape b) z ∧ get_tile (tiles b) z = Some 0) →
     ∃ c z, beside b c z).
Proof.
  intros Hwf. pose proof Hwf as [Hpos [Hne Hsh]].
  rewrite (and_assoc _ _ (_ → _ → ∃ c z, beside b c z)).
  split; cycle 1.
  { intros Haxis (z & Hz & Hzero).
    destruct (cell_has_neighbour (shape b) z Hz Haxis) as (c & Hc & Hn).
    by exists c, z. }
  destruct (recursive_tile_spec (shape b) Hne (tiles b) [] ∅ Hsh)
    as (m & Hrun & Hm & Hentries); [by intros v; rewrite lookup_empty|].
  assert (∀ v c, c ∈ entries m v ↔
                 in_shape (shape b) c ∧ get_tile (tiles b) c = Some v) as Hent.
  { intros v c. rewrite Hentries. unfold entries at 1. rewrite lookup_empty.
    split.
    - intros [?%elem_of_nil|(c' & -> & ? & ?)]; done.
    - intros [? ?]. right. by exists c. }
  clear Hentries.
  assert (∀ v, is_Some (m !! v) ↔ ∃ c, c ∈ entries m v) as Hkey.
  { intros v. unfold entries. split.
    - intros [cs Hcs]. rewrite Hcs. destruct cs as [|c cs].
      + by destruct (Hm v).
      + exists c. by left.
    - intros [c Hc]. destruct (m !! v); [done|]. by apply elem_of_nil in Hc. }
  assert (∀ c z, beside b c z ↔
                 ∃ g, c ∈ entries m g ∧ z ∈ entries m 0 ∧ neighbours c z)
    as Hbeside.
  { intros c z. split.
    - intros (Hc & Hz & Hzero & Hn).
      destruct (grid_get _ _ c (conj Hne Hsh) Hc) as [g Hg].
      exists g. split; [by apply Hent|]. split; [by apply Hent|done].
    - intros (g & [Hc _]%Hent & [Hz Hzero]%Hent & Hn). done. }
  assert (∀ draw, m !! 0 = None →
            Strategy_Attacker_think draw (tiles b)
            = Some (ThinkDict {[ "keepgoing" := PBool false;
                                 "location" := PNone ]})) as Hnozero.
  { intros draw Hnone. unfold Strategy_Attacker_think.
    rewrite Hrun. cbn [mbind option_bind]. by rewrite Hnone. }
  destruct (m !! 0) as [zeros|] eqn:Hzeros; cycle 1.
  { split.
    - intros (c & z & Hb). apply Hbeside in Hb as (g & _ & Hz & _).
      unfold entries in Hz. rewrite Hzeros in Hz. by apply elem_of_nil in Hz.
    - intros _ draw. split; [by apply Hnozero|by vm_compute]. }
  destruct (sorted_keys_reverse_spec m) as [Hsorted_elem Hsorted].
  destruct (greatest_adjoining_spec m (length (shape b)))
    with (numbers := sorted_keys_reverse m)
    as (pz & Hgreatest & Hcases).
  { by rewrite Hzeros. }
  { intros v c [Hc _]%Hent. by apply in_shape_length. }
  { intros g Hg. by apply Hsorted_elem. }
  assert (∀ draw,
            Strategy_Attacker_think draw (tiles b)
            = if bool_decide (0 < length (fromkeys pz))%nat then
                location ← random_choice draw (fromkeys pz);
                Some (ThinkDict (place_decision location))
              else Some (ThinkDict {[ "keepgoing" := PBool false;
                                      "location" := PNone ]})) as Hthink.
  { intros draw. unfold Strategy_Attacker_think.
    rewrite Hrun. cbn [mbind option_bind]. rewrite Hzeros, Hgreatest.
    done. }
  destruct Hcases as [[-> Hnone]|(pre & g & post & Hsplit & Hpz & Hpre & Hmem)].
  - assert (∀ c z, ¬ beside b c z) as Hno.
    { intros c z (g & Hc & Hz & Hn)%Hbeside.
      apply (Hnone g c z); [|done..].
      apply Hsorted_elem, Hkey. by exists c. }
    split; [intros (c & z & Hb); by destruct (Hno c z)|].
    intros _ draw. rewrite Hthink. split; [done|by vm_compute].
  - assert (fromkeys pz ≠ []) as Hfk.
    { destruct pz as [|z pz]; [done|]. intros Hnil.
      assert (z ∈ fromkeys (z :: pz)) as Hin by (apply fromkeys_elem; by left).
      rewrite Hnil in Hin. by apply elem_of_nil in Hin. }
    split; cycle 1.
    { intros Hno. destruct pz as [|z pz]; [done|].
      destruct (proj1 (Hmem z)) as [Hz (t & Ht & Hn)]; [by left|].
      destruct (Hno t z). apply Hbeside. by exists g. }
    intros _ draw. rewrite Hthink.
    rewrite bool_decide_eq_true_2
      by (destruct (fromkeys pz); [done|simpl; lia]).
    destruct (random_choice_elem draw (fromkeys pz) Hfk) as (loc & -> & Hloc).
    apply fromkeys_elem, Hmem in Hloc as [Hz (t & Ht & Hn)].
    exists loc, t. cbn [mbind option_bind].
    split; [done|]. split; [by vm_compute|].
    split; [apply Hbeside; by exists g|].
    pose proof (proj1 (Hent _ _) Ht) as [Htin Htg].
    pose proof (proj1 (Hent _ _) Hz) as [Hzin Hzero].
    split; [|intros roll; by apply place_on_empty].
    intros c' z' (g' & Hc' & Hz' & Hn')%Hbeside.
    pose proof (proj1 (Hent _ _) Hc') as [_ Hcg'].
    unfold cell. rewrite Htg, Hcg'. simpl.
    assert (g' ∈ sorted_keys_reverse m) as Hg'
      by (apply Hsorted_elem, Hkey; by exists c').
    rewrite Hsplit in Hg', Hsorted.
    apply elem_of_app in Hg' as [Hg'|Hg'].
    { by destruct (Hpre g' c' z'). }
    apply StronglySorted_app_1_r in Hsorted.
    apply elem_of_cons in Hg' as [->|Hg']; [done|].
    apply StronglySorted_inv in Hsorted as [_ Hall].
    rewrite Forall_forall in Hall. by apply Hall.
Qed.

Lemma strategy_attacker_places_witness :
  (∃ c z, beside (mkBoard [2;2] (rows [[2;8];[0;4]])) c z)
  ∧ ∀ draw,
      ∃ loc c,
        Strategy_Attacker_think draw (rows [[2;8];[0;4]])
        = Some (ThinkDict (place_decision loc))
        ∧ get_place_instruction (ThinkDict (place_decision loc))
          = Some (place_decision loc)
        ∧ beside (mkBoard [2;2] (rows [[2;8];[0;4]])) c loc
        ∧ (∀ c' z', beside (mkBoard [2;2] (rows [[2;8];[0;4]])) c' z' →
                    cell (rows [[2;8];[0;4]]) c' ≤ cell (rows [[2;8];[0;4]]) c)
        ∧ ∀ roll, ∃ b', place (mkBoard [2;2] (rows [[2;8];[0;4]]))
                          (PInt <$> loc) roll = Some (b', true).
Proof.
  assert (∃ c z, beside (mkBoard [2;2] (rows [[2;8];[0;4]])) c z) as Hbeside.
  { exists [0; 0], [1; 0].
    split; [repeat constructor; lia|]. split; [repeat constructor; lia|].
    split; [reflexivity|]. by exists 0%nat, 0, 1. }
  split; [exact Hbeside|].
  apply (proj1 (strategy_attacker_places (mkBoard [2;2] (rows [[2;8];[0;4]]))
                  ltac:(solve_well_formed))).
  exact Hbeside.
Defined.

(** ** The robot defenders *)

Lemma recursive_dims_spec shape :
  ∀ t dims, positive_shape shape → has_shape shape t →
            recursive_dims t dims = Some (dims + Z.of_nat (length shape)).
Proof.
  induction shape as [|n shape IH]; intros t dims Hpos Ht.
  - destruct Ht as [z ->]. cbn. f_equal. lia.
  - apply Forall_cons in Hpos as [Hn Hpos].
    destruct Ht as (l & -> & Hlen & Hall).
    destruct l as [|first l]; [simpl in Hlen; lia|].
    apply Forall_cons in Hall as [Hfirst _]. cbn [recursive_dims].
    rewrite (IH first (dims + 1) Hpos Hfirst). f_equal. simpl. lia.
Qed.

(** A board that the constructor builds again from its own tiles. *)
Definition loadable `{PyMath} (b : Board pyval) : Prop :=
  well_formed b ∧ Forall accepted_leaf (leaves (tiles b))
  ∧ (py_str_len (tiles b) ≤ 200)%nat.

(** The call [move(dimension,direction)] changes the board. *)
Definition moves (b : Board pyval) (dimension direction : Z) : Prop :=
  ∃ b', move b dimension direction = Some (b', true).

Lemma moves_valid (b : Board pyval) dimension direction :
  moves b dimension direction → valid_move (shape b) dimension direction.
Proof.
  intros [b' Hmove].
  destruct (decide (valid_move (shape b) dimension direction)); [done|].
  by rewrite move_invalid in Hmove.
Qed.

(** The decision of a defender that keeps going. *)
Definition move_decision (dimension direction : Z) : gmap string pyval :=
  {[ "keepgoing" := PBool true; "dimension" := PInt dimension;
     "direction" := PInt direction ]}.

Definition give_up_move : gmap string pyval :=
  {[ "keepgoing" := PBool false; "dimension" := PNone;
     "direction" := PNone ]}.

Lemma move_decision_accepted dimension direction :
  direction = -1 ∨ direction = 1 →
  get_move_instruction (ThinkDict (move_decision dimension direction))
  = Some (move_decision dimension direction).
Proof. intros [-> | ->]; by vm_compute. Qed.

Section defender_facts.
Context `{PyMath}.
Variable b : Board pyval.
Hypothesis Hload : loadable b.

(** The trial on a board of its own tells what [move] does on the board
    shown. *)
Lemma trial_move_spec dim direction :
  ∃ b' moved,
    move b dim direction = Some (b', moved)
    ∧ trial_move (tiles b) dim direction = Some moved.
Proof.
  destruct Hload as (Hwf & Hacc & Hlen).
  assert (Board_init [PInt 4; PInt 4] (tiles b) = Some b) as Hinit.
  { destruct Hwf as [Hpos [Hne Hsh]].
    rewrite (Board_init_layout _ (shape b) (tiles b)); try done.
    by destruct b. }
  unfold trial_move. rewrite Hinit. cbn [mbind option_bind].
  destruct (move_cases b dim direction Hwf)
    as [[_ Hmv]|(_ & ts & bl & k & _ & Hmv & _)];
    rewrite Hmv; by eexists _, _.
Qed.

Lemma trial_move_moves dim direction :
  trial_move (tiles b) dim direction = Some true ↔ moves b dim direction.
Proof.
  destruct (trial_move_spec dim direction) as (b' & moved & Hmv & ->).
  unfold moves. rewrite Hmv. split.
  - intros ?. simplify_eq. by exists b'.
  - intros [b'' ?]. by simplify_eq.
Qed.

Lemma trial_move_total dim direction :
  ∃ moved, trial_move (tiles b) dim direction = Some moved
           ∧ (moved = true ↔ moves b dim direction).
Proof.
  destruct (trial_move_spec dim direction) as (b' & moved & Hmv & Htrial).
  exists moved. split; [done|]. rewrite <- trial_move_moves, Htrial.
  split; [by intros ->|]. intros ?. by simplify_eq.
Qed.

Lemma Random_Defender_moves_spec dims :
  ∀ possible_moves,
    ∃ found,
      Random_Defender_moves (tiles b) dims possible_moves
      = Some (possible_moves ++ found)
      ∧ ∀ mv, mv ∈ found ↔
              ∃ dim direction,
                mv = [dim; direction] ∧ dim ∈ dims
                ∧ (direction = -1 ∨ direction = 1) ∧ moves b dim direction.
Proof.
  induction dims as [|dim dims IH]; intros possible_moves.
  { exists []. split; [by rewrite app_nil_r|]. intros mv.
    split; [by intros ?%elem_of_nil|].
    by intros (? & ? & _ & ?%elem_of_nil & _). }
  cbn [Random_Defender_moves].
  destruct (trial_move_total dim (-1)) as (m1 & -> & Hm1).
  destruct (trial_move_total dim 1) as (m2 & -> & Hm2).
  cbn [mbind option_bind].
  set (found1 := (if m1 then [[dim; -1]] else []) ++
                 (if m2 then [[dim; 1]] else [])).
  assert ((if m2 then (if m1 then possible_moves ++ [[dim; -1]]
                       else possible_moves) ++ [[dim; 1]]
           else if m1 then possible_moves ++ [[dim; -1]] else possible_moves)
          = possible_moves ++ found1) as ->.
  { unfold found1. destruct m1, m2; by rewrite <- ?app_assoc, ?app_nil_r. }
  destruct (IH (possible_moves ++ found1)) as (found2 & -> & Hfound2).
  exists (found1 ++ found2). split; [by rewrite app_assoc|].
  intros mv. rewrite elem_of_app, Hfound2. split.
  - intros [Hin|(d & v & -> & Hd & Hv & Hmv)].
    + unfold found1 in Hin. apply elem_of_app in Hin as [Hin|Hin].
      * destruct m1; [|by apply elem_of_nil in Hin].
        apply list_elem_of_singleton in Hin as ->.
        exists dim, (-1). split; [done|]. split; [by left|].
        split; [by left|by apply Hm1].
      * destruct m2; [|by apply elem_of_nil in Hin].
        apply list_elem_of_singleton in Hin as ->.
        exists dim, 1. split; [done|]. split; [by left|].
        split; [by right|by apply Hm2].
    + exists d, v. split; [done|]. split; [by right|done].
  - intros (d & v & -> & [->|Hd]%elem_of_cons & Hv & Hmv).
    + left. unfold found1. apply elem_of_app.
      destruct Hv as [-> | ->].
      * left. apply Hm1 in Hmv as ->. by left.
      * right. apply Hm2 in Hmv as ->. by left.
    + right. by exists d, v.
Qed.

Lemma first_movable_spec direction dims :
  ∃ found,
    first_movable (tiles b) dims direction = Some found
    ∧ match found with
      | Some dim =>
          ∃ pre post, dims = pre ++ dim :: post ∧ moves b dim direction
                      ∧ ∀ d, d ∈ pre → ¬ moves b d direction
      | None => ∀ d, d ∈ dims → ¬ moves b d direction
      end.
Proof.
  induction dims as [|dim dims IH].
  { exists None. split; [done|]. by intros d ?%elem_of_nil. }
  cbn [first_movable].
  destruct (trial_move_total dim direction) as (moved & -> & Hmoved).
  cbn [mbind option_bind]. destruct moved.
  - exists (Some dim). split; [done|]. exists [], dims.
    split; [done|]. split; [by apply Hmoved|]. by intros d ?%elem_of_nil.
  - destruct IH as (found & -> & Hfound). exists found. split; [done|].
    assert (¬ moves b dim direction) as Hnot.
    { intros Hmv. by apply Hmoved in Hmv. }
    destruct found as [d'|].
    + destruct Hfound as (pre & post & -> & Hmv & Hpre).
      exists (dim :: pre), post. split; [done|]. split; [done|].
      intros d [->|Hd]%elem_of_cons; [done|by apply Hpre].
    + intros d [->|Hd]%elem_of_cons; [done|by apply Hfound].
Qed.
End defender_facts.

(** X12.  Shown the tiles of a well-formed board that can be loaded again
    (leaves that the constructor accepts, a printed form of at most 200
    characters), [Random_Defender.think] returns a decision that the wrapper
    accepts.  While some call of [move] changes the board it keeps going,
    and whatever it draws, [move] with its dimension and direction returns
    true on the board; every such call is its decision for some draw.  When
    no call of [move] changes the board it gives up. *)
Theorem random_defender_moves `{PyMath} (b : Board pyval) :
  loadable b →
  ((∃ dimension direction, moves b dimension direction) →
   (∀ draw,
      ∃ dimension direction,
        Random_Defender_think draw (tiles b)
        = Some (ThinkDict (move_decision dimension direction))
        ∧ get_move_instruction (ThinkDict (move_decision dimension direction))
          = Some (move_decision dimension direction)
        ∧ moves b dimension direction)
   ∧ (∀ dimension direction,
        moves b dimension direction →
        ∃ draw, Random_Defender_think draw (tiles b)
                = Some (ThinkDict (move_decision dimension direction))))
  ∧ ((∀ dimension direction, ¬ moves b dimension direction) →
     ∀ draw,
       Random_Defender_think draw (tiles b) = Some (ThinkDict give_up_move)
       ∧ get_move_instruction (ThinkDict give_up_move) = Some give_up_move).
Proof.
  intros Hload. pose proof Hload as ([Hpos [Hne Hsh]] & _ & _).
  destruct (Random_Defender_moves_spec b Hload
              (seqZ 0 (Z.of_nat (length (shape b)))) [])
    as (found & Hrun & Hfound).
  rewrite app_nil_l in Hrun.
  assert (∀ draw,
            Random_Defender_think draw (tiles b)
            = if bool_decide (0 < length found)%nat then
                decided_move ← random_choice draw found;
                dimension ← decided_move !! 0%nat;
                direction ← decided_move !! 1%nat;
                Some (ThinkDict (move_decision dimension direction))
              else Some (ThinkDict give_up_move)) as Hthink.
  { intros draw. unfold Random_Defender_think.
    rewrite (recursive_dims_spec (shape b) (tiles b) 0 Hpos Hsh).
    cbn [mbind option_bind]. rewrite Z.add_0_l, Hrun. done. }
  assert (∀ dimension direction,
            moves b dimension direction → [dimension; direction] ∈ found)
    as Hin_found.
  { intros dimension direction Hmv. apply Hfound.
    exists dimension, direction. split; [done|].
    destruct (moves_valid b _ _ Hmv) as [Hd Hv].
    split; [apply elem_of_seqZ; lia|done]. }
  split.
  - intros (dimension & direction & Hmv).
    assert (found ≠ []) as Hsome.
    { intros Hnil. pose proof (Hin_found _ _ Hmv) as Hin.
      rewrite Hnil in Hin. by apply elem_of_nil in Hin. }
    assert (0 < length found)%nat as Hlen
      by (destruct found; [done|simpl; lia]).
    split.
    + intros draw.
      destruct (random_choice_elem draw found Hsome) as (mv & Hmv' & Hin).
      apply Hfound in Hin as (d & v & -> & Hd & Hv & Hmoves).
      exists d, v. rewrite Hthink, bool_decide_eq_true_2, Hmv' by done.
      split; [done|]. split; [by apply move_decision_accepted|done].
    + intros d v Hmoves.
      destruct (random_choice_any found [d; v] (Hin_found _ _ Hmoves))
        as [draw Hdraw].
      exists draw. by rewrite Hthink, bool_decide_eq_true_2, Hdraw.
  - intros Hnone draw.
    assert (found = []) as ->.
    { destruct found as [|mv found]; [done|].
      destruct (proj1 (Hfound mv)) as (d & v & _ & _ & _ & Hmv); [by left|].
      by destruct (Hnone d v). }
    rewrite Hthink. split; [done|by vm_compute].
Qed.

Lemma random_defender_moves_witness :
  (∃ dimension direction,
     moves (mkBoard [2;2] (rows [[2;0];[0;4]])) dimension direction)
  ∧ ∀ draw,
      ∃ dimension direction,
        @Random_Defender_think exact_math draw (rows [[2;0];[0;4]])
        = Some (ThinkDict (move_decision dimension direction))
        ∧ get_move_instruction (ThinkDict (move_decision dimension direction))
          = Some (move_decision dimension direction)
        ∧ moves (mkBoard [2;2] (rows [[2;0];[0;4]])) dimension direction.
Proof.
  assert (∃ dimension direction,
            moves (mkBoard [2;2] (rows [[2;0];[0;4]])) dimension direction)
    as Hmoves.
  { exists 0, (-1). eexists. vm_compute. reflexivity. }
  assert (@loadable exact_math (mkBoard [2;2] (rows [[2;0];[0;4]])))
    as Hload.
  { split; [solve_well_formed|]. split; [|vm_compute; lia].
    repeat (apply Forall_cons_2 || apply Forall_nil_2);
      eexists; (split; [reflexivity|]);
      first [by left|right; split; [lia|reflexivity]]. }
  split; [exact Hmoves|].
  apply (proj1 (proj1 (@random_defender_moves exact_math
                         (mkBoard [2;2] (rows [[2;0];[0;4]])) Hload)
                  Hmoves)).
Defined.

(** The order in which [Strategy_Defender.think] tries the calls: toward
    the origin along the axes from the first to the last, then away from it
    along the axes from the last to the first. *)
Definition priority (dims : Z) : list (Z * Z) :=
  ((λ dim, (dim, -1)) <$> seqZ 0 dims)
  ++ ((λ dim, (dim, 1)) <$> reverse (seqZ 0 dims)).

(** X13.  Shown the tiles of a well-formed board that can be loaded again,
    [Strategy_Defender.think] returns a decision that the wrapper accepts:
    the first call, in its order of priority, that changes the board, or
    the decision to give up when no call of [move] changes the board. *)
Theorem strategy_defender_moves `{PyMath} (b : Board pyval) :
  loadable b →
  (∃ pre dimension direction post,
     priority (Z.of_nat (length (shape b)))
     = pre ++ (dimension, direction) :: post
     ∧ (∀ d v, (d, v) ∈ pre → ¬ moves b d v)
     ∧ moves b dimension direction
     ∧ Strategy_Defender_think (tiles b)
       = Some (ThinkDict (move_decision dimension direction))
     ∧ get_move_instruction (ThinkDict (move_decision dimension direction))
       = Some (move_decision dimension direction))
  ∨ ((∀ dimension direction, ¬ moves b dimension direction)
     ∧ Strategy_Defender_think (tiles b) = Some (ThinkDict give_up_move)
     ∧ get_move_instruction (ThinkDict give_up_move) = Some give_up_move).
Proof.
  intros Hload. pose proof Hload as ([Hpos [Hne Hsh]] & _ & _).
  set (n := Z.of_nat (length (shape b))).
  destruct (first_movable_spec b Hload (-1) (seqZ 0 n))
    as (found1 & Hrun1 & Hfound1).
  destruct (first_movable_spec b Hload 1 (reverse (seqZ 0 n)))
    as (found2 & Hrun2 & Hfound2).
  assert (Strategy_Defender_think (tiles b)
          = match found1 with
            | Some dim => Some (ThinkDict (move_decision dim (-1)))
            | None =>
                match found2 with
                | Some dim => Some (ThinkDict (move_decision dim 1))
                | None => Some (ThinkDict give_up_move)
                end
            end) as Hthink.
  { unfold Strategy_Defender_think.
    rewrite (recursive_dims_spec (shape b) (tiles b) 0 Hpos Hsh).
    cbn [mbind option_bind]. rewrite Z.add_0_l. fold n.
    rewrite Hrun1. cbn [mbind option_bind]. destruct found1; [done|].
    rewrite Hrun2. cbn [mbind option_bind]. by destruct found2. }
  rewrite Hthink. unfold priority. fold n.
  destruct found1 as [dim|].
  { destruct Hfound1 as (pre & post & Hsplit & Hmv & Hpre). left.
    exists ((λ dim, (dim, -1)) <$> pre), dim, (-1),
      (((λ dim, (dim, -1)) <$> post)
       ++ ((λ dim, (dim, 1)) <$> reverse (seqZ 0 n))).
    split; [by rewrite Hsplit, fmap_app, fmap_cons, <- app_assoc|].
    split.
    { intros d v (d' & ? & Hd')%list_elem_of_fmap. simplify_eq.
      by apply Hpre. }
    split; [done|]. split; [done|]. apply move_decision_accepted. by left. }
  destruct found2 as [dim|].
  { destruct Hfound2 as (pre & post & Hsplit & Hmv & Hpre). left.
    exists (((λ dim, (dim, -1)) <$> seqZ 0 n) ++ ((λ dim, (dim, 1)) <$> pre)),
      dim, 1, ((λ dim, (dim, 1)) <$> post).
    split; [by rewrite Hsplit, fmap_app, fmap_cons, <- app_assoc|].
    split.
    { intros d v [(d' & ? & Hd')%list_elem_of_fmap
                 |(d' & ? & Hd')%list_elem_of_fmap]%elem_of_app; simplify_eq.
      - by apply Hfound1.
      - by apply Hpre. }
    split; [done|]. split; [done|]. apply move_decision_accepted. by right. }
  right. split; [|split; [done|by vm_compute]].
  intros dimension direction Hmv.
  destruct (moves_valid b _ _ Hmv) as [Hd [-> | ->]].
  - apply (Hfound1 dimension); [|done]. apply elem_of_seqZ. unfold n. lia.
  - apply (Hfound2 dimension); [|done].
    apply elem_of_reverse, elem_of_seqZ. unfold n. lia.
Qed.

Lemma strategy_defender_moves_witness :
  (∃ pre dimension direction post,
     priority 2 = pre ++ (dimension, direction) :: post
     ∧ (∀ d v, (d, v) ∈ pre → ¬ moves (mkBoard [2;2] (rows [[2;4];[0;2]])) d v)
     ∧ moves (mkBoard [2;2] (rows [[2;4];[0;2]])) dimension direction
     ∧ @Strategy_Defender_think exact_math (rows [[2;4];[0;2]])
       = Some (ThinkDict (move_decision dimension direction))
     ∧ get_move_instruction (ThinkDict (move_decision dimension direction))
       = Some (move_decision dimension direction))
  ∨ ((∀ dimension direction,
        ¬ moves (mkBoard [2;2] (rows [[2;4];[0;2]])) dimension direction)
     ∧ @Strategy_Defender_think exact_math (rows [[2;4];[0;2]])
       = Some (ThinkDict give_up_move)
     ∧ get_move_instruction (ThinkDict give_up_move) = Some give_up_move).
Proof.
  apply (@strategy_defender_moves exact_math
           (mkBoard [2;2] (rows [[2;4];[0;2]]))).
  split; [solve_well_formed|]. split; [|vm_compute; lia].
  repeat (apply Forall_cons_2 || apply Forall_nil_2);
    eexists; (split; [reflexivity|]);
    first [by left|right; split; [lia|reflexivity]].
Defined.

(** ** Rounds *)

(** [get_score] returns on every nested list of ints that are not
    negative, whatever the logarithm gives. *)
Lemma get_score_scorable `{PyMath} t :
  ∀ l score, t = PList l → Forall scorable_tile (leaves t) →
             is_Some (get_score t score).
Proof.
  induction t as [| | |subs IH|] using pyval_nested_ind;
    intros l score Heq; try done.
  simplify_eq. cbn [get_score]. revert score.
  induction l as [|sub rest IHrest]; intros score Hacc; [by eexists|].
  apply Forall_cons in IH as [IHsub IH]. specialize (IHrest IH).
  cbn [leaves] in Hacc. rewrite bind_cons in Hacc.
  apply Forall_app in Hacc as [Hsub Hrest].
  destruct sub as [z|flag| |l'|k];
    try (apply Forall_singleton in Hsub as (? & ? & _); done).
  - apply Forall_singleton in Hsub as (z' & ? & Hz). simplify_eq.
    assert (is_Some (tile_score z')) as [s ->].
    { unfold tile_score. case_bool_decide; [by eexists|].
      rewrite bool_decide_eq_false_2; [by eexists|]. lia. }
    cbn [mbind option_bind]. by apply IHrest.
  - destruct (IHsub l' score eq_refl Hsub) as [s ->].
    cbn [mbind option_bind]. by apply IHrest.
Qed.

(** A board on which a round can go on: well formed, no tile negative. *)
Definition sound (b : Board pyval) : Prop :=
  well_formed b ∧ Forall (λ v, 0 ≤ v) (tile_values (tiles b)).

Lemma sound_score `{PyMath} b : sound b → is_Some (get_score (tiles b) 0).
Proof.
  intros [[_ [Hne Hsh]] Hnn].
  assert (∃ l, tiles b = PList l) as [l Hl].
  { destruct (shape b) as [|n sh]; [done|]. destruct Hsh as (l & -> & _).
    by exists l. }
  apply (get_score_scorable _ l 0 Hl).
  rewrite (leaves_ints (shape b) _ Hsh). apply Forall_fmap.
  eapply Forall_impl; [exact Hnn|]. intros v Hv. by exists v.
Qed.

Lemma Board_init_sound `{PyMath} given load_tiles b :
  Board_init given load_tiles = Some b → sound b.
Proof.
  intros Hinit.
  destruct (Board_init_spec given load_tiles b Hinit) as (Hwf & Hacc & _).
  split; [done|]. pose proof Hwf as [_ [_ Hsh]].
  rewrite (leaves_ints (shape b) _ Hsh), Forall_fmap in Hacc.
  eapply Forall_impl; [exact Hacc|]. intros v (z & ? & Hz). simplify_eq.
  lia.
Qed.

(** [move] on a sound board: it returns, the board stays sound, of the
    same shape and of the same sum. *)
Lemma move_sound (b : Board pyval) dimension direction :
  sound b →
  ∃ b' moved,
    move b dimension direction = Some (b', moved) ∧ sound b'
    ∧ shape b' = shape b
    ∧ sum_tiles (tiles b') = sum_tiles (tiles b).
Proof.
  intros [Hwf Hnn].
  destruct (move_cases b dimension direction Hwf)
    as [[_ Hsame]|(Hvalid & ts & bl & k & Hrun & Hmv & Hsw & Hts)].
  { exists b, false. split; [done|]. split; [by split|]. by split. }
  exists (mkBoard (shape b) ts), (bool_decide (0 < k)).
  split; [done|]. pose proof Hwf as [Hpos [Hne Hsh]]. cbn [shape tiles].
  split; [split; [by split|]|split; [done|]].
  - cbn [tiles]. apply (tile_values_Forall (λ v, 0 ≤ v) (shape b) ts (proj2 Hts)).
    apply (traced_closed (shape b) (tiles b) (λ v, 0 ≤ v) ts bl).
    + done.
    + intros v Hv. lia.
    + by apply (tile_values_Forall (λ v, 0 ≤ v) (shape b) (tiles b) Hsh).
    + by eapply move_traced.
  - rewrite (sum_tiles_total _ _ (proj2 Hts)), (sum_tiles_total _ _ Hsh).
    eapply (sweeps_total _ _ _ Hvalid); [done|by split|].
    by apply sequential_coordinates_in_shape.
Qed.

(** [place] on a sound board: it returns, the board stays sound and of the
    same shape, and its sum grows by the number placed when the call
    returns true. *)
Lemma place_sound (b : Board pyval) location roll :
  sound b →
  ∃ b' placed,
    place b location roll = Some (b', placed) ∧ sound b'
    ∧ shape b' = shape b
    ∧ sum_tiles (tiles b')
      = sum_tiles (tiles b) + (if placed then placed_number roll else 0).
Proof.
  intros [Hwf Hnn]. pose proof Hwf as [Hpos [Hne Hsh]].
  destruct (place_cases b location roll Hwf)
    as [Hfail|(loc & ts & -> & Hin & Hzero & Hset & Hts & Hok)].
  { exists b, false. rewrite Z.add_0_r.
    split; [done|]. split; [by split|]. by split. }
  exists (mkBoard (shape b) ts), true. split; [done|].
  destruct (place_written b _ _ roll Hwf Hok)
    as (loc' & Heq & _ & _ & _ & _ & Hnew & Hother).
  assert (loc' = loc) as ->.
  { clear -Heq. revert loc' Heq.
    induction loc as [|i loc IH]; intros [|i' loc'] Heq; try done.
    cbn in Heq. simplify_eq. f_equal. by apply IH. }
  cbn [shape tiles] in *.
  split; [split; [by split|]|split; [done|]].
  - cbn [tiles].
    apply (tile_values_Forall (λ v, 0 ≤ v) (shape b) ts (proj2 Hts)).
    intros c Hc. destruct (decide (c = loc)) as [->|Hnc].
    + unfold cell. rewrite Hnew. unfold placed_number. simpl.
      case_bool_decide; lia.
    + unfold cell. rewrite (Hother c Hc Hnc).
      by apply (tile_values_Forall (λ v, 0 ≤ v) (shape b) (tiles b) Hsh).
  - rewrite (sum_tiles_total _ _ (proj2 Hts)), (sum_tiles_total _ _ Hsh).
    unfold total.
    rewrite (cells_sum_set (shape b) _ (tiles b) loc (placed_number roll) ts);
      [|done..].
    unfold cell. rewrite Hzero. simpl. lia.
Qed.

(** The numbers placed by the draws from the [from]-th to the one before
    the [to]-th. *)
Definition placed_between (rolls : nat → Z) (from to : nat) : Z :=
  Zsum ((λ n, placed_number (rolls n)) <$> seq from (to - from)).

Lemma placed_between_refl rolls n : placed_between rolls n n = 0.
Proof. unfold placed_between. by rewrite Nat.sub_diag. Qed.

Lemma placed_between_step rolls from to :
  (from < to)%nat →
  placed_between rolls from to
  = placed_number (rolls from) + placed_between rolls (Datatypes.S from) to.
Proof.
  intros Hlt. unfold placed_between.
  replace (to - from)%nat with (Datatypes.S (to - Datatypes.S from)) by lia.
  done.
Qed.

Section round_outcome.
Context `{PyMath}.
Variables (attacker defender : provider) (rolls : nat → Z).

(** What a round that has come to a sound board can lead to: it never
    ends by an exception, and when it returns, the board of the final state
    is sound and of the same shape, the score is the score of that board,
    and the sum of its tiles is the sum at the start plus the numbers
    placed since. *)
Definition round_result (st : round_state)
    (result : option (outcome (Z * round_state))) : Prop :=
  match result with
  | Some Raised => False
  | Some (Returned (score, st')) =>
      sound (board st') ∧ shape (board st') = shape (board st)
      ∧ get_score (tiles (board st')) 0 = Some score
      ∧ (drawn st ≤ drawn st')%nat
      ∧ sum_tiles (tiles (board st'))
        = sum_tiles (tiles (board st))
          + placed_between rolls (drawn st) (drawn st')
  | _ => True
  end.

Lemma round_result_end (st : round_state) :
  sound (board st) →
  round_result st
    match get_score (tiles (board st)) 0 with
    | Some round_score => Some (Returned (round_score, st))
    | None => Some Raised
    end.
Proof.
  intros Hsound. destruct (sound_score _ Hsound) as [score Hscore].
  rewrite Hscore. cbn. rewrite placed_between_refl.
  split; [done|]. split; [done|]. split; [done|]. split; lia.
Qed.

Lemma round_result_same st st' result :
  board st' = board st → drawn st' = drawn st →
  round_result st' result → round_result st result.
Proof.
  intros Hb Hd. unfold round_result. rewrite Hb, Hd. done.
Qed.

Lemma play_result fuel :
  ∀ who st, sound (board st) →
            round_result st (play attacker defender rolls fuel who st).
Proof.
  induction fuel as [|fuel IH]; intros who st Hsound; [done|].
  cbn [play]. destruct who.
  - set (st1 := mkRound (board st) (asked st ++ [AskedAttacker (tiles (board st))])
                        (drawn st)).
    assert (round_result st (play attacker defender rolls fuel AttackTurn st1))
      as Hagain.
    { apply (round_result_same st st1); [done..|]. by apply IH. }
    destruct (attacker (attacker_asked st) (tiles (board st)))
      as [answer| |]; [|done..].
    destruct (get_place_instruction answer) as [instruction|]; [|done].
    destruct (is_true (instruction !! "keepgoing")).
    + change (board st1) with (board st).
      change (drawn st1) with (drawn st).
      destruct (place_sound (board st)
                  (list_items (instruction !! "location"))
                  (rolls (drawn st)) Hsound)
        as (b' & placed & -> & Hsound' & Hshape & Hsum).
      destruct placed.
      * specialize (IH DefendTurn
                      (mkRound b' (asked st1) (Datatypes.S (drawn st)))
                      Hsound').
        unfold round_result in *.
        destruct (play attacker defender rolls fuel DefendTurn _)
          as [[[score st']| |]|]; try done.
        cbn [board drawn] in IH.
        destruct IH as (Hs & Hsh & Hscore & Hdrawn & Hsum').
        split; [done|]. split; [congruence|]. split; [done|].
        split; [lia|]. rewrite Hsum', Hsum.
        rewrite (placed_between_step rolls (drawn st)) by lia. lia.
      * specialize (IH AttackTurn (mkRound b' (asked st1) (drawn st))
                      Hsound').
        unfold round_result in *.
        destruct (play attacker defender rolls fuel AttackTurn _)
          as [[[score st']| |]|]; try done.
        cbn [board drawn] in IH.
        destruct IH as (Hs & Hsh & Hscore & Hdrawn & Hsum').
        split; [done|]. split; [congruence|]. split; [done|].
        split; [lia|]. rewrite Hsum', Hsum. lia.
    + apply (round_result_same st st1); [done..|].
      by apply (round_result_end st1).
  - set (st1 := mkRound (board st) (asked st ++ [AskedDefender (tiles (board st))])
                        (drawn st)).
    assert (round_result st (play attacker defender rolls fuel DefendTurn st1))
      as Hagain.
    { apply (round_result_same st st1); [done..|]. by apply IH. }
    destruct (defender (defender_asked st) (tiles (board st)))
      as [answer| |]; [|done..].
    destruct (get_move_instruction answer) as [instruction|] eqn:Hinstr;
      [|done].
    destruct (is_true (instruction !! "keepgoing")) eqn:Hkeep.
    + assert (∃ dimension direction,
                as_int (default PNone (instruction !! "dimension"))
                = Some dimension
                ∧ as_direction (default PNone (instruction !! "direction"))
                  = Some direction) as (dimension & direction & -> & ->).
      { unfold get_move_instruction in Hinstr.
        destruct answer as [d|]; [|done].
        case_bool_decide; [done|].
        destruct (d !! "keepgoing") as [keepgoing|] eqn:Hk; [|done].
        destruct (d !! "dimension") as [dim|] eqn:Hdim; [|done].
        destruct (d !! "direction") as [dir|] eqn:Hdir; [|done].
        destruct keepgoing as [|[|]| | |]; try done.
        - destruct dim as [z| | | |]; try done.
          destruct (as_direction dir) as [v|] eqn:Hv; [|done].
          simplify_eq. rewrite Hdim, Hdir. cbn. rewrite Hv. by eexists _, _.
        - simplify_eq. by rewrite Hk in Hkeep. }
      change (board st1) with (board st).
      change (drawn st1) with (drawn st).
      destruct (move_sound (board st) dimension direction Hsound)
        as (b' & moved & -> & Hsound' & Hshape & Hsum).
      destruct moved.
      * specialize (IH AttackTurn (mkRound b' (asked st1) (drawn st))
                      Hsound').
        unfold round_result in *.
        destruct (play attacker defender rolls fuel AttackTurn _)
          as [[[score st']| |]|]; try done.
        cbn [board drawn] in IH.
        destruct IH as (Hs & Hsh & Hscore & Hdrawn & Hsum').
        split; [done|]. split; [congruence|]. split; [done|].
        split; [lia|]. rewrite Hsum', Hsum. lia.
      * specialize (IH DefendTurn (mkRound b' (asked st1) (drawn st))
                      Hsound').
        unfold round_result in *.
        destruct (play attacker defender rolls fuel DefendTurn _)
          as [[[score st']| |]|]; try done.
        cbn [board drawn] in IH.
        destruct IH as (Hs & Hsh & Hscore & Hdrawn & Hsum').
        split; [done|]. split; [congruence|]. split; [done|].
        split; [lia|]. rewrite Hsum', Hsum. lia.
    + apply (round_result_same st st1); [done..|].
      by apply (round_result_end st1).
Qed.
End round_outcome.


(** X15.  When [Round.start] returns, the board it was started with was
    accepted by the constructor, the final board is well formed and has the
    shape of the first, the score returned is the score of the final board,
    and the tiles of the final board add up to the tiles of the first board
    plus the numbers placed, one for each draw: moves add nothing. *)
Theorem round_accounting `{PyMath} (attacker defender : provider)
    (rolls : nat → Z) fuel given board_tiles score st :
  Round_start attacker defender rolls fuel given board_tiles
  = Some (Returned (score, st)) →
  ∃ b0,
    Board_init given board_tiles = Some b0
    ∧ well_formed (board st) ∧ shape (board st) = shape b0
    ∧ get_score (tiles (board st)) 0 = Some score
    ∧ sum_tiles (tiles (board st))
      = sum_tiles (tiles b0)
        + Zsum ((λ n, if bool_decide (rolls n < 9) then 2 else 4)
                  <$> seq 0 (drawn st)).
Proof.
  unfold Round_start. intros Hrun.
  destruct (Board_init given board_tiles) as [b0|] eqn:Hinit; [|done].
  pose proof (play_result attacker defender rolls fuel AttackTurn
                (mkRound b0 [] 0) (Board_init_sound _ _ _ Hinit)) as Hres.
  rewrite Hrun in Hres. cbn [round_result board drawn] in Hres.
  destruct Hres as ([Hwf _] & Hshape & Hscore & _ & Hsum).
  exists b0. split; [done|]. split; [done|]. split; [done|]. split; [done|].
  rewrite Hsum. unfold placed_between. by rewrite Nat.sub_0_r.
Qed.

Lemma round_accounting_witness :
  ∃ b0,
    @Board_init exact_math [PInt 2; PInt 2] (PList []) = Some b0
    ∧ well_formed (mkBoard [2;2] (rows [[2;0];[0;0]]))
    ∧ [2;2] = shape b0
    ∧ @get_score exact_math (rows [[2;0];[0;0]]) 0 = Some 0
    ∧ sum_tiles (rows [[2;0];[0;0]])
      = sum_tiles (tiles b0)
        + Zsum ((λ n, if bool_decide ((λ _ : nat, 0) n < 9) then 2 else 4)
                  <$> seq 0 1).
Proof.
  apply (@round_accounting exact_math
           (λ n _, Returned (ThinkDict
              (if decide (n = 0%nat) then place_decision [0; 0]
               else {[ "keepgoing" := PBool false; "location" := PNone ]})))
           (λ _ _, Returned (ThinkDict give_up_move))
           (λ _, 0) 3 [PInt 2; PInt 2] (PList []) 0
           (mkRound (mkBoard [2;2] (rows [[2;0];[0;0]]))
              [AskedAttacker (rows [[0;0];[0;0]]);
               AskedDefender (rows [[2;0];[0;0]])] 1)).
  vm_compute. reflexivity.
Defined.

(** ** Boards that the robot defenders cannot read *)

Lemma positive_shape_coordinate shape :
  positive_shape shape → ∃ c, in_shape shape c.
Proof.
  induction 1 as [|n shape Hn _ [c Hc]]; [exists []; constructor|].
  exists (0 :: c). constructor; [lia|done].
Qed.

Lemma place_decision_keepgoing loc :
  is_true (place_decision loc !! "keepgoing") = true
  ∧ list_items (place_decision loc !! "location") = PInt <$> loc
  ∧ get_place_instruction (ThinkDict (place_decision loc))
    = Some (place_decision loc).
Proof. by vm_compute. Qed.

Section large_boards.
Context `{PyMath}.
Variable b : Board pyval.
Hypothesis Hwf : well_formed b.
Hypothesis Hlarge : 67 ≤ product (shape b).

Lemma trial_move_refused dim direction :
  trial_move (tiles b) dim direction = None.
Proof.
  unfold trial_move.
  assert (Board_init [PInt 4; PInt 4] (tiles b) = None) as ->; [|done].
  destruct Hwf as [Hpos [Hne Hsh]].
  pose proof (py_str_len_bound (shape b) (tiles b) Hpos Hsh) as Hlen.
  pose proof (printed_bound_product (shape b) Hne Hpos) as Hbound.
  destruct (shape b) as [|n rest]; [done|].
  destruct Hsh as (l & Hl & Hn & _). apply Forall_cons in Hpos as [Hnpos _].
  destruct l as [|first l]; [simpl in Hn; lia|].
  unfold Board_init. rewrite Hl in *.
  rewrite bool_decide_eq_true_2; [done|lia].
Qed.

Lemma robot_defenders_raise :
  (∀ draw, Random_Defender_think draw (tiles b) = None)
  ∧ Strategy_Defender_think (tiles b) = None.
Proof.
  destruct Hwf as [Hpos [Hne Hsh]].
  pose proof (recursive_dims_spec (shape b) (tiles b) 0 Hpos Hsh) as Hdims.
  assert (∃ rest, seqZ 0 (0 + Z.of_nat (length (shape b))) = 0 :: rest)
    as [rest Hseq].
  { destruct (shape b) as [|n sh]; [done|].
    rewrite seqZ_cons by (simpl; lia). by eexists. }
  split.
  - intros draw. unfold Random_Defender_think. rewrite Hdims.
    cbn [mbind option_bind]. rewrite Hseq. cbn [Random_Defender_moves].
    rewrite (trial_move_refused 0 (-1)). reflexivity.
  - unfold Strategy_Defender_think. rewrite Hdims.
    cbn [mbind option_bind]. rewrite Hseq. cbn [first_movable].
    rewrite (trial_move_refused 0 (-1)). reflexivity.
Qed.

(** A defender that raises at every question about this board is asked
    again and again: the round is still running when the fuel is spent,
    however much there is. *)
Lemma defender_raising_forever (attacker defender : provider)
    (rolls : nat → Z) :
  (∀ n, defender n (tiles b) = Raised) →
  ∀ fuel asked drawn,
    play attacker defender rolls fuel DefendTurn (mkRound b asked drawn)
    = None.
Proof.
  intros Hraises. induction fuel as [|fuel IH]; intros asked drawn; [done|].
  cbn [play board]. rewrite Hraises. apply IH.
Qed.
End large_boards.

(** X16.  On a well-formed board of 67 cells or more,
    [Random_Defender.think] and [Strategy_Defender.think] raise, whatever
    the tiles: the board of their own that they build for the first trial
    is refused as too large.  [Round.start] catches the exception and asks
    again, so once such a defender is to move the round never ends.  In
    particular a round started from a shape of 67 cells or more between the
    random attacker and either robot defender never returns. *)
Theorem large_board_round_never_ends `{PyMath} :
  (∀ b : Board pyval,
     well_formed b → 67 ≤ product (shape b) →
     (∀ draw, Random_Defender_think draw (tiles b) = None)
     ∧ Strategy_Defender_think (tiles b) = None
     ∧ ∀ attacker (draws : nat → nat) rolls fuel asked drawn,
         play attacker (λ n, thinking (Random_Defender_think (draws n))) rolls
              fuel DefendTurn (mkRound b asked drawn) = None
         ∧ play attacker (λ _, thinking Strategy_Defender_think) rolls
                fuel DefendTurn (mkRound b asked drawn) = None)
  ∧ (∀ given b0 (attacks defends : nat → nat) rolls fuel,
       Board_init given (PList []) = Some b0 → 67 ≤ product (shape b0) →
       Round_start (λ n, thinking (Random_Attacker_think (attacks n)))
         (λ n, thinking (Random_Defender_think (defends n))) rolls fuel
         given (PList []) = None
       ∧ Round_start (λ n, thinking (Random_Attacker_think (attacks n)))
           (λ _, thinking Strategy_Defender_think) rolls fuel
           given (PList []) = None).
Proof.
  assert (∀ b : Board pyval,
            well_formed b → 67 ≤ product (shape b) →
            (∀ draw, Random_Defender_think draw (tiles b) = None)
            ∧ Strategy_Defender_think (tiles b) = None
            ∧ ∀ attacker (draws : nat → nat) rolls fuel asked drawn,
                play attacker (λ n, thinking (Random_Defender_think (draws n)))
                     rolls fuel DefendTurn (mkRound b asked drawn) = None
                ∧ play attacker (λ _, thinking Strategy_Defender_think) rolls
                       fuel DefendTurn (mkRound b asked drawn) = None)
    as Hdefend.
  { intros b Hwf Hlarge.
    destruct (robot_defenders_raise b Hwf Hlarge) as [Hrandom Hstrategy].
    split; [done|]. split; [done|].
    intros attacker draws rolls fuel asked drawn. split.
    - apply defender_raising_forever. intros n. unfold thinking.
      by rewrite Hrandom.
    - apply defender_raising_forever. intros n. unfold thinking.
      by rewrite Hstrategy. }
  split; [done|].
  intros given b0 attacks defends rolls fuel Hinit Hlarge.
  unfold Round_start. rewrite Hinit.
  destruct fuel as [|fuel]; [done|].
  destruct (Board_init_from_shape given (PList []) b0) as (dims & _ & _ & Hall & ->);
    [done..|].
  pose proof (Board_init_well_formed _ _ _ Hinit) as Hwf.
  destruct (Random_Attacker_think_spec _ Hwf) as (found & Hfound & Hthink).
  destruct (positive_shape_coordinate dims (proj1 Hwf)) as [c Hc].
  assert (c ∈ found) as Hin.
  { apply Hfound. split; [done|]. by apply zero_tiles_cell. }
  assert (found ≠ []) as Hsome.
  { intros Hnil. rewrite Hnil in Hin. by apply elem_of_nil in Hin. }
  destruct (random_choice_elem (attacks 0%nat) found Hsome)
    as (loc & Hloc & Hlocin).
  apply Hfound in Hlocin as [Hlocin Hzero].
  destruct (place_decision_keepgoing loc) as (Hkeep & Hitems & Haccept).
  assert (∀ defender,
            (∀ b1 asked drawn,
               well_formed b1 → shape b1 = dims →
               play (λ n, thinking (Random_Attacker_think (attacks n)))
                    defender rolls fuel DefendTurn (mkRound b1 asked drawn)
               = None) →
            play (λ n, thinking (Random_Attacker_think (attacks n)))
                 defender rolls (Datatypes.S fuel) AttackTurn
                 (mkRound (mkBoard dims (zero_tiles dims)) [] 0) = None)
    as Hround.
  { intros defender Hforever. cbn [play board asked drawn tiles].
    unfold thinking at 1. cbn [attacker_asked asked filter length list_filter].
    cbn [tiles] in Hthink. rewrite Hthink.
    rewrite bool_decide_eq_true_2 by (destruct found; [congruence|simpl; lia]).
    rewrite Hloc. cbn [mbind option_bind].
    rewrite Haccept, Hkeep, Hitems.
    destruct (place_on_empty _ loc (rolls 0%nat) Hwf Hlocin Hzero)
      as [b1 Hplace].
    cbn [board] in Hplace. rewrite Hplace.
    destruct (place_written _ _ _ _ Hwf Hplace)
      as (loc' & _ & _ & Hshape & Hgrid & _).
    cbn [shape] in Hshape, Hgrid.
    apply Hforever; [|exact Hshape].
    split; rewrite Hshape; [exact (proj1 Hwf)|exact Hgrid]. }
  cbn [shape] in Hlarge.
  split; apply Hround; intros b1 asked drawn Hwf1 Hshape1;
    assert (67 ≤ product (shape b1)) as Hlarge1
      by (rewrite Hshape1; exact Hlarge);
    destruct (Hdefend b1 Hwf1 Hlarge1) as (_ & _ & Hplay);
    apply (Hplay _ defends rolls fuel asked drawn).
Qed.

Lemma large_board_round_never_ends_witness :
  67 ≤ product [9; 8]
  ∧ ∀ (attacks defends : nat → nat) rolls fuel,
      @Round_start exact_math
        (λ n, thinking (Random_Attacker_think (attacks n)))
        (λ n, thinking (@Random_Defender_think exact_math (defends n)))
        rolls fuel [PInt 9; PInt 8] (PList []) = None
      ∧ @Round_start exact_math
          (λ n, thinking (Random_Attacker_think (attacks n)))
          (λ _, thinking (@Strategy_Defender_think exact_math))
          rolls fuel [PInt 9; PInt 8] (PList []) = None.
Proof.
  split; [done|]. intros attacks defends rolls fuel.
  apply (proj2 (@large_board_round_never_ends exact_math)
           [PInt 9; PInt 8] (mkBoard [9; 8] (zero_tiles [9; 8]))).
  - vm_compute. reflexivity.
  - vm_compute. discriminate.
Defined.

(** ** No call on a board raises *)

Lemma reachable_sound `{PyMath} b : reachable b → sound b.
Proof.
  induction 1 as [given load_tiles b Hinit
                 |b dimension direction b' moved _ IH Hmove
                 |b location roll b' placed _ IH Hplace].
  - by eapply Board_init_sound.
  - destruct (move_sound b dimension direction IH)
      as (b1 & moved1 & Hrun & Hsound & _).
    rewrite Hmove in Hrun. by simplify_eq.
  - destruct (place_sound b location roll IH)
      as (b1 & placed1 & Hrun & Hsound & _).
    rewrite Hplace in Hrun. by simplify_eq.
Qed.

(** X17.  A board that the constructor has accepted, and that any calls of
    [move] and [place] have changed since, is well formed and holds no
    negative tile; on it every call of [move], whatever the dimension and
    the direction, and every call of [place], whatever the list given as
    location, returns without an exception, and [get_score] returns a
    score. *)
Theorem board_calls_never_raise `{PyMath} (b : Board pyval) :
  reachable b →
  well_formed b
  ∧ Forall (λ v, 0 ≤ v) (tile_values (tiles b))
  ∧ (∀ dimension direction, is_Some (move b dimension direction))
  ∧ (∀ location roll, is_Some (place b location roll))
  ∧ is_Some (get_score (tiles b) 0).
Proof.
  intros Hreach. pose proof (reachable_sound b Hreach) as Hsound.
  split; [exact (proj1 Hsound)|]. split; [exact (proj2 Hsound)|].
  split; [|split].
  - intros dimension direction.
    destruct (move_sound b dimension direction Hsound)
      as (b' & moved & -> & _). by eexists.
  - intros location roll.
    destruct (place_sound b location roll Hsound)
      as (b' & placed & -> & _). by eexists.
  - by apply sound_score.
Qed.

Lemma board_calls_never_raise_witness :
  well_formed (mkBoard [2;2] (rows [[2;2];[0;0]]))
  ∧ Forall (λ v, 0 ≤ v) (tile_values (rows [[2;2];[0;0]]))
  ∧ (∀ dimension direction,
       is_Some (move (mkBoard [2;2] (rows [[2;2];[0;0]]))
                     dimension direction))
  ∧ (∀ location roll,
       is_Some (place (mkBoard [2;2] (rows [[2;2];[0;0]])) location roll))
  ∧ is_Some (@get_score exact_math (rows [[2;2];[0;0]]) 0).
Proof.
  apply (@board_calls_never_raise exact_math
           (mkBoard [2;2] (rows [[2;2];[0;0]]))).
  apply (@reachable_move exact_math
           (mkBoard [2;2] (rows [[0;2];[2;0]])) 0 (-1) _ true);
    [|vm_compute; reflexivity].
  apply (@reachable_place exact_math
           (mkBoard [2;2] (rows [[0;2];[0;0]])) [PInt 1; PInt 0] 0 _ true);
    [|vm_compute; reflexivity].
  apply (@reachable_place exact_math
           (mkBoard [2;2] (rows [[0;0];[0;0]])) [PInt 0; PInt 1] 0 _ true);
    [|vm_compute; reflexivity].
  apply (@reachable_init exact_math [PInt 2; PInt 2] (PList [])).
  by vm_compute.
Defined.

(** ** Which players a round gets *)


